(** * js-utilities: the deferral scheduler, the idle queue scheduler and the
    state store, embedded from [src/lib/next-time.ts], [src/lib/idle-queue.ts]
    and [src/lib/state.ts]; then the event emitter of [src/lib/timer.ts] and
    the resize listener of [src/unnamed/part_000].

    The event loop is made explicit: what the host (browser) holds for later
    (callbacks booked with [nextTime], timers, promises that have not settled)
    is part of a world record, and each thing the host or the caller can do is
    an event that steps the world.  The state store is embedded twice: with
    callbacks that only unsubscribe or throw, and with callbacks that call
    back into the store while a flush is running. *)

From Stdlib Require Import ZArith Lia.
From stdpp Require Import base option list gmap strings.

Open Scope Z_scope.
Open Scope nat_scope.

(** ** Deferral scheduler, [src/lib/next-time.ts] *)

Module NextTime.

(** The three host facilities [nextTime] chooses from. *)
Inductive Mechanism := IdleCallback | AnimationFrame | ZeroTimeout.

(** What the host returned for one booking: the facility and its id.  The
    closure [nextTime] returns captures exactly this pair. *)
Record Handle := mkHandle { mech : Mechanism; hid : nat }.

#[export] Instance Mechanism_eq_dec : EqDecision Mechanism.
Proof. solve_decision. Defined.

#[export] Instance Handle_eq_dec : EqDecision Handle.
Proof. solve_decision. Defined.

Section Host.
Context {Task : Type}.

(** The host: which facilities exist ([requestIdleCallback] and
    [requestAnimationFrame] tested for truthiness by the source), the next id
    it hands out, and the callbacks booked and neither fired nor cancelled.
    A facility that does not exist is a global that is declared and falsy:
    the source names the globals bare, so in a host where one it tests is
    not declared at all the test throws a [ReferenceError] and nothing is
    booked; such hosts are not among these. *)
Record Host := mkHost {
  has_requestIdleCallback : bool;
  has_requestAnimationFrame : bool;
  next_id : nat;
  pending : list (Handle * Task)
}.

Definition choose (useIdle : bool) (h : Host) : Mechanism :=
  if useIdle && has_requestIdleCallback h then IdleCallback
  else if has_requestAnimationFrame h then AnimationFrame
  else ZeroTimeout.

(** [nextTime(callback, {useIdle})]: books the callback and returns the
    cancel closure, represented by the handle it closes over. *)
Definition nextTime (callback : Task) (useIdle : bool) (h : Host) : Handle * Host :=
  let c := mkHandle (choose useIdle h) (next_id h) in
  (c, mkHost (has_requestIdleCallback h) (has_requestAnimationFrame h)
             (S (next_id h)) (pending h ++ [(c, callback)])).

(** Calling the returned closure: [cancelIdleCallback(id)],
    [cancelAnimationFrame(id)] or [clearTimeout(id)]; nothing happens when the
    callback already fired or was cancelled. *)
Definition cancel (c : Handle) (h : Host) : Host :=
  mkHost (has_requestIdleCallback h) (has_requestAnimationFrame h)
         (next_id h) (filter (λ e, e.1 ≠ c) (pending h)).

(** The host runs a booked callback: it leaves the pending list and is handed
    to the caller to run. *)
Definition fire (c : Handle) (h : Host) : option (Task * Host) :=
  match list_find (λ e, e.1 = c) (pending h) with
  | Some (_, (_, t)) => Some (t, cancel c h)
  | None => None
  end.

End Host.
Arguments Host : clear implicits.

End NextTime.

(** ** Bounded queue and idle queue scheduler, [src/lib/idle-queue.ts] *)

Module IdleQueue.
Import NextTime.

Section WithItems.
Context {T : Type} `{EqDecision T}.
(** What reading [.value] of an exhausted iterator yields. *)
Variable undefined : T.

(** *** [Set<T>] as the source uses it: insertion ordered, no duplicates. *)

Definition set_add (x : T) (s : list T) : list T :=
  if decide (x ∈ s) then s else s ++ [x].

Definition set_delete (x : T) (s : list T) : list T :=
  filter (λ y, y ≠ x) s.

(** [s.values().next().value] *)
Definition set_first (s : list T) : T := default undefined (head s).

(** *** [createQueue] *)

Record Queue := mkQueue {
  q_unique : bool;          (* options?.unique *)
  items : list T;
  uniqueItems : list T
}.

Definition createQueue (unique : bool) : Queue := mkQueue unique [] [].

Definition size (q : Queue) : nat :=
  if q_unique q then length (uniqueItems q) else length (items q).

Definition add (item : T) (q : Queue) : Queue :=
  if q_unique q then mkQueue (q_unique q) (items q) (set_add item (uniqueItems q))
  else mkQueue (q_unique q) (items q ++ [item]) (uniqueItems q).

(** The loop of the unique branch of [take]:
    [for (i = 0; i < count; i++) { tookItems.push(first); uniqueItems.delete(tookItems[i]) }] *)
Fixpoint take_loop (count : nat) (tookItems s : list T) : list T * list T :=
  match count with
  | 0 => (tookItems, s)
  | S count' =>
      let v := set_first s in
      take_loop count' (tookItems ++ [v]) (set_delete v s)
  end.

(** [take(count)]; [count] is an integer, a negative one takes nothing
    ([splice(0, count)] and the loop agree on that). *)
Definition take (count : Z) (q : Queue) : list T * Queue :=
  let count := if (Z.of_nat (size q) <? count)%Z then Z.of_nat (size q) else count in
  if q_unique q then
    let '(tookItems, s) := take_loop (Z.to_nat count) [] (uniqueItems q) in
    (tookItems, mkQueue (q_unique q) (items q) s)
  else
    (list.take (Z.to_nat count) (items q),
     mkQueue (q_unique q) (list.drop (Z.to_nat count) (items q)) (uniqueItems q)).

Definition destroy_queue (q : Queue) : Queue := mkQueue (q_unique q) [] [].

(** What the queue holds, front first. *)
Definition contents (q : Queue) : list T :=
  if q_unique q then uniqueItems q else items q.

(** *** [createScheduler] *)

(** A processing hook returns nothing or a promise. *)
Inductive HookResult := ReturnsVoid | ReturnsPromise.

Definition Hook := list T → HookResult.

Record SchedulerOptions := mkOptions {
  useIdle : bool;
  batchSize : option Z;     (* absent, or an integer *)
  block : bool;
  unique : bool;
  hooks_onTake : option Hook
}.

(** [options?.batchSize || 1] *)
Definition batch_count (o : SchedulerOptions) : Z :=
  match batchSize o with
  | Some n => if (n =? 0)%Z then 1%Z else n
  | None => 1%Z
  end.

(** The closure variables of one scheduler, and around them the host, the
    hook invocations so far (each with the batch it got), the invocations
    whose promise has not settled, and those [_process] is suspended on. *)
Record World := mkWorld {
  options : SchedulerOptions;
  _cancel : option Handle;
  _onTake : option Hook;
  q : Queue;
  host : Host unit;
  calls : list (list T);
  inflight : list nat;
  awaiting : list nat
}.

Definition createScheduler (o : SchedulerOptions) (h : Host unit) : World :=
  mkWorld o None (hooks_onTake o) (createQueue (unique o)) h [] [] [].

Definition _next (w : World) : World :=
  if decide (size (q w) = 0) then w
  else match _cancel w with
       | Some _ => w
       | None =>
           let '(c, h) := nextTime tt (useIdle (options w)) (host w) in
           mkWorld (options w) (Some c) (_onTake w) (q w) h
                   (calls w) (inflight w) (awaiting w)
       end.

(** The last statement of [_process]: [if (!!options?.block) _next();] *)
Definition _process_tail (w : World) : World :=
  if block (options w) then _next w else w.

(** [_process], up to its first suspension: the batch is taken and the hook
    is called; with [block] and a promise the function stops at [await]
    (the invocation is recorded in [awaiting]), otherwise it runs to its
    end.  Without a hook [_onTake?.(items)] is [undefined]. *)
Definition _process (w : World) : World :=
  let '(batch, q') := take (batch_count (options w)) (q w) in
  let w1 := mkWorld (options w) (_cancel w) (_onTake w) q' (host w)
                    (calls w) (inflight w) (awaiting w) in
  match _onTake w1 with
  | None => _process_tail w1
  | Some hook =>
      let id := length (calls w1) in
      let w2 := mkWorld (options w1) (_cancel w1) (_onTake w1) q' (host w1)
                        (calls w1 ++ [batch]) (inflight w1) (awaiting w1) in
      match hook batch with
      | ReturnsVoid => _process_tail w2
      | ReturnsPromise =>
          let w3 := mkWorld (options w2) (_cancel w2) (_onTake w2) q' (host w2)
                            (calls w2) (inflight w2 ++ [id]) (awaiting w2) in
          if block (options w3) then
            mkWorld (options w3) (_cancel w3) (_onTake w3) q' (host w3)
                    (calls w3) (inflight w3) (awaiting w3 ++ [id])
          else _process_tail w3
      end
  end.

(** The callback [_next] books: [() => { _process(); if (!options?.block) _next(); }] *)
Definition drain (w : World) : World :=
  let w1 := _process w in
  if block (options w1) then w1 else _next w1.

Definition enqueue (item : T) (w : World) : World :=
  _next (mkWorld (options w) (_cancel w) (_onTake w) (add item (q w)) (host w)
                 (calls w) (inflight w) (awaiting w)).

Definition onTake (callback : Hook) (w : World) : World :=
  mkWorld (options w) (_cancel w) (Some callback) (q w) (host w)
          (calls w) (inflight w) (awaiting w).

Definition destroy (w : World) : World :=
  mkWorld (options w) (_cancel w) None (destroy_queue (q w))
          (match _cancel w with Some c => cancel c (host w) | None => host w end)
          (calls w) (inflight w) (awaiting w).

(** The rest of [_process] after [await p]: on fulfilment the last
    statement runs, on rejection the function ends there. *)
Definition resume (fulfilled : bool) (w : World) : World :=
  if fulfilled then _process_tail w else w.

(** What can happen to a scheduler: calls of its three functions, the host
    running a booked callback, a hook's promise settling. *)
Inductive Event :=
| Enqueue (item : T)
| OnTake (callback : Hook)
| Destroy
| Fire (c : Handle)
| Settle (id : nat) (fulfilled : bool).

Definition step (w : World) (e : Event) : World :=
  match e with
  | Enqueue item => enqueue item w
  | OnTake callback => onTake callback w
  | Destroy => destroy w
  | Fire c =>
      match fire c (host w) with
      | Some (_, h) =>
          drain (mkWorld (options w) (_cancel w) (_onTake w) (q w) h
                         (calls w) (inflight w) (awaiting w))
      | None => w
      end
  | Settle id fulfilled =>
      if decide (id ∈ inflight w) then
        let w1 := mkWorld (options w) (_cancel w) (_onTake w) (q w) (host w)
                          (calls w) (filter (λ j, j ≠ id) (inflight w))
                          (filter (λ j, j ≠ id) (awaiting w)) in
        if decide (id ∈ awaiting w) then resume fulfilled w1 else w1
      else w
  end.

Definition run (w : World) (es : list Event) : World := foldl step w es.

(** *** Notions the properties are stated with *)

(** The number of items [take count] removes. *)
Definition taken (count : Z) (q : Queue) : nat :=
  Z.to_nat (Z.min count (Z.of_nat (size q))).

(** A scheduler whose [_cancel] is set while the host holds nothing for it. *)
Definition stalled (w : World) : Prop :=
  is_Some (_cancel w) ∧ pending (host w) = [].

(** What holds of a scheduler made on a host that holds nothing yet: either
    no drain was ever booked, or the one booked drain is still to fire, or it
    is gone and at most one batch went to a hook. *)
Definition one_drain (w : World) : Prop :=
  match _cancel w with
  | None => pending (host w) = [] ∧ calls w = [] ∧ inflight w = []
  | Some c =>
      (pending (host w) = [(c, tt)] ∧ calls w = [] ∧ inflight w = [])
      ∨ (pending (host w) = [] ∧ length (calls w) ≤ 1)
  end.

(** The queue after [add] of each item of [xs] in turn. *)
Definition add_all (xs : list T) (q : Queue) : Queue :=
  foldl (λ q x, add x q) q xs.

(** The items of [xs], each at its first occurrence. *)
Definition first_occurrences (xs : list T) : list T :=
  reverse (remove_dups (reverse xs)).

End WithItems.

Arguments Queue : clear implicits.
Arguments Hook : clear implicits.
Arguments SchedulerOptions : clear implicits.
Arguments World : clear implicits.
Arguments Event : clear implicits.

End IdleQueue.

(** ** State store, [src/lib/state.ts] *)

Module StateStore.
Import NextTime.

(** A state object or a patch is known by its address. *)
Definition Ref := nat.

(** Functions are compared by reference ([ret.subscriber == subscriber]).  A
    callback is either one the caller wrote, known by a number, or the
    [wrapper] closure that [createSubscribeWrapper] builds for the promise
    with the given number. *)
Inductive Callback := UserCb (n : nat) | WrapperCb (p : nat).

#[export] Instance Callback_eq_dec : EqDecision Callback.
Proof. solve_decision. Defined.

(** What a caller's callback does with the store while it runs: it may call
    an unsubscribe closure that [subscribe] returned for the caller's
    callback [n], and it may throw.  Callbacks that call [subscribe],
    [setState], [markDirty] or [dispose] while they run are those of
    [Reentrant] below. *)
Inductive Action := CallUnsubscribe (n : nat) | Throw.

#[export] Instance Action_eq_dec : EqDecision Action.
Proof. solve_decision. Defined.

(** [SubscriberMeta]: the record [subscribe] pushes.  [indexOf] compares such
    records by identity, which [meta_id] stands for. *)
Record SubscriberMeta := mkMeta {
  meta_id : nat;
  subscriber : Callback;
  keys : option (list string)
}.

#[export] Instance SubscriberMeta_eq_dec : EqDecision SubscriberMeta.
Proof. solve_decision. Defined.

Inductive PromiseState := Pending | Fulfilled (state : Ref) | Rejected (reason : string).

(** What a caller's handler can be given: a state object, or [undefined]. *)
Inductive Settlement := StillPending | FulfilledWith (value : option Ref).

#[export] Instance PromiseState_eq_dec : EqDecision PromiseState.
Proof. solve_decision. Defined.

#[export] Instance Settlement_eq_dec : EqDecision Settlement.
Proof. solve_decision. Defined.

Inductive SetStateResult :=
| Threw
| ReturnedUnsubscribe (c : Callback)
| ReturnedPromise (p : nat).

Section WithValues.
Context {Value : Type}.
(** Reading a key an object does not have. *)
Variable undefined : Value.
(** The operator [!=] on two field values. *)
Variable loose_neq : Value → Value → bool.
(** The body of each caller callback. *)
Variable user_code : nat → list Action.

Local Abbreviation Obj := (gmap string Value).

(** The fields of [State] and of its [StateSubscriber], then everything
    around them: the objects allocated so far, the next record identity, the
    host with the flushes it holds, the clock, the armed timers (promise and
    deadline), the promises made by [setState], and the log of callback
    invocations with the state each was given. *)
Record World := mkWorld {
  _state : Ref;
  _stateChanges : list Ref;
  _dirty : bool;
  _immediateFlush : bool;
  _subscribers : list SubscriberMeta;
  _removedSubscribers : list SubscriberMeta;
  heap : list Obj;
  next_meta : nat;
  host : Host unit;
  now : nat;
  timers : list (nat * nat);
  promises : list PromiseState;
  calls : list (Callback * Ref)
}.

Definition set__state (v : Ref) (w : World) : World :=
  mkWorld v (_stateChanges w) (_dirty w) (_immediateFlush w) (_subscribers w)
    (_removedSubscribers w) (heap w) (next_meta w) (host w) (now w) (timers w)
    (promises w) (calls w).
Definition set__stateChanges (v : list Ref) (w : World) : World :=
  mkWorld (_state w) v (_dirty w) (_immediateFlush w) (_subscribers w)
    (_removedSubscribers w) (heap w) (next_meta w) (host w) (now w) (timers w)
    (promises w) (calls w).
Definition set__dirty (v : bool) (w : World) : World :=
  mkWorld (_state w) (_stateChanges w) v (_immediateFlush w) (_subscribers w)
    (_removedSubscribers w) (heap w) (next_meta w) (host w) (now w) (timers w)
    (promises w) (calls w).
Definition set__subscribers (v : list SubscriberMeta) (w : World) : World :=
  mkWorld (_state w) (_stateChanges w) (_dirty w) (_immediateFlush w) v
    (_removedSubscribers w) (heap w) (next_meta w) (host w) (now w) (timers w)
    (promises w) (calls w).
Definition set__removedSubscribers (v : list SubscriberMeta) (w : World) : World :=
  mkWorld (_state w) (_stateChanges w) (_dirty w) (_immediateFlush w) (_subscribers w)
    v (heap w) (next_meta w) (host w) (now w) (timers w)
    (promises w) (calls w).
Definition set_heap (v : list Obj) (w : World) : World :=
  mkWorld (_state w) (_stateChanges w) (_dirty w) (_immediateFlush w) (_subscribers w)
    (_removedSubscribers w) v (next_meta w) (host w) (now w) (timers w)
    (promises w) (calls w).
Definition set_next_meta (v : nat) (w : World) : World :=
  mkWorld (_state w) (_stateChanges w) (_dirty w) (_immediateFlush w) (_subscribers w)
    (_removedSubscribers w) (heap w) v (host w) (now w) (timers w)
    (promises w) (calls w).
Definition set_host (v : Host unit) (w : World) : World :=
  mkWorld (_state w) (_stateChanges w) (_dirty w) (_immediateFlush w) (_subscribers w)
    (_removedSubscribers w) (heap w) (next_meta w) v (now w) (timers w)
    (promises w) (calls w).
Definition set_now (v : nat) (w : World) : World :=
  mkWorld (_state w) (_stateChanges w) (_dirty w) (_immediateFlush w) (_subscribers w)
    (_removedSubscribers w) (heap w) (next_meta w) (host w) v (timers w)
    (promises w) (calls w).
Definition set_timers (v : list (nat * nat)) (w : World) : World :=
  mkWorld (_state w) (_stateChanges w) (_dirty w) (_immediateFlush w) (_subscribers w)
    (_removedSubscribers w) (heap w) (next_meta w) (host w) (now w) v
    (promises w) (calls w).
Definition set_promises (v : list PromiseState) (w : World) : World :=
  mkWorld (_state w) (_stateChanges w) (_dirty w) (_immediateFlush w) (_subscribers w)
    (_removedSubscribers w) (heap w) (next_meta w) (host w) (now w) (timers w)
    v (calls w).
Definition set_calls (v : list (Callback * Ref)) (w : World) : World :=
  mkWorld (_state w) (_stateChanges w) (_dirty w) (_immediateFlush w) (_subscribers w)
    (_removedSubscribers w) (heap w) (next_meta w) (host w) (now w) (timers w)
    (promises w) v.

(** *** Objects *)

(** An object literal or [Object.assign]'s fresh target: a new address. *)
Definition alloc (o : Obj) (w : World) : Ref * World :=
  (length (heap w), set_heap (heap w ++ [o]) w).

Definition deref (w : World) (r : Ref) : Obj := default ∅ (heap w !! r).

(** [o[key]] *)
Definition get (o : Obj) (key : string) : Value := default undefined (o !! key).

(** One source of [Object.assign]: each of its keys is set on the target. *)
Definition assign_from (target source : Obj) : Obj :=
  map_fold (λ key v t, <[key := v]> t) target source.

(** [Object.assign(target, ...sources)] *)
Definition Object_assign (target : Obj) (sources : list Obj) : Obj :=
  foldl assign_from target sources.

(** *** [StateSubscriber] *)

(** [this._subscribers.find((ret) => ret.subscriber == subscriber)] *)
Definition find_subscriber (c : Callback) (w : World) : option SubscriberMeta :=
  snd <$> list_find (λ ret, subscriber ret = c) (_subscribers w).

Definition subscribe (c : Callback) (ks : option (list string)) (w : World) : World :=
  match find_subscriber c w with
  | Some _ => w
  | None =>
      let ret :=
        match ks with
        | Some (k :: ks') => mkMeta (next_meta w) c (Some (k :: ks'))
        | _ => mkMeta (next_meta w) c None
        end in
      set_next_meta (S (next_meta w)) (set__subscribers (_subscribers w ++ [ret]) w)
  end.

(** The closure [subscribe] returns for callback [c]. *)
Definition unsubscribe (c : Callback) (w : World) : World :=
  match find_subscriber c w with
  | Some found => set__removedSubscribers (_removedSubscribers w ++ [found]) w
  | None => w
  end.

(** [setTimeout(..., timeout)] of the wrapper, and [clearTimeout(id)]. *)
Definition setTimeout (p timeout : nat) (w : World) : World :=
  set_timers (timers w ++ [(p, now w + timeout)]) w.

Definition clearTimeout (p : nat) (w : World) : World :=
  set_timers (filter (λ t, t.1 ≠ p) (timers w)) w.

(** A promise settles once. *)
Definition settle (p : nat) (s : PromiseState) (w : World) : World :=
  match promises w !! p with
  | Some Pending => set_promises (<[p := s]> (promises w)) w
  | _ => w
  end.

(** The executor [createSubscribeWrapper(timeout)] returns, run by
    [new Promise] with the promise's own [resolve] and [reject]. *)
Definition createSubscribeWrapper (timeout : nat) (p : nat) (w : World) : World :=
  setTimeout p timeout (subscribe (WrapperCb p) None w).

(** The body of a caller callback; the flag says it threw. *)
Fixpoint run_actions (acts : list Action) (w : World) : World * bool :=
  match acts with
  | [] => (w, false)
  | CallUnsubscribe n :: rest => run_actions rest (unsubscribe (UserCb n) w)
  | Throw :: _ => (w, true)
  end.

(** [ret.subscriber(state)].  The wrapper is
    [clearTimeout(id); subscriber(state); unsub()] with [subscriber] the
    promise's [resolve]. *)
Definition invoke (c : Callback) (state : Ref) (w : World) : World * bool :=
  let w := set_calls (calls w ++ [(c, state)]) w in
  match c with
  | UserCb n => run_actions (user_code n) w
  | WrapperCb p =>
      (unsubscribe (WrapperCb p) (settle p (Fulfilled state) (clearTimeout p w)), false)
  end.

(** The loop of [isStateChangedWithKeys]. *)
Fixpoint changed_loop (prev new : Obj) (ks : list string) : bool :=
  match ks with
  | [] => false
  | k :: rest => if loose_neq (get prev k) (get new k) then true else changed_loop prev new rest
  end.

Definition isStateChangedWithKeys (prevState newState : Ref) (ks : list string)
    (w : World) : bool :=
  if decide (prevState = newState) then false
  else if decide (length ks = 0) then false
  else changed_loop (deref w prevState) (deref w newState) ks.

(** [subscribers.forEach(...)]; a throwing callback ends the pass.  The
    pass goes down the list as it is at the start: the callbacks of [Action]
    never change the array it walks (an unsubscribe closure only pushes on
    [_removedSubscribers]).  [Reentrant.forEach_with] walks the array by
    index, as it is when each index is read. *)
Fixpoint forEach (subscribers : list SubscriberMeta) (state prevState : Ref)
    (w : World) : World * bool :=
  match subscribers with
  | [] => (w, false)
  | ret :: rest =>
      let '(w1, threw) :=
        match keys ret with
        | None => invoke (subscriber ret) state w
        | Some ks =>
            if isStateChangedWithKeys prevState state ks w
            then invoke (subscriber ret) state w
            else (w, false)
        end in
      if threw then (w1, true) else forEach rest state prevState w1
  end.

(** [this._removedSubscribers.indexOf(sub) == -1] *)
Definition not_removed (removed : list SubscriberMeta) (sub : SubscriberMeta) : bool :=
  forallb (λ r, negb (meta_id r =? meta_id sub)) removed.

Definition notify (state prevState : Ref) (w : World) : World * bool :=
  if decide (length (_removedSubscribers w) = 0) then
    forEach (_subscribers w) state prevState w
  else
    let subscribers := List.filter (not_removed (_removedSubscribers w)) (_subscribers w) in
    forEach subscribers state prevState
      (set__removedSubscribers [] (set__subscribers subscribers w)).

Definition dispose_subscriber (w : World) : World :=
  set__removedSubscribers [] (set__subscribers [] w).

(** *** [State] *)

Definition flush (state : Ref) (w : World) : World * bool :=
  let prevState := _state w in
  let w := set__state state w in
  notify (_state w) prevState w.

Definition tick (w : World) : World * bool :=
  let w := set__dirty false w in
  if decide (length (_stateChanges w) = 0) then
    let '(newState, w) := alloc (Object_assign ∅ [deref w (_state w)]) w in
    flush newState w
  else
    let flushableStates := _stateChanges w in
    let w := set__stateChanges [] w in
    let '(e, w) := alloc ∅ w in
    let flushableStates := e :: _state w :: flushableStates in
    let '(newState, w) := alloc (Object_assign ∅ (deref w <$> flushableStates)) w in
    flush newState w.

Definition markDirty (w : World) : World * bool :=
  if _dirty w then (w, false)
  else
    let w := set__dirty true w in
    if _immediateFlush w then tick w
    else (set_host (nextTime tt false (host w)).2 w, false).

(** [new State(initialState, immediateFlush)] in a program that has
    allocated [objects] so far. *)
Definition createState (initialState : Ref) (immediateFlush : bool)
    (objects : list Obj) (h : Host unit) : World * bool :=
  markDirty (mkWorld initialState [] false immediateFlush [] [] objects 0 h 0 [] [] []).

(** [setState(state, subscriber?)]; an exception out of an immediate flush
    leaves the function before anything is subscribed. *)
Definition setState (patch : Ref) (sub : option Callback) (w : World)
    : World * SetStateResult :=
  let w := set__stateChanges (_stateChanges w ++ [patch]) w in
  let '(w, threw) := markDirty w in
  if threw then (w, Threw)
  else match sub with
       | Some c => (subscribe c None w, ReturnedUnsubscribe c)
       | None =>
           let p := length (promises w) in
           let w := set_promises (promises w ++ [Pending]) w in
           (createSubscribeWrapper 200 p w, ReturnedPromise p)
       end.

Definition getState (w : World) : Ref := _state w.

Definition dispose (w : World) : World :=
  let w := set__stateChanges [] w in
  let '(e, w) := alloc ∅ w in
  dispose_subscriber (set__state e w).

(** What the caller holds in the promise form: [promise.catch(noop)], which
    is fulfilled with the state the promise is fulfilled with, and with
    [noop]'s result, [undefined], when the promise is rejected. *)
Definition catch_noop (s : PromiseState) : Settlement :=
  match s with
  | Pending => StillPending
  | Fulfilled state => FulfilledWith (Some state)
  | Rejected _ => FulfilledWith None
  end.

Definition promise_state (p : nat) (w : World) : PromiseState :=
  default Pending (promises w !! p).

Definition returned_promise (p : nat) (w : World) : Settlement :=
  catch_noop (promise_state p w).

(** *** The event loop *)

(** The timeout callback of promise [p]:
    [clearTimeout(id); error('state not update')]. *)
Definition timeout_fires (p : nat) (w : World) : World :=
  settle p (Rejected "state not update") (clearTimeout p w).

(** Time passes: every timer whose deadline is reached runs. *)
Definition advance (dt : nat) (w : World) : World :=
  let w := set_now (now w + dt) w in
  foldl (λ w t, timeout_fires t.1 w) w
        (List.filter (λ t, t.2 <=? now w) (timers w)).

(** The calls of the public interface by the program (a patch is a fresh
    object literal), a booked flush run by the host, and time passing. *)
Inductive Event :=
| Subscribe (n : nat) (ks : option (list string))
| Unsubscribe (n : nat)
| SetState (patch : Obj) (sub : option nat)
| Dispose
| Frame (c : Handle)
| Advance (dt : nat).

Definition step (w : World) (e : Event) : World :=
  match e with
  | Subscribe n ks => subscribe (UserCb n) ks w
  | Unsubscribe n => unsubscribe (UserCb n) w
  | SetState patch sub =>
      let '(r, w) := alloc patch w in
      (setState r (UserCb <$> sub) w).1
  | Dispose => dispose w
  | Frame c =>
      match fire c (host w) with
      | Some (_, h) => (tick (set_host h w)).1
      | None => w
      end
  | Advance dt => advance dt w
  end.

Definition run (w : World) (es : list Event) : World := foldl step w es.

(** *** Notions the properties are stated with *)

(** The value of the last patch that has key [k], if any. *)
Fixpoint winner (k : string) (patches : list Obj) : option Value :=
  match patches with
  | [] => None
  | p :: rest =>
      match winner k rest with
      | Some v => Some v
      | None => p !! k
      end
  end.

(** The fields no callback and no timer can reach. *)
Definition same_store (w w' : World) : Prop :=
  _state w' = _state w ∧ _stateChanges w' = _stateChanges w
  ∧ _dirty w' = _dirty w ∧ _immediateFlush w' = _immediateFlush w
  ∧ _subscribers w' = _subscribers w ∧ heap w' = heap w
  ∧ next_meta w' = next_meta w ∧ host w' = host w ∧ now w' = now w.

(** Whether [notify] calls the callback of a record. *)
Definition gate (prevState state : Ref) (w : World) (ret : SubscriberMeta) : bool :=
  match keys ret with
  | None => true
  | Some ks => isStateChangedWithKeys prevState state ks w
  end.

(** No caller callback throws. *)
Definition no_throw : Prop := ∀ n, Throw ∉ user_code n.

(** The callbacks a pass over [subs] calls when none throws, in order. *)
Definition notified (subs : list SubscriberMeta) (prev s : Ref) (w : World)
    : list (Callback * Ref) :=
  (λ ret, (subscriber ret, s)) <$> List.filter (gate prev s w) subs.

(** The records a pass visits: the list after the lazy pruning. *)
Definition live (w : World) : list SubscriberMeta :=
  if decide (length (_removedSubscribers w) = 0) then _subscribers w
  else List.filter (not_removed (_removedSubscribers w)) (_subscribers w).

(** The store once [notify] has pruned and before it calls anyone. *)
Definition pruned (w : World) : World :=
  if decide (length (_removedSubscribers w) = 0) then w
  else set__removedSubscribers [] (set__subscribers (live w) w).

(** The store [tick] hands to [notify]: the flag is down, the queue is
    drained, the merged object is allocated and is the current state. *)
Definition flushed (w : World) : World :=
  if decide (length (_stateChanges w) = 0) then
    set__state (length (heap w))
      (set_heap (heap w ++ [Object_assign ∅ [deref w (_state w)]])
         (set__dirty false w))
  else
    set__state (S (length (heap w)))
      (set_heap
         (heap w ++ [∅; Object_assign ∅ (∅ :: deref w (_state w)
                                           :: (deref w <$> _stateChanges w))])
         (set__stateChanges [] (set__dirty false w))).

(** What every store built by [createState] and driven by events satisfies:
    the state and the queued patches are allocated objects; no callback is
    registered twice; records have distinct identities, older than the next
    one; what is marked for removal is registered; a registered wrapper and
    an armed timer belong to a promise that exists. *)
Record wf (w : World) : Prop := mk_wf {
  wf_state : _state w < length (heap w);
  wf_patches : ∀ r, r ∈ _stateChanges w → r < length (heap w);
  wf_callbacks : NoDup (subscriber <$> _subscribers w);
  wf_metas : NoDup (meta_id <$> _subscribers w);
  wf_meta_fresh : ∀ ret, ret ∈ _subscribers w → meta_id ret < next_meta w;
  wf_removed : ∀ ret, ret ∈ _removedSubscribers w → ret ∈ _subscribers w;
  wf_wrappers : ∀ p, WrapperCb p ∈ subscriber <$> _subscribers w → p < length (promises w);
  wf_timers : ∀ t, t ∈ timers w → t.1 < length (promises w)
}.

(** [setState] called once per patch, each with a fresh object literal. *)
Definition queue_all (patches : list (Obj * option nat)) : list (Event) :=
  (λ ps, SetState ps.1 ps.2) <$> patches.

(** The callbacks the flush of [w] calls, in order. *)
Definition invoked_by_tick (w : World) : list Callback :=
  (drop (length (calls w)) (calls (tick w).1)).*1.

(** The entries of the call log that belong to callback [c]. *)
Definition calls_of (c : Callback) (w : World) : list (Callback * Ref) :=
  filter (λ x, x.1 = c) (calls w).

(** Events that register the caller's callback [n]. *)
Definition subscribes (n : nat) (e : Event) : bool :=
  match e with
  | Subscribe m _ => bool_decide (m = n)
  | SetState _ (Some m) => bool_decide (m = n)
  | _ => false
  end.

(** Marks for removal only accumulate while callbacks run. *)
Definition removed_grows (w w' : World) : Prop :=
  ∀ ret, ret ∈ _removedSubscribers w → ret ∈ _removedSubscribers w'.

(** Events that run [tick]: in either mode a booked flush the host runs, and
    [setState], which flushes at once on an immediate store. *)
Definition flushes (e : Event) : bool :=
  match e with
  | SetState _ _ | Frame _ => true
  | _ => false
  end.

Definition unfulfilled (p : nat) (w : World) : Prop :=
  promises w !! p = Some Pending
  ∨ promises w !! p = Some (Rejected "state not update").

(** A deferred store between flushes: a flush is booked with the host
    exactly while the dirty flag is up, and patches wait only while one is
    booked. *)
Definition one_flush (w : World) : Prop :=
  (_dirty w = true ∧ ∃ c, pending (host w) = [(c, tt)])
  ∨ (_dirty w = false ∧ pending (host w) = [] ∧ _stateChanges w = []).

(** An immediate store between calls: nothing waits and nothing is booked. *)
Definition settled (w : World) : Prop :=
  _dirty w = false ∧ _stateChanges w = [] ∧ pending (host w) = [].

(** Events that leave the caller's callback [n] subscribed: all but a call
    of its unsubscribe closure by the program and [dispose]. *)
Definition keeps (n : nat) (e : Event) : bool :=
  match e with
  | Unsubscribe m => bool_decide (m ≠ n)
  | Dispose => false
  | _ => true
  end.

(** The caller's callback [n] is registered without keys and is not marked
    for removal. *)
Definition subscribed_keyless (n : nat) (w : World) : Prop :=
  (∃ ret, ret ∈ _subscribers w ∧ subscriber ret = UserCb n ∧ keys ret = None)
  ∧ UserCb n ∉ subscriber <$> _removedSubscribers w.

(** The callbacks called between two moments of a store, in order. *)
Definition called_since (w w' : World) : list Callback :=
  (drop (length (calls w)) (calls w')).*1.

(** Whether a callback throws when it is called. *)
Definition throws (c : Callback) : bool :=
  match c with
  | UserCb n => bool_decide (Throw ∈ user_code n)
  | WrapperCb _ => false
  end.

(** The callbacks of a list up to and including the first that throws. *)
Fixpoint until_throw (cs : list Callback) : list Callback :=
  match cs with
  | [] => []
  | c :: rest => if throws c then [c] else c :: until_throw rest
  end.

End WithValues.

Arguments World : clear implicits.
Arguments Event : clear implicits.

End StateStore.

(** ** The state store with callbacks that call back into it *)

(** [StateStore] above takes the callbacks to change the store through
    unsubscribe closures only; for those a notification pass walks a list
    nobody touches.  Here a callback may call any function of the store while
    it runs.  [notify] then has to be taken as written: [forEach] walks, by
    index, either the array [this._subscribers] itself, which a flush inside
    a callback prunes in place, or the array [notify] has just built.
    [ReentrantFacts.tick_lift] shows that the two readings agree on the callbacks
    of [StateStore]. *)
Module Reentrant.
Import NextTime StateStore.

Section WithValues.
Context {Value : Type}.
Variable undefined : Value.
Variable loose_neq : Value → Value → bool.

Local Abbreviation Obj := (gmap string Value).
Local Abbreviation World := (World Value).

(** What a callback does with the store while it runs: calls of an
    unsubscribe closure, of [subscribe], of [setState] with a fresh object
    literal, of [markDirty] and of [dispose], and [throw]. *)
Inductive Action :=
| CallUnsubscribe (n : nat)
| CallSubscribe (n : nat) (ks : option (list string))
| CallSetState (patch : Obj) (sub : option nat)
| CallMarkDirty
| CallDispose
| Throw.

(** The body of each caller callback. *)
Variable code : nat → list Action.

(** The array a pass walks: [this._subscribers] as it is when an index is
    read, or an array no one else holds. *)
Inductive Source := Live | Own (subscribers : list SubscriberMeta).

Definition read (src : Source) (w : World) (k : nat) : option SubscriberMeta :=
  match src with
  | Live => _subscribers w !! k
  | Own subscribers => subscribers !! k
  end.

(** What a piece of code leaves: the world, whether it threw, and, when
    [dispose] replaced [this._subscribers] by a new array on the way, what
    the array held that was replaced first.  A pass that was walking that
    array goes on with it. *)
Definition Outcome : Type := World * bool * option (list SubscriberMeta).

Definition first_detached (d : option (list SubscriberMeta)) (r : option Outcome)
    : option Outcome :=
  match r with
  | Some (w, threw, d') => Some (w, threw, match d with Some l => Some l | None => d' end)
  | None => None
  end.

(** The functions of [State] and [StateSubscriber], each given the flush a
    call of [tick] inside it runs; [None] is a flush that does not return. *)
Section WithTick.
Variable tick : World → option Outcome.

Definition markDirty_with (w : World) : option Outcome :=
  if _dirty w then Some (w, false, None)
  else
    let w := set__dirty true w in
    if _immediateFlush w then tick w
    else Some (set_host (nextTime tt false (host w)).2 w, false, None).

Definition setState_with (patch : Ref) (sub : option Callback) (w : World)
    : option Outcome :=
  let w := set__stateChanges (_stateChanges w ++ [patch]) w in
  match markDirty_with w with
  | None => None
  | Some (w, true, d) => Some (w, true, d)
  | Some (w, false, d) =>
      match sub with
      | Some c => Some (subscribe c None w, false, d)
      | None =>
          let p := length (promises w) in
          let w := set_promises (promises w ++ [Pending]) w in
          Some (createSubscribeWrapper 200 p w, false, d)
      end
  end.

Fixpoint run_actions_with (acts : list Action) (w : World) : option Outcome :=
  match acts with
  | [] => Some (w, false, None)
  | CallUnsubscribe n :: rest => run_actions_with rest (unsubscribe (UserCb n) w)
  | CallSubscribe n ks :: rest => run_actions_with rest (subscribe (UserCb n) ks w)
  | CallSetState patch sub :: rest =>
      let '(r, w) := alloc patch w in
      match setState_with r (UserCb <$> sub) w with
      | None => None
      | Some (w, true, d) => Some (w, true, d)
      | Some (w, false, d) => first_detached d (run_actions_with rest w)
      end
  | CallMarkDirty :: rest =>
      match markDirty_with w with
      | None => None
      | Some (w, true, d) => Some (w, true, d)
      | Some (w, false, d) => first_detached d (run_actions_with rest w)
      end
  | CallDispose :: rest =>
      first_detached (Some (_subscribers w)) (run_actions_with rest (dispose w))
  | Throw :: _ => Some (w, true, None)
  end.

Definition invoke_with (c : Callback) (state : Ref) (w : World) : option Outcome :=
  let w := set_calls (calls w ++ [(c, state)]) w in
  match c with
  | UserCb n => run_actions_with (code n) w
  | WrapperCb p =>
      Some (unsubscribe (WrapperCb p) (settle p (Fulfilled state) (clearTimeout p w)),
            false, None)
  end.

(** [subscribers.forEach(...)]: the indices below the length the array had
    at the start are visited in order, each only if the array has it when
    its turn comes. *)
Fixpoint forEach_with (remaining : nat) (src : Source) (k : nat) (state prevState : Ref)
    (w : World) : option Outcome :=
  match remaining with
  | 0 => Some (w, false, None)
  | S remaining =>
      match read src w k with
      | None => forEach_with remaining src (S k) state prevState w
      | Some ret =>
          let called :=
            match keys ret with
            | None => invoke_with (subscriber ret) state w
            | Some ks =>
                if isStateChangedWithKeys undefined loose_neq prevState state ks w
                then invoke_with (subscriber ret) state w
                else Some (w, false, None)
            end in
          match called with
          | None => None
          | Some (w1, true, d) => Some (w1, true, d)
          | Some (w1, false, d) =>
              let src :=
                match src, d with
                | Live, Some held => Own held
                | _, _ => src
                end in
              first_detached d (forEach_with remaining src (S k) state prevState w1)
          end
      end
  end.

Definition notify_with (state prevState : Ref) (w : World) : option Outcome :=
  if decide (length (_removedSubscribers w) = 0) then
    forEach_with (length (_subscribers w)) Live 0 state prevState w
  else
    let subscribers := List.filter (not_removed (_removedSubscribers w)) (_subscribers w) in
    forEach_with (length subscribers) (Own subscribers) 0 state prevState
      (set__removedSubscribers [] (set__subscribers subscribers w)).

Definition flush_with (state : Ref) (w : World) : option Outcome :=
  let prevState := _state w in
  let w := set__state state w in
  notify_with (_state w) prevState w.

Definition tick_with (w : World) : option Outcome :=
  let w := set__dirty false w in
  if decide (length (_stateChanges w) = 0) then
    let '(newState, w) := alloc (Object_assign ∅ [deref w (_state w)]) w in
    flush_with newState w
  else
    let flushableStates := _stateChanges w in
    let w := set__stateChanges [] w in
    let '(e, w) := alloc ∅ w in
    let flushableStates := e :: _state w :: flushableStates in
    let '(newState, w) := alloc (Object_assign ∅ (deref w <$> flushableStates)) w in
    flush_with newState w.

End WithTick.

(** A flush in which the flushes inside callbacks nest at most [depth]
    deep. *)
Fixpoint tick (depth : nat) (w : World) : option Outcome :=
  match depth with
  | 0 => None
  | S depth => tick_with (tick depth) w
  end.

Definition markDirty (depth : nat) : World → option Outcome :=
  markDirty_with (tick depth).

(** [setState(patch, subscriber?)] called by the program with a fresh object
    literal. *)
Definition setState (depth : nat) (patch : Obj) (sub : option nat) (w : World)
    : option Outcome :=
  let '(r, w) := alloc patch w in
  setState_with (tick depth) r (UserCb <$> sub) w.

End WithValues.

Arguments Action : clear implicits.
Arguments Outcome : clear implicits.

(** The callbacks of [StateStore] among these. *)
Definition lift {Value : Type} (a : StateStore.Action) : Action Value :=
  match a with
  | StateStore.CallUnsubscribe n => CallUnsubscribe n
  | StateStore.Throw => Throw
  end.

Definition lift_code {Value : Type} (user_code : nat → list StateStore.Action)
    : nat → list (Action Value) :=
  λ n, lift <$> user_code n.

End Reentrant.

(** ** Event emitter, [src/lib/timer.ts] (class [EventEmitter]) *)

Module EventEmitter.

(** Listener functions are compared by reference ([item.cb === cb]); a
    listener is known by a number.  What a listener does with the emitter
    while it runs: it may call cancel closures that [on] returned, each of
    which is [() => this.off(type, cb)]. *)
Inductive Action := CallOff (type : string) (cb : nat).

(** [CallbackItem]: the object [on] and [once] push.  [item_id] stands for
    the identity of the object; its [fired] flag, the one field that is
    written after creation, is kept in the world under that identity. *)
Record CallbackItem := mkItem {
  item_id : nat;
  cb : nat;
  weak : bool
}.

#[export] Instance CallbackItem_eq_dec : EqDecision CallbackItem.
Proof. solve_decision. Defined.

Section WithData.
(** The rest parameters of [dispatch]. *)
Context {Data : Type}.
(** The body of each listener. *)
Variable listener_code : nat → list Action.

(** [storedCallbacks] maps a type to an array object, known by its address
    in [arrays]; [fired] holds the items whose flag is set; [listening] holds
    the types for which [this.handler] is attached to the dispatcher
    element; [calls] logs each listener invocation with its arguments. *)
Record World := mkWorld {
  storedCallbacks : gmap string nat;
  arrays : list (list CallbackItem);
  fired : gset nat;
  next_item : nat;
  listening : gset string;
  calls : list (nat * Data)
}.

Definition set_storedCallbacks (v : gmap string nat) (w : World) : World :=
  mkWorld v (arrays w) (fired w) (next_item w) (listening w) (calls w).
Definition set_arrays (v : list (list CallbackItem)) (w : World) : World :=
  mkWorld (storedCallbacks w) v (fired w) (next_item w) (listening w) (calls w).
Definition set_fired (v : gset nat) (w : World) : World :=
  mkWorld (storedCallbacks w) (arrays w) v (next_item w) (listening w) (calls w).
Definition set_next_item (v : nat) (w : World) : World :=
  mkWorld (storedCallbacks w) (arrays w) (fired w) v (listening w) (calls w).
Definition set_listening (v : gset string) (w : World) : World :=
  mkWorld (storedCallbacks w) (arrays w) (fired w) (next_item w) v (calls w).
Definition set_calls (v : list (nat * Data)) (w : World) : World :=
  mkWorld (storedCallbacks w) (arrays w) (fired w) (next_item w) (listening w) v.

(** [new EventEmitter()] *)
Definition createEmitter : World := mkWorld ∅ [] ∅ 0 ∅ [].

(** The array at an address, and a write to it in place. *)
Definition array (a : nat) (w : World) : list CallbackItem := default [] (arrays w !! a).

Definition set_array (a : nat) (l : list CallbackItem) (w : World) : World :=
  set_arrays (<[a := l]> (arrays w)) w.

(** [callbacks.find((item) => item.cb === cb)] as a truth value, and
    [callbacks.findIndex((item) => item.cb === cb)]. *)
Definition has_cb (c : nat) (l : list CallbackItem) : bool :=
  existsb (λ item, cb item =? c) l.

Definition findIndex (c : nat) (l : list CallbackItem) : option nat :=
  fst <$> list_find (λ item, cb item = c) l.

(** The common body of [on] ([wk = false], pushes [{ cb }]) and [once]
    ([wk = true], pushes [{ cb, weak: true }]): the stored array of the type
    is extended in place unless it has the listener; for a new type a new
    array is stored and the handler is attached. *)
Definition register (wk : bool) (type : string) (c : nat) (w : World) : World :=
  let item := mkItem (next_item w) c wk in
  match storedCallbacks w !! type with
  | Some a =>
      if has_cb c (array a w) then w
      else set_next_item (S (next_item w)) (set_array a (array a w ++ [item]) w)
  | None =>
      set_listening ({[type]} ∪ listening w)
        (set_storedCallbacks (<[type := length (arrays w)]> (storedCallbacks w))
           (set_next_item (S (next_item w)) (set_arrays (arrays w ++ [[item]]) w)))
  end.

Definition on : string → nat → World → World := register false.

Definition once : string → nat → World → World := register true.

(** [this.storedCallbacks.delete(type);
     this.dispatcher.removeEventListener(type, this.handler)] *)
Definition forget (type : string) (w : World) : World :=
  set_listening (listening w ∖ {[type]})
    (set_storedCallbacks (delete type (storedCallbacks w)) w).

(** [off(type, cb)], which is also the closure [on] returns. *)
Definition off (type : string) (c : nat) (w : World) : World :=
  match storedCallbacks w !! type with
  | Some a =>
      let callbacks :=
        match findIndex c (array a w) with
        | Some index => delete index (array a w)
        | None => array a w
        end in
      let w := set_array a callbacks w in
      if decide (length callbacks = 0) then forget type w else w
  | None => forget type w
  end.

Definition offAll (type : string) (w : World) : World :=
  let w :=
    match storedCallbacks w !! type with
    | Some a => set_array a [] w
    | None => w
    end in
  forget type w.

(** [clear()]: [offAll] for every stored type, then [storedCallbacks.clear()]. *)
Definition clear (w : World) : World :=
  set_storedCallbacks ∅
    (map_fold (λ type _ w, offAll type w) w (storedCallbacks w)).

Fixpoint run_actions (acts : list Action) (w : World) : World :=
  match acts with
  | [] => w
  | CallOff type c :: rest => run_actions rest (off type c w)
  end.

(** [if (c.weak && !c.fired) c.fired = true] *)
Definition mark (c : CallbackItem) (w : World) : World :=
  if weak c && negb (bool_decide (item_id c ∈ fired w))
  then set_fired ({[item_id c]} ∪ fired w) w
  else w.

(** [listeners.forEach(...)] on the array at address [a]: the indices below
    the length the array had at the start are visited in order, each only if
    the array still has it when its turn comes. *)
Fixpoint forEach (remaining k a : nat) (data : Data) (w : World) : World :=
  match remaining with
  | 0 => w
  | S remaining =>
      match array a w !! k with
      | Some c =>
          let w := set_calls (calls w ++ [(cb c, data)]) w in
          let w := run_actions (listener_code (cb c)) w in
          forEach remaining (S k) a data (mark c w)
      | None => forEach remaining (S k) a data w
      end
  end.

(** The test of [listeners.filter]:
    [!!c.cb && (!c.weak || (c.weak && !c.fired))], [c.cb] being a function. *)
Definition stays (w : World) (c : CallbackItem) : bool :=
  negb (weak c) || (weak c && negb (bool_decide (item_id c ∈ fired w))).

(** [this.handler], run by the dispatcher for an event of the type. *)
Definition handler (type : string) (data : Data) (w : World) : World :=
  match storedCallbacks w !! type with
  | None => w
  | Some a =>
      if decide (length (array a w) = 0) then w
      else
        let w := forEach (length (array a w)) 0 a data w in
        let left := List.filter (stays w) (array a w) in
        if decide (length left = 0)
        then set_storedCallbacks (delete type (storedCallbacks w)) w
        else set_storedCallbacks (<[type := length (arrays w)]> (storedCallbacks w))
               (set_arrays (arrays w ++ [left]) w)
  end.

(** [dispatch(type, ...rest)]: the dispatcher element runs the handler when
    it is attached for the type. *)
Definition dispatch (type : string) (data : Data) (w : World) : World :=
  if decide (type ∈ listening w) then handler type data w else w.

(** The calls of the public interface. *)
Inductive Event :=
| On (type : string) (c : nat)
| Once (type : string) (c : nat)
| Off (type : string) (c : nat)
| OffAll (type : string)
| Clear
| Dispatch (type : string) (data : Data).

Definition step (w : World) (e : Event) : World :=
  match e with
  | On type c => on type c w
  | Once type c => once type c w
  | Off type c => off type c w
  | OffAll type => offAll type w
  | Clear => clear w
  | Dispatch type data => dispatch type data w
  end.

Definition run (w : World) (es : list Event) : World := foldl step w es.

(** *** Notions the properties are stated with *)

(** The items stored for a type. *)
Definition stored (type : string) (w : World) : list CallbackItem :=
  match storedCallbacks w !! type with
  | Some a => array a w
  | None => []
  end.

(** What a caller can tell about the listeners of a type: the functions in
    order of registration, each with whether it was registered by [once]. *)
Definition listeners (type : string) (w : World) : list (nat * bool) :=
  (λ c, (cb c, weak c)) <$> stored type w.

(** What every emitter built from [createEmitter] by events satisfies when
    listeners only observe: a stored type has the handler attached and an
    array of its own, which is not empty and holds no function twice. *)
Record wf (w : World) : Prop := mk_wf {
  wf_listening : ∀ type a, storedCallbacks w !! type = Some a → type ∈ listening w;
  wf_valid : ∀ type a, storedCallbacks w !! type = Some a → a < length (arrays w);
  wf_own : ∀ t1 t2 a, storedCallbacks w !! t1 = Some a →
                      storedCallbacks w !! t2 = Some a → t1 = t2;
  wf_nonempty : ∀ type a, storedCallbacks w !! type = Some a → array a w ≠ [];
  wf_once : ∀ type a, storedCallbacks w !! type = Some a → NoDup (cb <$> array a w)
}.

End WithData.

Arguments World : clear implicits.
Arguments Event : clear implicits.

(** Listeners that only observe. *)
Definition passive : nat → list Action := λ _, [].

End EventEmitter.

(** ** Element resize listener, [src/unnamed/part_000] ([onResize]) *)

Module OnResize.

(** The closure variable [lastSize], whether the observer still observes
    [el], and the calls of [callback], each with the size [el] had then. *)
Record World := mkWorld {
  lastSize : Z * Z;
  observing : bool;
  calls : list (Z * Z)
}.

(** [onResize(el, callback)] up to its [return]. *)
Definition onResize : World := mkWorld (-1, -1)%Z true [].

(** The callback given to [ResizeObserver], run with entries whose first
    target is or is not [el] while [el.clientWidth] and [el.clientHeight]
    are [currentSize]. *)
Definition observer (target_is_el : bool) (currentSize : Z * Z) (w : World) : World :=
  if negb target_is_el then w
  else if (currentSize.1 =? (lastSize w).1)%Z && (currentSize.2 =? (lastSize w).2)%Z
       then w
       else mkWorld currentSize (observing w) (calls w ++ [currentSize]).

(** The closure [onResize] returns: [() => ob.disconnect()]. *)
Definition disconnect (w : World) : World := mkWorld (lastSize w) false (calls w).

(** The browser delivers a resize observation; the caller disconnects. *)
Inductive Event :=
| Resized (target_is_el : bool) (clientWidth clientHeight : Z)
| Disconnect.

Definition step (w : World) (e : Event) : World :=
  match e with
  | Resized target_is_el clientWidth clientHeight =>
      if observing w then observer target_is_el (clientWidth, clientHeight) w else w
  | Disconnect => disconnect w
  end.

Definition run (w : World) (es : list Event) : World := foldl step w es.

(** *** Notions the properties are stated with *)

(** The sizes of a sequence that differ from the one before them, [last]
    being the one before the first. *)
Fixpoint size_changes (last : Z * Z) (sizes : list (Z * Z)) : list (Z * Z) :=
  match sizes with
  | [] => []
  | s :: rest =>
      if decide (s = last) then size_changes last rest else s :: size_changes s rest
  end.

(** Observations of [el] itself, one per size. *)
Definition observations (sizes : list (Z * Z)) : list Event :=
  (λ s, Resized true s.1 s.2) <$> sizes.

(** No two neighbours in the list are equal. *)
Definition neighbours_differ (l : list (Z * Z)) : Prop :=
  ∀ i a b, l !! i = Some a → l !! S i = Some b → a ≠ b.

End OnResize.

(** ** Concrete programs used by the scenarios *)

Module Scenarios.
Import NextTime.

(** Queue items: strings, and what an exhausted iterator yields. *)
Inductive Item := ItemUndefined | ItemString (s : string).

#[export] Instance Item_eq_dec : EqDecision Item.
Proof. solve_decision. Defined.

(** A browser that has both facilities and has booked nothing yet. *)
Definition fresh_host : Host unit := mkHost true true 0 [].

(** A hook that returns a promise for every batch. *)
Definition async_hook : IdleQueue.Hook Item := λ _, IdleQueue.ReturnsPromise.

(** Scenario C: [createScheduler({ batchSize: 2, block: true, hooks: { onTake } })] *)
Definition scenario_C_options : IdleQueue.SchedulerOptions Item :=
  IdleQueue.mkOptions false (Some 2%Z) true false (Some async_hook).

(** Scenario D: [createScheduler({ unique: true })] *)
Definition scenario_D_options : IdleQueue.SchedulerOptions Item :=
  IdleQueue.mkOptions false None false true None.

Definition item_a : Item := ItemString "a".
Definition item_b : Item := ItemString "b".
Definition item_c : Item := ItemString "c".
Definition item_d : Item := ItemString "d".
Definition item_e : Item := ItemString "e".

(** Field values for the state store scenarios: a fragment of the
    language's values on which [!=] needs no conversion through strings.
    [JsNumber z] is the Number the integer literal [z] evaluates to. *)
Inductive JsValue := JsUndefined | JsNull | JsNaN | JsNumber (z : Z).

#[export] Instance JsValue_eq_dec : EqDecision JsValue.
Proof. solve_decision. Defined.

(** The double an integer literal evaluates to, as the integer it equals:
    the literal rounded to 53 significant bits, ties to even; [2 ^ 1024]
    stands for [Infinity], which is what a literal that rounds that far
    evaluates to. *)
Definition to_double (z : Z) : Z :=
  let a := Z.abs z in
  let e := (Z.log2 a - 52)%Z in
  if (e <=? 0)%Z then z
  else
    let q := (a / 2 ^ e)%Z in
    let r := (a mod 2 ^ e)%Z in
    let half := (2 ^ (e - 1))%Z in
    let q := if (half <? r)%Z || ((r =? half)%Z && Z.odd q) then (q + 1)%Z else q in
    (Z.sgn z * Z.min (q * 2 ^ e) (2 ^ 1024))%Z.

(** [a != b] on that fragment: [null] and [undefined] equal each other and
    nothing else, [NaN] differs from everything, itself included, and two
    numbers are compared as doubles. *)
Definition js_loose_neq (a b : JsValue) : bool :=
  match a, b with
  | JsUndefined, JsUndefined | JsUndefined, JsNull
  | JsNull, JsUndefined | JsNull, JsNull => false
  | JsNumber x, JsNumber y => negb (to_double x =? to_double y)%Z
  | _, _ => true
  end.

(** Callbacks that only observe. *)
Definition quiet : nat → list StateStore.Action := λ _, [].

(** Callback 1 unsubscribes callback 2 when it runs; the others observe. *)
Definition meddling : nat → list StateStore.Action :=
  λ n, if decide (n = 1) then [StateStore.CallUnsubscribe 2] else [].

Definition count_0 : gmap string JsValue := {[ "count" := JsNumber 0 ]}.
Definition count_1 : gmap string JsValue := {[ "count" := JsNumber 1 ]}.
Definition foo_7 : gmap string JsValue := {[ "foo" := JsNumber 7 ]}.

(** [State.createState({ count: 0 })] and
    [State.createState({ count: 0 }, true)] in a fresh browser. *)
Definition deferred_store (code : nat → list StateStore.Action)
    : StateStore.World JsValue :=
  (StateStore.createState JsUndefined js_loose_neq code 0 false [count_0] fresh_host).1.

Definition immediate_store (code : nat → list StateStore.Action)
    : StateStore.World JsValue :=
  (StateStore.createState JsUndefined js_loose_neq code 0 true [count_0] fresh_host).1.

(** Scenario A: two patches queued on a fresh deferred store. *)
Definition scenario_A_patches : list (gmap string JsValue * option nat) :=
  [(count_1, None); (foo_7, None)].

(** Scenario B: a subscriber on ['count'], one without keys, and a queued
    patch that changes [count]. *)
Definition scenario_B : StateStore.World JsValue :=
  StateStore.run JsUndefined js_loose_neq quiet (deferred_store quiet)
    [StateStore.Subscribe 1 (Some ["count"]); StateStore.Subscribe 2 None; StateStore.SetState count_1 None].

(** Three subscribers without keys; the first unsubscribes the second
    whenever it is called. *)
Definition scenario_unsubscribing : StateStore.World JsValue :=
  StateStore.run JsUndefined js_loose_neq meddling (deferred_store meddling)
    [StateStore.Subscribe 1 None; StateStore.Subscribe 2 None; StateStore.Subscribe 3 None].

(** Scenario E: a store, and a patch object the program has just built. *)
Definition scenario_E (immediateFlush : bool) : StateStore.World JsValue :=
  (StateStore.alloc count_1 (if immediateFlush then immediate_store quiet
                  else deferred_store quiet)).2.

(** Emitter listeners: listener 1 removes itself from ["tick"] when it is
    called, the others observe. *)
Definition self_removing : nat → list EventEmitter.Action :=
  λ n, if decide (n = 1) then [EventEmitter.CallOff "tick" 1] else [].

(** [on('tick', f1); on('tick', f2); on('tick', f3)] on a new emitter. *)
Definition scenario_emitter : EventEmitter.World nat :=
  EventEmitter.run self_removing EventEmitter.createEmitter
    [EventEmitter.On "tick" 1; EventEmitter.On "tick" 2; EventEmitter.On "tick" 3].

(** Callback 1 throws; the others observe. *)
Definition faulty : nat → list StateStore.Action :=
  λ n, if decide (n = 1) then [StateStore.Throw] else [].

(** Two subscribers without keys on a deferred store, the first of which
    throws, and a queued patch. *)
Definition scenario_throwing : StateStore.World JsValue :=
  StateStore.run JsUndefined js_loose_neq faulty (deferred_store faulty)
    [StateStore.Subscribe 1 None; StateStore.Subscribe 2 None;
     StateStore.SetState count_1 None].

(** Callback 1 calls its unsubscribe closure and then
    [setState({ foo: 7 }, callback2)]; the others observe. *)
Definition reentering : nat → list (Reentrant.Action JsValue) :=
  λ n, if decide (n = 1)
       then [Reentrant.CallUnsubscribe 1; Reentrant.CallSetState foo_7 (Some 2)]
       else [].

(** Three subscribers without keys on an immediate store. *)
Definition scenario_immediate : StateStore.World JsValue :=
  StateStore.run JsUndefined js_loose_neq quiet (immediate_store quiet)
    [StateStore.Subscribe 1 None; StateStore.Subscribe 2 None; StateStore.Subscribe 3 None].

(** [setState({ count: 1 })] on that store, with callbacks that re-enter
    it. *)
Definition scenario_reentering : option (Reentrant.Outcome JsValue) :=
  Reentrant.setState JsUndefined js_loose_neq reentering 2 count_1 None scenario_immediate.

End Scenarios.

(** * Properties *)

(** ** The bounded queue *)

Module QueueFacts.
Import NextTime IdleQueue.

Section WithItems.
Context {T : Type} `{EqDecision T}.
Variable undefined : T.

Lemma set_delete_head (x : T) (s : list T) :
  NoDup (x :: s) → set_delete x (x :: s) = s.
Proof.
  intros Hnd. apply NoDup_cons in Hnd as [Hx _].
  unfold set_delete. rewrite filter_cons_False by (intros Hne; by apply Hne).
  induction s as [|y s IH]; [done|].
  apply not_elem_of_cons in Hx as [Hxy Hxs].
  rewrite filter_cons_True by congruence. f_equal. by apply IH.
Qed.

(** The loop of the unique branch hands out the front of the set. *)
Lemma take_loop_front (n : nat) (acc s : list T) :
  NoDup s → n ≤ length s →
  take_loop undefined n acc s = (acc ++ list.take n s, list.drop n s).
Proof.
  revert acc s. induction n as [|n IH]; intros acc s Hnd Hn; simpl.
  - by rewrite take_0, app_nil_r, drop_0.
  - destruct s as [|x s]; [simpl in Hn; lia|].
    unfold set_first at 1 2. simpl head. simpl default.
    rewrite set_delete_head by done.
    rewrite IH; [|by eapply NoDup_cons_1_2|simpl in Hn; lia].
    simpl. by rewrite <- app_assoc.
Qed.

Lemma set_add_NoDup (x : T) (s : list T) : NoDup s → NoDup (set_add x s).
Proof.
  intros Hnd. unfold set_add. case_decide; [done|].
  apply NoDup_app. split_and!; [done| |apply NoDup_singleton].
  intros y Hy Hyx. apply list_elem_of_singleton in Hyx. by subst.
Qed.

Lemma take_spec (count : Z) (q : Queue T) :
  NoDup (uniqueItems q) →
  contents (take undefined count q).2 = list.drop (taken count q) (contents q)
  ∧ (take undefined count q).1 = list.take (taken count q) (contents q).
Proof.
  intros Hnd. unfold take, taken, contents, size.
  destruct (q_unique q) eqn:Hu.
  - set (len := length (uniqueItems q)).
    assert (Hc : Z.to_nat (if (Z.of_nat len <? count)%Z then Z.of_nat len else count)
                 = Z.to_nat (Z.min count (Z.of_nat len))).
    { destruct (Z.ltb_spec (Z.of_nat len) count); f_equal; lia. }
    rewrite Hc, take_loop_front; [done | done | subst len; lia].
  - set (len := length (items q)).
    assert (Hc : Z.to_nat (if (Z.of_nat len <? count)%Z then Z.of_nat len else count)
                 = Z.to_nat (Z.min count (Z.of_nat len))).
    { destruct (Z.ltb_spec (Z.of_nat len) count); f_equal; lia. }
    rewrite Hc. done.
Qed.

Lemma taken_le (count : Z) (q : Queue T) : taken count q ≤ size q.
Proof. unfold taken. lia. Qed.

Lemma size_contents (q : Queue T) : size q = length (contents q).
Proof. unfold size, contents. by destruct (q_unique q). Qed.

Lemma add_contents (x : T) (q : Queue T) :
  contents (add x q) =
    if q_unique q then (if decide (x ∈ contents q) then contents q else contents q ++ [x])
    else contents q ++ [x].
Proof.
  unfold add, contents. destruct (q_unique q) eqn:Hu; simpl; [|done].
  unfold set_add. by case_decide.
Qed.

Lemma add_present (x : T) (q : Queue T) :
  q_unique q = true → x ∈ contents q → add x q = q.
Proof.
  unfold add, contents. intros Hu Hx. rewrite Hu in *. unfold set_add.
  rewrite decide_True by done. destruct q; simpl in *; by subst.
Qed.

Lemma add_NoDup (x : T) (q : Queue T) :
  NoDup (uniqueItems q) → NoDup (uniqueItems (add x q)).
Proof.
  intros Hnd. unfold add. destruct (q_unique q); simpl; [by apply set_add_NoDup|done].
Qed.

Lemma take_q_unique (count : Z) (q : Queue T) :
  q_unique (take undefined count q).2 = q_unique q.
Proof.
  unfold take. destruct (q_unique q) eqn:Hu; [|done].
  by destruct (take_loop _ _ _ _).
Qed.

Lemma take_NoDup (count : Z) (q : Queue T) :
  NoDup (uniqueItems q) → NoDup (uniqueItems (take undefined count q).2).
Proof.
  intros Hnd. pose proof (take_spec count q Hnd) as [Hc _].
  pose proof (take_q_unique count q) as Hq.
  unfold contents in Hc. rewrite Hq in Hc. destruct (q_unique q) eqn:Hu.
  - rewrite Hc. eapply sublist_NoDup; [|apply sublist_drop]. done.
  - unfold take. by rewrite Hu.
Qed.

End WithItems.

End QueueFacts.

(** ** The idle queue scheduler *)

Module SchedulerFacts.
Import NextTime IdleQueue.

Section WithItems.
Context {T : Type} `{EqDecision T}.
Variable undefined : T.

(** The only assignment to [_cancel] is the one in [_next], so once a drain
    was booked the variable holds a closure for good. *)
Lemma _next_keeps_cancel (w : World T) (c : Handle) :
  _cancel w = Some c → _next w = w.
Proof. intros Hc. unfold _next. case_decide; [done|]. by rewrite Hc. Qed.

Lemma _process_tail_keeps_cancel (w : World T) (c : Handle) :
  _cancel w = Some c → _process_tail w = w.
Proof.
  intros Hc. unfold _process_tail. destruct (block (options w)); [|done].
  by eapply _next_keeps_cancel.
Qed.

Lemma stalled_step (w : World T) (e : Event T) :
  stalled w →
  stalled (step undefined w e)
  ∧ calls (step undefined w e) = calls w
  ∧ _cancel (step undefined w e) = _cancel w.
Proof.
  intros [[c Hc] Hp]. unfold stalled. destruct e as [item|cb| |c'|id ok]; simpl.
  - unfold enqueue. erewrite _next_keeps_cancel by (simpl; exact Hc).
    simpl. rewrite Hc, Hp. eauto.
  - rewrite Hc, Hp. eauto.
  - rewrite Hc. simpl. rewrite Hp. simpl. eauto.
  - unfold fire. rewrite Hp. simpl. rewrite Hc, Hp. eauto.
  - case_decide; [|rewrite Hc, Hp; eauto].
    case_decide; simpl; [|rewrite Hc, Hp; eauto].
    unfold resume. destruct ok; simpl; [|rewrite Hc, Hp; eauto].
    erewrite _process_tail_keeps_cancel by (simpl; exact Hc).
    simpl. rewrite Hc, Hp. eauto.
Qed.

Lemma stalled_run (es : list (Event T)) (w : World T) :
  stalled w →
  stalled (run undefined w es)
  ∧ calls (run undefined w es) = calls w
  ∧ _cancel (run undefined w es) = _cancel w.
Proof.
  revert w. induction es as [|e es IH]; intros w Hs; [done|].
  unfold run in *. simpl.
  destruct (stalled_step w e Hs) as (Hs' & Hcalls & Hcancel).
  destruct (IH _ Hs') as (? & ? & ?). split_and!; [done|congruence..].
Qed.

Lemma one_drain_stalled (w : World T) (c : Handle) :
  _cancel w = Some c → pending (host w) = [] → stalled w.
Proof. intros Hc Hp. split; [by eexists|done]. Qed.

Lemma _process_calls (w : World T) (c : Handle) :
  _cancel w = Some c →
  let w' := _process undefined w in
  _cancel w' = Some c ∧ host w' = host w ∧ options w' = options w
  ∧ length (calls w') ≤ S (length (calls w)).
Proof.
  intros Hc. unfold _process.
  destruct (take _ _ _) as [batch q'].
  simpl. destruct (_onTake w) as [hook|] eqn:Hh.
  - destruct (hook batch).
    + erewrite _process_tail_keeps_cancel by (simpl; exact Hc). simpl.
      rewrite length_app. simpl. split_and!; [done..|lia].
    + simpl. destruct (block (options w)) eqn:Hb; simpl.
      * rewrite length_app. simpl. split_and!; [done..|lia].
      * unfold _process_tail. simpl. rewrite Hb. simpl.
        rewrite length_app. simpl. split_and!; [done..|lia].
  - erewrite _process_tail_keeps_cancel by (simpl; exact Hc). simpl.
    split_and!; [done..|lia].
Qed.

Lemma one_drain_step (w : World T) (e : Event T) :
  one_drain w → one_drain (step undefined w e).
Proof.
  intros Hinv. unfold one_drain in Hinv.
  destruct (_cancel w) as [c|] eqn:Hc.
  - destruct Hinv as [(Hp & Hcalls & Hin)|[Hp Hlen]].
    + (* the drain is booked and has not fired *)
      destruct e as [item|cb| |c'|id ok]; simpl.
      * unfold enqueue. erewrite _next_keeps_cancel by (simpl; exact Hc).
        unfold one_drain. simpl. rewrite Hc. left. done.
      * unfold one_drain. simpl. rewrite Hc. left. done.
      * unfold one_drain. simpl. rewrite Hc. simpl. rewrite Hp.
        rewrite filter_cons_False by (simpl; intros Hne; by apply Hne).
        right. rewrite Hcalls. simpl. split; [done|lia].
      * unfold fire. rewrite Hp. simpl.
        destruct (decide (c = c')) as [->|Hne].
        -- set (w0 := mkWorld _ _ _ _ _ _ _ _).
           assert (Hc0 : _cancel w0 = Some c') by done.
           destruct (_process_calls w0 c' Hc0) as (Hc1 & Hh1 & Ho1 & Hl1).
           unfold drain.
           assert (Hd : (if block (options (_process undefined w0))
                         then _process undefined w0
                         else _next (_process undefined w0)) = _process undefined w0).
           { destruct (block _); [done|]. by eapply _next_keeps_cancel. }
           assert (Hcalls0 : calls w0 = []) by (subst w0; done).
           rewrite Hcalls0 in Hl1. cbn [length] in Hl1.
           rewrite Hd. unfold one_drain. rewrite Hc1. right. rewrite Hh1.
           split; [|done]. subst w0. simpl. rewrite Hp.
           by rewrite filter_cons_False by (simpl; intros Hne; by apply Hne).
        -- unfold one_drain. rewrite Hc. left. done.
      * rewrite Hin. rewrite decide_False by apply not_elem_of_nil.
        unfold one_drain. rewrite Hc. left. done.
    + (* the drain is gone *)
      destruct (stalled_step w e (one_drain_stalled w c Hc Hp))
        as ([_ Hp'] & Hcalls' & Hc').
      unfold one_drain. rewrite Hc', Hc. right. rewrite Hcalls'. done.
  - destruct Hinv as (Hp & Hcalls & Hin).
    destruct e as [item|cb| |c'|id ok]; simpl.
    + unfold enqueue, _next. simpl. case_decide.
      * unfold one_drain. simpl. rewrite Hc. done.
      * rewrite Hc. unfold one_drain. simpl. rewrite Hp. left. done.
    + unfold one_drain. simpl. rewrite Hc. done.
    + unfold one_drain. simpl. rewrite Hc. done.
    + unfold fire. rewrite Hp. simpl. unfold one_drain. rewrite Hc. done.
    + rewrite Hin. rewrite decide_False by apply not_elem_of_nil.
      unfold one_drain. rewrite Hc. done.
Qed.

Lemma one_drain_run (es : list (Event T)) (w : World T) :
  one_drain w → one_drain (run undefined w es).
Proof.
  revert w. induction es as [|e es IH]; intros w Hinv; [done|].
  unfold run in *. simpl. apply IH. by apply one_drain_step.
Qed.

Lemma one_drain_bounds (w : World T) :
  one_drain w → length (calls w) ≤ 1 ∧ length (pending (host w)) ≤ 1.
Proof.
  unfold one_drain. destruct (_cancel w).
  - intros [(-> & -> & _)|[-> ?]]; simpl; lia.
  - intros (-> & -> & _). simpl; lia.
Qed.

(** [destroy] on any scheduler. *)
Lemma destroy_effect (w : World T) :
  let w' := destroy w in
  contents (q w') = [] ∧ size (q w') = 0 ∧ _onTake w' = None
  ∧ (∀ c, _cancel w = Some c → c ∉ (pending (host w')).*1)
  ∧ calls w' = calls w ∧ inflight w' = inflight w ∧ awaiting w' = awaiting w.
Proof.
  simpl. split_and!; try done.
  - unfold contents. simpl. by destruct (q_unique _).
  - unfold size. simpl. by destruct (q_unique _).
  - intros c ->. simpl. intros Hin.
    apply list_elem_of_fmap in Hin as [[c' t] [-> Hin]].
    apply list_elem_of_filter in Hin as [Hne _]. by apply Hne.
Qed.

End WithItems.

End SchedulerFacts.

(** ** Claims about the queue and the scheduler *)

Module QueueClaims.
Import NextTime IdleQueue Scenarios QueueFacts SchedulerFacts.

(** C8. [take(count)] removes and returns the front of the queue in
    insertion order, [count] clamped to the size; on a unique queue adding an
    item that is present changes nothing, an absent one goes to the back;
    and after [enqueue('a')], [enqueue('b')], [enqueue('a')] on a unique
    scheduler the size is 2 and [take(2)] returns ['a','b']. *)
Theorem C8_take_is_fifo_and_unique_add_keeps_position
    {T : Type} `{EqDecision T} (undefined : T) (qu : Queue T) (count : Z) (x : T) :
  NoDup (uniqueItems qu) →
  let m := Z.to_nat (Z.min count (Z.of_nat (size qu))) in
  (take undefined count qu).1 = list.take m (contents qu)
  ∧ contents (take undefined count qu).2 = list.drop m (contents qu)
  ∧ m ≤ size qu
  ∧ (q_unique qu = true → x ∈ contents qu → add x qu = qu)
  ∧ (q_unique qu = true → x ∉ contents qu → contents (add x qu) = contents qu ++ [x])
  ∧ (q_unique qu = false → contents (add x qu) = contents qu ++ [x])
  ∧ (let w := run ItemUndefined (createScheduler scenario_D_options fresh_host)
                [Enqueue item_a; Enqueue item_b; Enqueue item_a] in
     size (q w) = 2 ∧ (take ItemUndefined 2 (q w)).1 = [item_a; item_b]).
Proof.
  intros Hnd m.
  destruct (take_spec undefined count qu Hnd) as [Hrest Htook].
  split_and!.
  - exact Htook.
  - exact Hrest.
  - apply taken_le.
  - apply add_present.
  - intros Hu Hx. rewrite add_contents, Hu. by rewrite decide_False.
  - intros Hu. by rewrite add_contents, Hu.
  - vm_compute. done.
Qed.

Lemma C8_witness :
  NoDup (uniqueItems (mkQueue true [] [item_a; item_b]))
  ∧ (take ItemUndefined 5 (mkQueue true [] [item_a; item_b])).1 = [item_a; item_b]
  ∧ add item_a (mkQueue true [] [item_a; item_b]) = mkQueue true [] [item_a; item_b].
Proof.
  assert (Hnd : NoDup (uniqueItems (mkQueue true [] [item_a; item_b]))).
  { simpl. apply NoDup_cons. split; [|apply NoDup_singleton].
    intros Hin. apply list_elem_of_singleton in Hin. discriminate. }
  pose proof (C8_take_is_fifo_and_unique_add_keeps_position
                ItemUndefined (mkQueue true [] [item_a; item_b]) 5 item_a Hnd)
    as (Htook & _ & _ & Hadd & _).
  split_and!.
  - exact Hnd.
  - exact Htook.
  - apply Hadd; [done|]. simpl. apply list_elem_of_here.
Defined.

(** C1 (the code departs from it). With [batchSize = 2], [block = true] and
    'a'..'e' enqueued, the booked drain hands ['a','b'] to the hook and
    suspends on its promise; when the promise settles [_next] finds
    [_cancel] still set and books nothing, so 'c','d','e' stay in the queue
    and no later event reaches the hook. *)
Theorem C1_blocking_scheduler_drains_first_batch_only :
  let w5 := run ItemUndefined (createScheduler scenario_C_options fresh_host)
              [Enqueue item_a; Enqueue item_b; Enqueue item_c; Enqueue item_d;
               Enqueue item_e] in
  let c0 := mkHandle AnimationFrame 0 in
  let w6 := step ItemUndefined w5 (Fire c0) in
  let w7 := step ItemUndefined w6 (Settle 0 true) in
  (_cancel w5 = Some c0 ∧ pending (host w5) = [(c0, tt)])
  ∧ (calls w6 = [[item_a; item_b]] ∧ awaiting w6 = [0] ∧ _cancel w6 = Some c0)
  ∧ (contents (q w7) = [item_c; item_d; item_e]
     ∧ pending (host w7) = [] ∧ awaiting w7 = [] ∧ _cancel w7 = Some c0)
  ∧ ∀ es : list (Event Item), calls (run ItemUndefined w7 es) = [[item_a; item_b]].
Proof.
  intros w5 c0 w6 w7.
  assert (H5 : _cancel w5 = Some c0 ∧ pending (host w5) = [(c0, tt)])
    by (vm_compute; split; reflexivity).
  assert (H6 : calls w6 = [[item_a; item_b]] ∧ awaiting w6 = [0] ∧ _cancel w6 = Some c0)
    by (vm_compute; repeat split; reflexivity).
  assert (H7 : contents (q w7) = [item_c; item_d; item_e]
               ∧ pending (host w7) = [] ∧ awaiting w7 = [] ∧ _cancel w7 = Some c0)
    by (vm_compute; repeat split; reflexivity).
  assert (Hcalls : calls w7 = [[item_a; item_b]]) by (vm_compute; reflexivity).
  refine (conj H5 (conj H6 (conj H7 _))).
  intros es.
  assert (Hst : stalled w7).
  { destruct H7 as (_ & Hp & _ & Hc). split; [rewrite Hc; by eexists|exact Hp]. }
  destruct (stalled_run ItemUndefined es w7 Hst) as (_ & -> & _). exact Hcalls.
Qed.

(** X1 (P6 and more): a scheduler made on a host that holds nothing has at most
    one drain booked at any time, and over its whole life hands at most one
    batch to a hook. *)
Theorem X1_scheduler_books_and_runs_one_drain
    {T : Type} `{EqDecision T} (undefined : T) (o : SchedulerOptions T)
    (idle frame : bool) (first_id : nat) (es : list (Event T)) :
  let w := run undefined (createScheduler o (mkHost idle frame first_id [])) es in
  length (pending (host w)) ≤ 1 ∧ length (calls w) ≤ 1.
Proof.
  intros w.
  assert (Hinv : one_drain w).
  { apply one_drain_run. unfold one_drain. simpl. done. }
  destruct (one_drain_bounds w Hinv). done.
Qed.

End QueueClaims.

(** ** The state store *)

Module StoreFacts.
Import NextTime StateStore.

Section WithValues.
Context {Value : Type}.
Variable undefined : Value.
Variable loose_neq : Value → Value → bool.
Variable user_code : nat → list Action.

Local Abbreviation Obj := (gmap string Value).
Local Abbreviation World := (World Value).
Local Abbreviation tick := (tick undefined loose_neq user_code).
Local Abbreviation notify := (notify undefined loose_neq user_code).
Local Abbreviation forEach := (forEach undefined loose_neq user_code).
Local Abbreviation invoke := (@invoke Value user_code).
Local Abbreviation run_actions := (@run_actions Value).
Local Abbreviation flush := (flush undefined loose_neq user_code).
Local Abbreviation markDirty := (markDirty undefined loose_neq user_code).
Local Abbreviation setState := (setState undefined loose_neq user_code).
Local Abbreviation step := (step undefined loose_neq user_code).
Local Abbreviation run := (run undefined loose_neq user_code).
Local Abbreviation isStateChangedWithKeys := (isStateChangedWithKeys undefined loose_neq).
Local Abbreviation gate := (gate undefined loose_neq).
Local Abbreviation notified := (notified undefined loose_neq).
Local Abbreviation no_throw := (no_throw user_code).
Local Abbreviation invoked_by_tick := (invoked_by_tick undefined loose_neq user_code).

(** *** [Object.assign] *)

Lemma assign_from_lookup (target source : Obj) (k : string) :
  assign_from target source !! k =
    match source !! k with Some v => Some v | None => target !! k end.
Proof.
  unfold assign_from.
  apply (map_fold_weak_ind
           (λ r m, r !! k = match m !! k with Some v => Some v | None => target !! k end)).
  - by rewrite lookup_empty.
  - intros i x m r Hi IH. destruct (decide (i = k)) as [->|Hne].
    + by rewrite !lookup_insert_eq.
    + by rewrite !lookup_insert_ne.
Qed.

Lemma assign_from_union (target source : Obj) : assign_from target source = source ∪ target.
Proof.
  apply map_eq. intros k. rewrite assign_from_lookup, lookup_union.
  by destruct (source !! k), (target !! k).
Qed.

Lemma foldl_assign_from (target : Obj) (sources : list Obj) :
  foldl assign_from target sources = foldl (λ o p, p ∪ o) target sources.
Proof.
  revert target. induction sources as [|p l IH]; intros o; simpl; [done|].
  by rewrite IH, assign_from_union.
Qed.

Lemma assign_from_empty (source : Obj) : assign_from ∅ source = source.
Proof.
  apply map_eq. intros k. rewrite assign_from_lookup, lookup_empty.
  by destruct (source !! k).
Qed.

Lemma Object_assign_lookup (target : Obj) (sources : list Obj) (k : string) :
  Object_assign target sources !! k =
    match winner k sources with Some v => Some v | None => target !! k end.
Proof.
  unfold Object_assign. revert target.
  induction sources as [|s sources IH]; intros target; simpl; [done|].
  rewrite IH. destruct (winner k sources); [done|]. apply assign_from_lookup.
Qed.

(** *** What callbacks leave alone *)

Lemma same_store_refl (w : World) : same_store w w.
Proof. by repeat split. Qed.

Lemma same_store_trans (w1 w2 w3 : World) :
  same_store w1 w2 → same_store w2 w3 → same_store w1 w3.
Proof.
  unfold same_store. intros (?&?&?&?&?&?&?&?&?) (?&?&?&?&?&?&?&?&?).
  split_and!; congruence.
Qed.

Lemma unsubscribe_same_store (c : Callback) (w : World) :
  same_store w (unsubscribe c w).
Proof. unfold unsubscribe. destruct (find_subscriber c w); by repeat split. Qed.

Lemma settle_same_store (p : nat) (s : PromiseState) (w : World) :
  same_store w (settle p s w).
Proof.
  unfold settle. destruct (promises w !! p) as [[]|]; by repeat split.
Qed.

Lemma run_actions_same_store (acts : list Action) (w : World) :
  same_store w (run_actions acts w).1.
Proof.
  revert w. induction acts as [|[n|] acts IH]; intros w; simpl;
    [apply same_store_refl| |apply same_store_refl].
  eapply same_store_trans; [apply unsubscribe_same_store|apply IH].
Qed.

Lemma invoke_same_store (c : Callback) (s : Ref) (w : World) :
  same_store w (invoke c s w).1.
Proof.
  unfold StateStore.invoke. destruct c as [n|p].
  - eapply same_store_trans; [|apply run_actions_same_store]. by repeat split.
  - simpl. eapply same_store_trans; [|apply unsubscribe_same_store].
    eapply same_store_trans; [|apply settle_same_store]. by repeat split.
Qed.

Lemma isStateChangedWithKeys_heap (prev new : Ref) (ks : list string) (w w' : World) :
  heap w' = heap w →
  isStateChangedWithKeys prev new ks w' = isStateChangedWithKeys prev new ks w.
Proof.
  intros Hh. unfold StateStore.isStateChangedWithKeys, deref. by rewrite Hh.
Qed.

Lemma gate_heap (prev new : Ref) (w w' : World) (ret : SubscriberMeta) :
  heap w' = heap w → gate prev new w' ret = gate prev new w ret.
Proof.
  intros Hh. unfold gate. destruct (keys ret); [|done].
  by apply isStateChangedWithKeys_heap.
Qed.

Lemma forEach_same_store (subs : list SubscriberMeta) (s prev : Ref) (w : World) :
  same_store w (forEach subs s prev w).1.
Proof.
  revert w. induction subs as [|ret subs IH]; intros w; simpl;
    [apply same_store_refl|].
  destruct (keys ret) as [ks|].
  - destruct (isStateChangedWithKeys prev s ks w).
    + destruct (invoke (subscriber ret) s w) as [w1 threw] eqn:Hi.
      pose proof (invoke_same_store (subscriber ret) s w) as Hs. rewrite Hi in Hs.
      destruct threw; [done|]. eapply same_store_trans; [exact Hs|apply IH].
    + apply IH.
  - destruct (invoke (subscriber ret) s w) as [w1 threw] eqn:Hi.
    pose proof (invoke_same_store (subscriber ret) s w) as Hs. rewrite Hi in Hs.
    destruct threw; [done|]. eapply same_store_trans; [exact Hs|apply IH].
Qed.

(** *** One notification pass *)

Lemma forEach_cons (ret : SubscriberMeta) (rest : list SubscriberMeta)
    (s prev : Ref) (w : World) :
  forEach (ret :: rest) s prev w =
    if gate prev s w ret then
      if (invoke (subscriber ret) s w).2 then ((invoke (subscriber ret) s w).1, true)
      else forEach rest s prev (invoke (subscriber ret) s w).1
    else forEach rest s prev w.
Proof.
  simpl. unfold gate. destruct (keys ret) as [ks|].
  - destruct (isStateChangedWithKeys prev s ks w); [|done].
    by destruct (invoke (subscriber ret) s w) as [w1 []].
  - by destruct (invoke (subscriber ret) s w) as [w1 []].
Qed.

(** A relation that holds across every callback holds across the pass. *)
Lemma forEach_rel (R : World → World → Prop) (subs : list SubscriberMeta)
    (s prev : Ref) (w : World) :
  (∀ w, R w w) → (∀ w1 w2 w3, R w1 w2 → R w2 w3 → R w1 w3) →
  (∀ c w, R w (invoke c s w).1) →
  R w (forEach subs s prev w).1.
Proof.
  intros Hrefl Htrans Hinv. revert w.
  induction subs as [|ret subs IH]; intros w; [apply Hrefl|].
  rewrite forEach_cons. destruct (gate prev s w ret); [|apply IH].
  destruct (invoke (subscriber ret) s w).2 eqn:Ht; [apply Hinv|].
  eapply Htrans; [apply Hinv|apply IH].
Qed.

Lemma run_actions_fields (acts : list Action) (w : World) :
  calls (run_actions acts w).1 = calls w
  ∧ promises (run_actions acts w).1 = promises w
  ∧ timers (run_actions acts w).1 = timers w.
Proof.
  revert w. induction acts as [|[n|] acts IH]; intros w; simpl; [done| |done].
  destruct (IH (unsubscribe (UserCb n) w)) as (-> & -> & ->).
  unfold unsubscribe. by destruct (find_subscriber _ w).
Qed.

Lemma run_actions_no_throw (acts : list Action) (w : World) :
  Throw ∉ acts → (run_actions acts w).2 = false.
Proof.
  revert w. induction acts as [|[n|] acts IH]; intros w Hn; simpl; [done| |].
  - apply IH. intros Hin. apply Hn. by apply list_elem_of_further.
  - exfalso. apply Hn. apply list_elem_of_here.
Qed.

Lemma settle_calls (p : nat) (st : PromiseState) (w : World) :
  calls (settle p st w) = calls w ∧ timers (settle p st w) = timers w
  ∧ _removedSubscribers (settle p st w) = _removedSubscribers w.
Proof. unfold settle. by destruct (promises w !! p) as [[]|]. Qed.

Lemma unsubscribe_fields (c : Callback) (w : World) :
  calls (unsubscribe c w) = calls w ∧ timers (unsubscribe c w) = timers w
  ∧ promises (unsubscribe c w) = promises w.
Proof. unfold unsubscribe. by destruct (find_subscriber c w). Qed.

Lemma invoke_calls (c : Callback) (s : Ref) (w : World) :
  calls (invoke c s w).1 = calls w ++ [(c, s)].
Proof.
  unfold StateStore.invoke. destruct c as [n|p].
  - by destruct (run_actions_fields (user_code n) (set_calls (calls w ++ [(UserCb n, s)]) w))
      as (-> & _).
  - simpl. destruct (unsubscribe_fields (WrapperCb p)
      (settle p (Fulfilled s) (clearTimeout p (set_calls (calls w ++ [(WrapperCb p, s)]) w))))
      as (-> & _).
    by destruct (settle_calls p (Fulfilled s)
      (clearTimeout p (set_calls (calls w ++ [(WrapperCb p, s)]) w))) as (-> & _).
Qed.

Lemma invoke_no_throw (c : Callback) (s : Ref) (w : World) :
  no_throw → (invoke c s w).2 = false.
Proof.
  intros Hn. unfold StateStore.invoke. destruct c as [n|p]; [|done].
  apply run_actions_no_throw, Hn.
Qed.

Lemma notified_heap (subs : list SubscriberMeta) (prev s : Ref) (w w' : World) :
  heap w' = heap w → notified subs prev s w' = notified subs prev s w.
Proof.
  intros Hh. unfold notified. f_equal. apply List.filter_ext.
  intros ret. by apply gate_heap.
Qed.

Lemma invoke_heap (c : Callback) (s : Ref) (w : World) :
  heap (invoke c s w).1 = heap w.
Proof. by destruct (invoke_same_store c s w) as (_&_&_&_&_&?&_). Qed.

(** Whatever the callbacks do, the calls of a pass are a prefix of
    [notified]; all of it when no callback throws. *)
Lemma forEach_calls_prefix (subs : list SubscriberMeta) (s prev : Ref) (w : World) :
  ∃ l, calls (forEach subs s prev w).1 = calls w ++ l
       ∧ l `prefix_of` notified subs prev s w.
Proof.
  revert w. induction subs as [|ret subs IH]; intros w.
  - exists []. simpl. by rewrite app_nil_r.
  - rewrite forEach_cons. unfold notified. simpl.
    destruct (gate prev s w ret) eqn:Hg.
    + destruct (invoke (subscriber ret) s w).2 eqn:Ht.
      * exists [(subscriber ret, s)]. simpl. rewrite invoke_calls. split; [done|].
        apply prefix_cons, prefix_nil.
      * destruct (IH (invoke (subscriber ret) s w).1) as (l & Hl & Hpre).
        exists ((subscriber ret, s) :: l). rewrite Hl, invoke_calls, <- app_assoc.
        split; [done|]. simpl. apply prefix_cons.
        rewrite (notified_heap subs prev s w) in Hpre by apply invoke_heap.
        exact Hpre.
    + apply IH.
Qed.

Lemma forEach_calls (subs : list SubscriberMeta) (s prev : Ref) (w : World) :
  no_throw →
  (forEach subs s prev w).2 = false
  ∧ calls (forEach subs s prev w).1 = calls w ++ notified subs prev s w.
Proof.
  intros Hn. revert w. induction subs as [|ret subs IH]; intros w.
  - simpl. by rewrite app_nil_r.
  - rewrite forEach_cons. unfold notified. simpl.
    destruct (gate prev s w ret) eqn:Hg; [|apply IH].
    rewrite invoke_no_throw by done.
    destruct (IH (invoke (subscriber ret) s w).1) as (Ht & Hc).
    split; [done|]. rewrite Hc, invoke_calls, <- app_assoc. simpl.
    by rewrite (notified_heap subs prev s w) by apply invoke_heap.
Qed.

(** *** [notify] and [tick] in two halves *)

Lemma notify_eq (s prev : Ref) (w : World) :
  notify s prev w = forEach (live w) s prev (pruned w).
Proof.
  unfold StateStore.notify, pruned, live. by destruct (decide _).
Qed.

Lemma pruned_subscribers (w : World) : _subscribers (pruned w) = live w.
Proof. unfold pruned, live. by case_decide. Qed.

Lemma pruned_removed (w : World) : _removedSubscribers (pruned w) = [].
Proof.
  unfold pruned. case_decide as Hl; [|done].
  by destruct (_removedSubscribers w).
Qed.

Lemma pruned_fields (w : World) :
  _state (pruned w) = _state w ∧ _stateChanges (pruned w) = _stateChanges w
  ∧ _dirty (pruned w) = _dirty w ∧ _immediateFlush (pruned w) = _immediateFlush w
  ∧ heap (pruned w) = heap w ∧ next_meta (pruned w) = next_meta w
  ∧ host (pruned w) = host w ∧ now (pruned w) = now w
  ∧ timers (pruned w) = timers w ∧ promises (pruned w) = promises w
  ∧ calls (pruned w) = calls w.
Proof. unfold pruned. by case_decide. Qed.

Lemma live_sub (w : World) (ret : SubscriberMeta) :
  ret ∈ live w → ret ∈ _subscribers w.
Proof.
  unfold live. case_decide; [done|].
  rewrite !list_elem_of_In, List.filter_In. tauto.
Qed.

Lemma deref_alloc_empty (w : World) (r : Ref) :
  deref (set_heap (heap w ++ [∅]) w) r = deref w r.
Proof.
  unfold deref. simpl. destruct (decide (r < length (heap w))) as [Hlt|Hge].
  - by rewrite lookup_app_l.
  - rewrite (lookup_ge_None_2 (heap w)) by lia. simpl.
    destruct (decide (r = length (heap w))) as [->|Hne].
    + by rewrite list_lookup_middle.
    + rewrite lookup_ge_None_2; [done|]. rewrite length_app. simpl. lia.
Qed.

Lemma deref_ge (w : World) (r : Ref) : length (heap w) ≤ r → deref w r = ∅.
Proof. intros Hr. unfold deref. by rewrite lookup_ge_None_2. Qed.

Lemma tick_eq (w : World) :
  tick w = notify (_state (flushed w)) (_state w) (flushed w).
Proof.
  unfold StateStore.tick, flushed, StateStore.flush, alloc.
  cbn -[Object_assign deref assign_from StateStore.notify].
  case_decide as Hl; [done|].
  pose proof (deref_alloc_empty (set__stateChanges [] (set__dirty false w))) as Hd.
  assert (Hf : (deref (set_heap (heap w ++ [∅]) (set__stateChanges [] (set__dirty false w)))
                  <$> _stateChanges w) = (deref w <$> _stateChanges w)).
  { apply list_fmap_ext. intros i r _. apply Hd. }
  rewrite Hf, !Hd.
  change (deref (set__stateChanges [] (set__dirty false w))) with (deref w).
  rewrite (deref_ge w (length (heap w))) by lia.
  rewrite length_app. cbn [length]. rewrite Nat.add_1_r, <- app_assoc.
  reflexivity.
Qed.

Lemma flushed_fields (w : World) :
  _subscribers (flushed w) = _subscribers w
  ∧ _removedSubscribers (flushed w) = _removedSubscribers w
  ∧ _immediateFlush (flushed w) = _immediateFlush w
  ∧ next_meta (flushed w) = next_meta w ∧ host (flushed w) = host w
  ∧ now (flushed w) = now w ∧ timers (flushed w) = timers w
  ∧ promises (flushed w) = promises w ∧ calls (flushed w) = calls w
  ∧ _dirty (flushed w) = false ∧ _stateChanges (flushed w) = [].
Proof.
  unfold flushed. case_decide as Hl; simpl; split_and!; try done.
  by destruct (_stateChanges w).
Qed.

Lemma live_flushed (w : World) : live (flushed w) = live w.
Proof.
  unfold live. destruct (flushed_fields w) as (-> & -> & _). done.
Qed.

(** The object a flush allocates: the old state overwritten by the queued
    patches in order. *)
Lemma flushed_state_fresh (w : World) :
  length (heap w) ≤ _state (flushed w)
  ∧ _state (flushed w) < length (heap (flushed w)).
Proof.
  unfold flushed. case_decide; simpl; rewrite length_app; simpl; lia.
Qed.

Lemma flushed_deref_old (w : World) (r : Ref) :
  r < length (heap w) → deref (flushed w) r = deref w r.
Proof.
  intros Hr. unfold flushed, deref. case_decide; simpl; by rewrite lookup_app_l.
Qed.

Lemma flushed_deref_state (w : World) :
  deref (flushed w) (_state (flushed w))
  = foldl assign_from (deref w (_state w)) (deref w <$> _stateChanges w).
Proof.
  unfold flushed, deref. case_decide as Hl; simpl.
  - rewrite list_lookup_middle by done. simpl.
    destruct (_stateChanges w); [|done]. simpl. apply assign_from_empty.
  - rewrite (lookup_app_r (heap w)) by lia.
    replace (S (length (heap w)) - length (heap w)) with 1 by lia. simpl.
    unfold Object_assign. simpl. by rewrite !assign_from_empty.
Qed.

(** What a flush leaves behind. *)
Lemma tick_fields (w : World) :
  _state (tick w).1 = _state (flushed w)
  ∧ heap (tick w).1 = heap (flushed w)
  ∧ _subscribers (tick w).1 = live w
  ∧ _stateChanges (tick w).1 = []
  ∧ _dirty (tick w).1 = false
  ∧ _immediateFlush (tick w).1 = _immediateFlush w
  ∧ next_meta (tick w).1 = next_meta w
  ∧ host (tick w).1 = host w
  ∧ now (tick w).1 = now w.
Proof.
  rewrite tick_eq, notify_eq.
  destruct (forEach_same_store (live (flushed w))
              (_state (flushed w)) (_state w) (pruned (flushed w)))
    as (-> & -> & -> & -> & -> & -> & -> & -> & ->).
  destruct (pruned_fields (flushed w)) as (-> & -> & -> & -> & -> & -> & -> & -> & _).
  rewrite pruned_subscribers, live_flushed.
  destruct (flushed_fields w) as (_ & _ & -> & -> & -> & -> & _ & _ & _ & -> & ->).
  done.
Qed.

Lemma tick_calls_prefix (w : World) :
  ∃ l, calls (tick w).1 = calls w ++ l
       ∧ l `prefix_of` notified (live w) (_state w) (_state (flushed w)) (flushed w).
Proof.
  rewrite tick_eq, notify_eq.
  destruct (forEach_calls_prefix (live (flushed w)) (_state (flushed w)) (_state w)
              (pruned (flushed w))) as (l & Hl & Hpre).
  exists l. rewrite Hl. destruct (pruned_fields (flushed w)) as (_&_&_&_&Hh&_&_&_&_&_&->).
  destruct (flushed_fields w) as (_&_&_&_&_&_&_&_&->&_).
  split; [done|]. rewrite live_flushed in Hpre.
  by rewrite (notified_heap _ _ _ (flushed w)) in Hpre.
Qed.

Lemma tick_calls (w : World) :
  no_throw →
  (tick w).2 = false
  ∧ calls (tick w).1
    = calls w ++ notified (live w) (_state w) (_state (flushed w)) (flushed w).
Proof.
  intros Hn. rewrite tick_eq, notify_eq.
  destruct (forEach_calls (live (flushed w)) (_state (flushed w)) (_state w)
              (pruned (flushed w)) Hn) as (Ht & Hc).
  split; [done|]. rewrite Hc.
  destruct (pruned_fields (flushed w)) as (_&_&_&_&Hh&_&_&_&_&_&->).
  destruct (flushed_fields w) as (_&_&_&_&_&_&_&_&->&_).
  rewrite live_flushed. by rewrite (notified_heap _ _ _ (flushed w)).
Qed.

(** *** Well-formed stores *)

Lemma find_subscriber_None (c : Callback) (w : World) :
  find_subscriber c w = None ↔ c ∉ subscriber <$> _subscribers w.
Proof.
  unfold find_subscriber. rewrite fmap_None, list_find_None, Forall_forall.
  split.
  - intros Hall Hin. apply list_elem_of_fmap in Hin as (ret & -> & Hin).
    by apply (Hall ret).
  - intros Hnin ret Hin Heq. apply Hnin. apply list_elem_of_fmap. by exists ret.
Qed.

Lemma find_subscriber_Some (c : Callback) (w : World) (ret : SubscriberMeta) :
  find_subscriber c w = Some ret → ret ∈ _subscribers w ∧ subscriber ret = c.
Proof.
  unfold find_subscriber. intros Hf.
  apply fmap_Some in Hf as ([i ret'] & Hf & ->).
  apply list_find_Some in Hf as (Hi & Hc & _). simpl.
  split; [by eapply list_elem_of_lookup_2|done].
Qed.

(** With distinct callbacks, [find] returns the one record of a callback. *)
Lemma find_subscriber_unique (w : World) (ret : SubscriberMeta) :
  NoDup (subscriber <$> _subscribers w) → ret ∈ _subscribers w →
  find_subscriber (subscriber ret) w = Some ret.
Proof.
  intros Hnd Hin. destruct (find_subscriber (subscriber ret) w) as [ret'|] eqn:Hf.
  - apply find_subscriber_Some in Hf as [Hin' Heq]. f_equal.
    apply list_elem_of_lookup in Hin as [i Hi]. apply list_elem_of_lookup in Hin' as [j Hj].
    assert (i = j) as ->.
    { eapply NoDup_lookup; [exact Hnd| |].
      - rewrite list_lookup_fmap, Hi. done.
      - rewrite list_lookup_fmap, Hj. simpl. by rewrite Heq. }
    congruence.
  - apply find_subscriber_None in Hf. exfalso. apply Hf.
    apply list_elem_of_fmap. by exists ret.
Qed.

Lemma subscribe_wf (c : Callback) (ks : option (list string)) (w : World) :
  (∀ p, c = WrapperCb p → p < length (promises w)) →
  wf w → wf (subscribe c ks w).
Proof.
  intros Hp Hw. unfold subscribe.
  destruct (find_subscriber c w) as [ret|] eqn:Hf; [done|].
  apply find_subscriber_None in Hf.
  set (ret := match ks with
              | Some (k :: ks') => mkMeta (next_meta w) c (Some (k :: ks'))
              | _ => mkMeta (next_meta w) c None
              end).
  assert (Hid : meta_id ret = next_meta w) by (subst ret; by destruct ks as [[|]|]).
  assert (Hsub : subscriber ret = c) by (subst ret; by destruct ks as [[|]|]).
  clearbody ret.
  destruct Hw as [Hst Hpa Hcb Hme Hfr Hre Hwr Hti]. constructor; simpl; try done.
  - rewrite fmap_app. apply NoDup_app. split_and!; [done| |].
    + intros x Hx Hx'. simpl in Hx'. rewrite Hsub in Hx'.
      apply list_elem_of_singleton in Hx'. by subst.
    + simpl. apply NoDup_singleton.
  - rewrite fmap_app. apply NoDup_app. split_and!; [done| |].
    + intros x Hx Hx'. simpl in Hx'. rewrite Hid in Hx'.
      apply list_elem_of_singleton in Hx'. subst.
      apply list_elem_of_fmap in Hx as (r & Hr & Hin). apply Hfr in Hin. lia.
    + simpl. apply NoDup_singleton.
  - intros r Hin. apply elem_of_app in Hin as [Hin|Hin].
    + apply Hfr in Hin. lia.
    + apply list_elem_of_singleton in Hin. subst. lia.
  - intros r Hin. apply elem_of_app. left. by apply Hre.
  - intros p Hin. rewrite fmap_app in Hin. apply elem_of_app in Hin as [Hin|Hin].
    + by apply Hwr.
    + simpl in Hin. rewrite Hsub in Hin. apply list_elem_of_singleton in Hin.
      by apply Hp.
Qed.

Lemma unsubscribe_wf (c : Callback) (w : World) : wf w → wf (unsubscribe c w).
Proof.
  intros Hw. unfold unsubscribe.
  destruct (find_subscriber c w) as [ret|] eqn:Hf; [|done].
  apply find_subscriber_Some in Hf as [Hin _].
  destruct Hw as [Hst Hpa Hcb Hme Hfr Hre Hwr Hti]. constructor; simpl; try done.
  intros r Hr. apply elem_of_app in Hr as [Hr|Hr]; [by apply Hre|].
  apply list_elem_of_singleton in Hr. by subst.
Qed.

Lemma settle_length (p : nat) (st : PromiseState) (w : World) :
  length (promises (settle p st w)) = length (promises w).
Proof.
  unfold settle. destruct (promises w !! p) as [[]|]; simpl; try done.
  apply length_insert.
Qed.

Lemma settle_wf (p : nat) (st : PromiseState) (w : World) : wf w → wf (settle p st w).
Proof.
  intros Hw. pose proof (settle_length p st w) as Hl.
  destruct (settle_same_store p st w) as (E1&E2&E3&E4&E5&E6&E7&E8&E9).
  destruct (settle_calls p st w) as (_ & Et & Er).
  destruct Hw as [Hst Hpa Hcb Hme Hfr Hre Hwr Hti].
  constructor; rewrite ?E1, ?E2, ?E5, ?E6, ?E7, ?Et, ?Er, ?Hl; done.
Qed.

Lemma clearTimeout_wf (p : nat) (w : World) : wf w → wf (clearTimeout p w).
Proof.
  intros [Hst Hpa Hcb Hme Hfr Hre Hwr Hti]. constructor; simpl; try done.
  intros t Ht. apply list_elem_of_filter in Ht as [_ Ht]. by apply Hti.
Qed.

Lemma set_calls_wf (l : list (Callback * Ref)) (w : World) : wf w → wf (set_calls l w).
Proof. intros [Hst Hpa Hcb Hme Hfr Hre Hwr Hti]. by constructor. Qed.

Lemma run_actions_wf (acts : list Action) (w : World) :
  wf w → wf (run_actions acts w).1.
Proof.
  revert w. induction acts as [|[n|] acts IH]; intros w Hw; simpl; [done| |done].
  by apply IH, unsubscribe_wf.
Qed.

Lemma invoke_wf (c : Callback) (s : Ref) (w : World) : wf w → wf (invoke c s w).1.
Proof.
  intros Hw. unfold StateStore.invoke. destruct c as [n|p].
  - by apply run_actions_wf, set_calls_wf.
  - simpl. by apply unsubscribe_wf, settle_wf, clearTimeout_wf, set_calls_wf.
Qed.

Lemma forEach_wf (subs : list SubscriberMeta) (s prev : Ref) (w : World) :
  wf w → wf (forEach subs s prev w).1.
Proof.
  apply (forEach_rel (λ w w', wf w → wf w')); [done|by eauto|].
  intros c w'. apply invoke_wf.
Qed.

Lemma not_removed_false (removed : list SubscriberMeta) (ret : SubscriberMeta) :
  ret ∈ removed → not_removed removed ret = false.
Proof.
  intros Hin. unfold not_removed. apply not_true_is_false. intros Hall.
  rewrite List.forallb_forall in Hall. apply list_elem_of_In in Hin.
  specialize (Hall ret Hin). rewrite Nat.eqb_refl in Hall. done.
Qed.

Lemma not_removed_true (removed : list SubscriberMeta) (ret : SubscriberMeta) :
  meta_id ret ∉ meta_id <$> removed → not_removed removed ret = true.
Proof.
  intros Hnin. unfold not_removed. apply List.forallb_forall. intros r Hr.
  apply negb_true_iff, Nat.eqb_neq. intros Heq. apply Hnin.
  apply list_elem_of_fmap. exists r. split; [done|by apply list_elem_of_In].
Qed.

Lemma live_sublist (w : World) : live w `sublist_of` _subscribers w.
Proof.
  unfold live. case_decide; [done|].
  induction (_subscribers w) as [|r l IH]; simpl; [done|].
  destruct (not_removed _ r); [by apply sublist_skip|by apply sublist_cons].
Qed.

Lemma pruned_wf (w : World) : wf w → wf (pruned w).
Proof.
  intros Hw. pose proof (live_sublist w) as Hsub.
  destruct (pruned_fields w) as (E1&E2&E3&E4&E5&E6&E7&E8&E9&E10&E11).
  destruct Hw as [Hst Hpa Hcb Hme Hfr Hre Hwr Hti].
  constructor; rewrite ?pruned_subscribers, ?pruned_removed, ?E1, ?E2, ?E5, ?E6, ?E9, ?E10;
    try done.
  - eapply sublist_NoDup; [exact Hcb|by apply fmap_sublist].
  - eapply sublist_NoDup; [exact Hme|by apply fmap_sublist].
  - intros r Hr. by apply Hfr, live_sub.
  - intros r Hr. by apply not_elem_of_nil in Hr.
  - intros p Hp. apply Hwr. eapply elem_of_sublist; [exact Hp|by apply fmap_sublist].
Qed.

Lemma flushed_wf (w : World) : wf w → wf (flushed w).
Proof.
  intros Hw. pose proof (flushed_state_fresh w) as [_ Hfresh].
  destruct (flushed_fields w) as (E1&E2&E3&E4&E5&E6&E7&E8&E9&E10&E11).
  destruct Hw as [Hst Hpa Hcb Hme Hfr Hre Hwr Hti].
  constructor; rewrite ?E1, ?E2, ?E4, ?E7, ?E8, ?E11; try done.
  intros r Hr. by apply not_elem_of_nil in Hr.
Qed.

Lemma tick_wf (w : World) : wf w → wf (tick w).1.
Proof.
  intros Hw. rewrite tick_eq, notify_eq. by apply forEach_wf, pruned_wf, flushed_wf.
Qed.

Lemma set__dirty_wf (b : bool) (w : World) : wf w → wf (set__dirty b w).
Proof. intros [Hst Hpa Hcb Hme Hfr Hre Hwr Hti]. by constructor. Qed.

Lemma set_host_wf (h : Host unit) (w : World) : wf w → wf (set_host h w).
Proof. intros [Hst Hpa Hcb Hme Hfr Hre Hwr Hti]. by constructor. Qed.

Lemma set_now_wf (t : nat) (w : World) : wf w → wf (set_now t w).
Proof. intros [Hst Hpa Hcb Hme Hfr Hre Hwr Hti]. by constructor. Qed.

Lemma alloc_wf (o : Obj) (w : World) : wf w → wf (alloc o w).2.
Proof.
  intros [Hst Hpa Hcb Hme Hfr Hre Hwr Hti]. constructor; simpl; try done.
  - rewrite length_app. lia.
  - intros r Hr. apply Hpa in Hr. rewrite length_app. lia.
Qed.

Lemma markDirty_wf (w : World) : wf w → wf (markDirty w).1.
Proof.
  intros Hw. unfold StateStore.markDirty. destruct (_dirty w); [done|].
  simpl. destruct (_immediateFlush w).
  - by apply tick_wf, set__dirty_wf.
  - simpl. by apply set_host_wf, set__dirty_wf.
Qed.

Lemma push_patch_wf (patch : Ref) (w : World) :
  patch < length (heap w) → wf w → wf (set__stateChanges (_stateChanges w ++ [patch]) w).
Proof.
  intros Hp [Hst Hpa Hcb Hme Hfr Hre Hwr Hti]. constructor; simpl; try done.
  intros r Hr. apply elem_of_app in Hr as [Hr|Hr]; [by apply Hpa|].
  apply list_elem_of_singleton in Hr. by subst.
Qed.

Lemma new_promise_wf (w : World) : wf w → wf (set_promises (promises w ++ [Pending]) w).
Proof.
  intros [Hst Hpa Hcb Hme Hfr Hre Hwr Hti]. constructor; simpl; try done.
  - intros p Hp. apply Hwr in Hp. rewrite length_app. lia.
  - intros t Ht. apply Hti in Ht. rewrite length_app. lia.
Qed.

Lemma setTimeout_wf (p timeout : nat) (w : World) :
  p < length (promises w) → wf w → wf (setTimeout p timeout w).
Proof.
  intros Hp [Hst Hpa Hcb Hme Hfr Hre Hwr Hti]. constructor; simpl; try done.
  intros t Ht. apply elem_of_app in Ht as [Ht|Ht]; [by apply Hti|].
  apply list_elem_of_singleton in Ht. by subst.
Qed.

Lemma subscribe_promises (c : Callback) (ks : option (list string)) (w : World) :
  promises (subscribe c ks w) = promises w ∧ timers (subscribe c ks w) = timers w
  ∧ heap (subscribe c ks w) = heap w ∧ now (subscribe c ks w) = now w
  ∧ calls (subscribe c ks w) = calls w ∧ _state (subscribe c ks w) = _state w
  ∧ _stateChanges (subscribe c ks w) = _stateChanges w
  ∧ _removedSubscribers (subscribe c ks w) = _removedSubscribers w
  ∧ _immediateFlush (subscribe c ks w) = _immediateFlush w
  ∧ _dirty (subscribe c ks w) = _dirty w ∧ host (subscribe c ks w) = host w.
Proof. unfold subscribe. by destruct (find_subscriber c w). Qed.

Lemma createSubscribeWrapper_wf (timeout p : nat) (w : World) :
  p < length (promises w) → wf w → wf (createSubscribeWrapper timeout p w).
Proof.
  intros Hp Hw. unfold createSubscribeWrapper. apply setTimeout_wf.
  - by destruct (subscribe_promises (WrapperCb p) None w) as (-> & _).
  - apply subscribe_wf; [|done]. intros p' [= <-]. done.
Qed.

Lemma setState_wf (patch : Ref) (sub : option Callback) (w : World) :
  patch < length (heap w) → (∀ p, sub ≠ Some (WrapperCb p)) →
  wf w → wf (setState patch sub w).1.
Proof.
  intros Hp Hsub Hw. unfold StateStore.setState.
  pose proof (markDirty_wf _ (push_patch_wf patch w Hp Hw)) as Hm.
  destruct (markDirty _) as [w1 threw]. simpl in Hm.
  destruct threw; [done|]. destruct sub as [c|]; simpl.
  - apply subscribe_wf; [|done]. intros p ->. by destruct (Hsub p).
  - apply createSubscribeWrapper_wf; [|by apply new_promise_wf].
    simpl. rewrite length_app. simpl. lia.
Qed.

Lemma dispose_wf (w : World) : wf w → wf (dispose w).
Proof.
  intros [Hst Hpa Hcb Hme Hfr Hre Hwr Hti]. unfold dispose. constructor; simpl.
  - rewrite length_app. simpl. lia.
  - intros r Hr. by apply not_elem_of_nil in Hr.
  - apply NoDup_nil_2.
  - apply NoDup_nil_2.
  - intros r Hr. by apply not_elem_of_nil in Hr.
  - intros r Hr. by apply not_elem_of_nil in Hr.
  - intros r Hr. by apply not_elem_of_nil in Hr.
  - done.
Qed.

Lemma timeout_fires_wf (p : nat) (w : World) : wf w → wf (timeout_fires p w).
Proof. intros Hw. unfold timeout_fires. by apply settle_wf, clearTimeout_wf. Qed.

Lemma advance_wf (dt : nat) (w : World) : wf w → wf (advance dt w).
Proof.
  intros Hw. unfold advance.
  generalize (List.filter (λ t : nat * nat, t.2 <=? now (set_now (now w + dt) w))
                (timers (set_now (now w + dt) w))).
  intros due. apply set_now_wf with (t := now w + dt) in Hw.
  revert Hw. generalize (set_now (now w + dt) w). clear w.
  induction due as [|t due IH]; intros w Hw; simpl; [done|].
  by apply IH, timeout_fires_wf.
Qed.

Lemma step_wf (w : World) (e : Event Value) : wf w → wf (step w e).
Proof.
  intros Hw. destruct e as [n ks|n|patch sub| |c|dt]; simpl.
  - apply subscribe_wf; [|done]. intros p [=].
  - by apply unsubscribe_wf.
  - apply setState_wf.
    + simpl. rewrite length_app. simpl. lia.
    + intros p. by destruct sub.
    + by apply (alloc_wf patch w).
  - by apply dispose_wf.
  - destruct (fire c (host w)) as [[[] h]|]; [|done].
    by apply tick_wf, set_host_wf.
  - by apply advance_wf.
Qed.

Lemma run_wf (es : list (Event Value)) (w : World) : wf w → wf (run w es).
Proof.
  revert w. induction es as [|e es IH]; intros w Hw; [done|].
  unfold StateStore.run in *. simpl. by apply IH, step_wf.
Qed.

Lemma createState_wf (initialState : Ref) (immediateFlush : bool)
    (objects : list Obj) (h : Host unit) :
  initialState < length objects →
  wf (createState undefined loose_neq user_code initialState immediateFlush objects h).1.
Proof.
  intros Hi. unfold createState. apply markDirty_wf.
  constructor; simpl; try done; try apply NoDup_nil_2;
    intros r Hr; by apply not_elem_of_nil in Hr.
Qed.

(** *** Patches queued in deferred mode *)

Lemma setState_deferred (patch : Ref) (sub : option Callback) (w : World) :
  _immediateFlush w = false →
  _state (setState patch sub w).1 = _state w
  ∧ heap (setState patch sub w).1 = heap w
  ∧ _stateChanges (setState patch sub w).1 = _stateChanges w ++ [patch]
  ∧ _immediateFlush (setState patch sub w).1 = false.
Proof.
  intros Him. unfold StateStore.setState, StateStore.markDirty. simpl.
  destruct (_dirty w); simpl; rewrite ?Him; simpl;
    destruct sub as [c|]; simpl; unfold createSubscribeWrapper; simpl;
    match goal with
    | |- context [subscribe ?c ?ks ?w0] =>
        destruct (subscribe_promises c ks w0)
          as (_ & _ & -> & _ & _ & -> & -> & _ & -> & _)
    end; done.
Qed.

Lemma run_cons (e : Event Value) (es : list (Event Value)) (w : World) :
  run w (e :: es) = run (step w e) es.
Proof. reflexivity. Qed.

Lemma step_SetState (o : Obj) (sub : option nat) (w : World) :
  step w (SetState o sub)
  = (setState (length (heap w)) (UserCb <$> sub) (set_heap (heap w ++ [o]) w)).1.
Proof. reflexivity. Qed.

Lemma run_queue_all (patches : list (Obj * option nat)) (w : World) :
  _immediateFlush w = false →
  _state (run w (queue_all patches)) = _state w
  ∧ heap (run w (queue_all patches)) = heap w ++ patches.*1
  ∧ _stateChanges (run w (queue_all patches))
    = _stateChanges w ++ seq (length (heap w)) (length patches)
  ∧ _immediateFlush (run w (queue_all patches)) = false.
Proof.
  revert w. induction patches as [|[o sub] patches IH]; intros w Him.
  - simpl. by rewrite !app_nil_r.
  - unfold queue_all. rewrite fmap_cons, run_cons, step_SetState.
    fold (queue_all patches). cbn [fst snd].
    destruct (setState_deferred (length (heap w)) (UserCb <$> sub)
                (set_heap (heap w ++ [o]) w) Him) as (Es & Eh & Ec & Ei).
    destruct (IH _ Ei) as (-> & -> & -> & ->).
    rewrite Es, Eh, Ec. cbn [_state heap _stateChanges set_heap fst].
    rewrite length_app. cbn [length]. rewrite fmap_cons. cbn [fst seq].
    rewrite <- !app_assoc. cbn [app]. by rewrite Nat.add_1_r.
Qed.

Lemma deref_app_l (w w' : World) (r : Ref) (l : list Obj) :
  heap w' = heap w ++ l → r < length (heap w) → deref w' r = deref w r.
Proof. intros Hh Hr. unfold deref. by rewrite Hh, lookup_app_l. Qed.

Lemma deref_seq (w w' : World) (l : list Obj) :
  heap w' = heap w ++ l → deref w' <$> seq (length (heap w)) (length l) = l.
Proof.
  intros Hh. apply list_eq. intros i. rewrite list_lookup_fmap.
  destruct (decide (i < length l)) as [Hi|Hi].
  - rewrite lookup_seq_lt by done. simpl. unfold deref. rewrite Hh.
    rewrite lookup_app_r by lia.
    replace (length (heap w) + i - length (heap w)) with i by lia.
    destruct (lookup_lt_is_Some_2 l i Hi) as [o Ho]. by rewrite Ho.
  - rewrite lookup_seq_ge by lia. simpl. by rewrite lookup_ge_None_2 by lia.
Qed.

Lemma deref_same_heap (w w' : World) (r : Ref) :
  heap w' = heap w → deref w' r = deref w r.
Proof. intros Hh. unfold deref. by rewrite Hh. Qed.

Lemma tick_deref_state (w : World) :
  deref (tick w).1 (_state (tick w).1)
  = foldl assign_from (deref w (_state w)) (deref w <$> _stateChanges w).
Proof.
  destruct (tick_fields w) as (-> & Hh & _).
  rewrite (deref_same_heap (flushed w)) by done. apply flushed_deref_state.
Qed.

Lemma NoDup_fmap_eq {A B : Type} (f : A → B) (l : list A) (x y : A) :
  NoDup (f <$> l) → x ∈ l → y ∈ l → f x = f y → x = y.
Proof.
  intros Hnd Hx Hy Hf.
  apply list_elem_of_lookup in Hx as [i Hi]. apply list_elem_of_lookup in Hy as [j Hj].
  assert (i = j) as ->.
  { eapply (NoDup_lookup _ _ _ (f x)); [exact Hnd| |].
    - by rewrite list_lookup_fmap, Hi.
    - rewrite list_lookup_fmap, Hj. simpl. by rewrite Hf. }
  congruence.
Qed.

Lemma invoked_by_tick_eq (w : World) :
  no_throw →
  invoked_by_tick w
  = subscriber <$> List.filter (gate (_state w) (_state (flushed w)) (flushed w)) (live w).
Proof.
  intros Hn. unfold invoked_by_tick. destruct (tick_calls w Hn) as [_ ->].
  rewrite drop_app_length. unfold notified. rewrite <- list_fmap_compose.
  by apply list_fmap_ext.
Qed.

Lemma live_elem (w : World) (ret : SubscriberMeta) :
  wf w → ret ∈ _subscribers w → ret ∉ _removedSubscribers w → ret ∈ live w.
Proof.
  intros Hw Hin Hnr. unfold live. case_decide; [done|].
  apply list_elem_of_In, List.filter_In. split; [by apply list_elem_of_In|].
  apply not_removed_true. intros Hm.
  apply list_elem_of_fmap in Hm as (r & Hid & Hr). apply Hnr.
  replace ret with r; [done|].
  eapply (NoDup_fmap_eq meta_id); [apply (wf_metas w Hw)|by apply (wf_removed w Hw)|done|done].
Qed.

Lemma live_removed (w : World) (ret : SubscriberMeta) :
  ret ∈ _removedSubscribers w → ret ∉ live w.
Proof.
  intros Hr. unfold live. case_decide as Hl.
  - destruct (_removedSubscribers w); [by apply not_elem_of_nil in Hr|done].
  - intros Hin. apply list_elem_of_In, List.filter_In in Hin as [_ Hnot].
    by rewrite not_removed_false in Hnot.
Qed.

(** *** Unsubscribing *)

Lemma unsubscribe_effect (c : Callback) (w : World) :
  _subscribers (unsubscribe c w) = _subscribers w
  ∧ _removedSubscribers (unsubscribe c w)
    = _removedSubscribers w ++ option_list (find_subscriber c w).
Proof.
  unfold unsubscribe. destruct (find_subscriber c w); simpl; [done|].
  by rewrite app_nil_r.
Qed.

Lemma find_subscriber_same (c : Callback) (w w' : World) :
  _subscribers w' = _subscribers w → find_subscriber c w' = find_subscriber c w.
Proof. intros Hs. unfold find_subscriber. by rewrite Hs. Qed.

Lemma unsubscribe_removed_grows (c : Callback) (w : World) :
  removed_grows w (unsubscribe c w).
Proof.
  intros ret Hr. destruct (unsubscribe_effect c w) as [_ ->].
  apply elem_of_app. by left.
Qed.

Lemma run_actions_removed_grows (acts : list Action) (w : World) :
  removed_grows w (run_actions acts w).1.
Proof.
  revert w. induction acts as [|[n|] acts IH]; intros w ret Hr; simpl; [done| |done].
  by apply IH, unsubscribe_removed_grows.
Qed.

Lemma invoke_removed_grows (c : Callback) (s : Ref) (w : World) :
  removed_grows w (invoke c s w).1.
Proof.
  intros ret Hr. unfold StateStore.invoke. destruct c as [n|p].
  - by apply run_actions_removed_grows.
  - simpl. apply unsubscribe_removed_grows.
    by destruct (settle_calls p (Fulfilled s)
      (clearTimeout p (set_calls (calls w ++ [(WrapperCb p, s)]) w))) as (_ & _ & ->).
Qed.

Lemma forEach_removed_grows (subs : list SubscriberMeta) (s prev : Ref) (w : World) :
  removed_grows w (forEach subs s prev w).1.
Proof.
  apply (forEach_rel removed_grows);
    [by intros w' ret Hr| |intros; apply invoke_removed_grows].
  intros w1 w2 w3 H12 H23 ret Hr. by apply H23, H12.
Qed.

(** A callback that runs to its end has marked everything it unsubscribed. *)
Lemma run_actions_marks (acts : list Action) (w : World) (d : nat) (ret : SubscriberMeta) :
  Throw ∉ acts → CallUnsubscribe d ∈ acts →
  find_subscriber (UserCb d) w = Some ret →
  ret ∈ _removedSubscribers (run_actions acts w).1.
Proof.
  revert w. induction acts as [|[n|] acts IH]; intros w Hn Hd Hf; simpl.
  - by apply not_elem_of_nil in Hd.
  - apply not_elem_of_cons in Hn as [_ Hn].
    apply elem_of_cons in Hd as [[= ->]|Hd].
    + apply run_actions_removed_grows.
      destruct (unsubscribe_effect (UserCb n) w) as [_ ->]. rewrite Hf.
      apply elem_of_app. right. apply list_elem_of_here.
    + apply IH; [done|done|].
      rewrite (find_subscriber_same _ w); [done|].
      by destruct (unsubscribe_effect (UserCb n) w) as [-> _].
  - exfalso. apply Hn, list_elem_of_here.
Qed.

Lemma invoke_subscribers (c : Callback) (s : Ref) (w : World) :
  _subscribers (invoke c s w).1 = _subscribers w.
Proof. by destruct (invoke_same_store c s w) as (_&_&_&_&?&_). Qed.

Lemma forEach_marks (subs : list SubscriberMeta) (s prev : Ref) (w : World)
    (visited : SubscriberMeta) (n d : nat) (ret : SubscriberMeta) :
  no_throw →
  visited ∈ subs → gate prev s w visited = true → subscriber visited = UserCb n →
  CallUnsubscribe d ∈ user_code n →
  find_subscriber (UserCb d) w = Some ret →
  ret ∈ _removedSubscribers (forEach subs s prev w).1.
Proof.
  intros Hn. revert w. induction subs as [|x subs IH]; intros w Hv Hg Hs Hd Hf.
  - by apply not_elem_of_nil in Hv.
  - rewrite forEach_cons. apply elem_of_cons in Hv as [->|Hv].
    + rewrite Hg, invoke_no_throw by done.
      apply forEach_removed_grows. unfold StateStore.invoke. rewrite Hs.
      apply (run_actions_marks _ _ d); [apply Hn|done|].
      by rewrite (find_subscriber_same _ w).
    + destruct (gate prev s w x) eqn:Hgx; [|by apply IH].
      rewrite invoke_no_throw by done. apply IH; try done.
      * by rewrite (gate_heap _ _ w) by apply invoke_heap.
      * rewrite (find_subscriber_same _ w); [done|]. apply invoke_subscribers.
Qed.

(** A flush calls registered callbacks only, whatever they do. *)
Lemma invoked_by_tick_live (w : World) (c : Callback) :
  c ∈ invoked_by_tick w → c ∈ subscriber <$> live w.
Proof.
  unfold invoked_by_tick. destruct (tick_calls_prefix w) as (l & -> & Hpre).
  rewrite drop_app_length. intros Hc.
  apply list_elem_of_fmap in Hc as ([c' s] & -> & Hin). simpl.
  destruct Hpre as [k Hk].
  assert (Hin' : (c', s) ∈ notified (live w) (_state w) (_state (flushed w)) (flushed w)).
  { rewrite Hk. apply elem_of_app. by left. }
  unfold notified in Hin'.
  apply list_elem_of_fmap in Hin' as (ret & [= -> ->] & Hr).
  apply list_elem_of_fmap. exists ret. split; [done|].
  apply list_elem_of_In, List.filter_In in Hr as [Hr _]. by apply list_elem_of_In.
Qed.

Lemma invoked_by_tick_NoDup (w : World) : wf w → no_throw → NoDup (invoked_by_tick w).
Proof.
  intros Hw Hn. rewrite invoked_by_tick_eq by done.
  eapply sublist_NoDup; [apply (wf_callbacks w Hw)|].
  apply fmap_sublist. etrans; [|apply live_sublist].
  induction (live w) as [|r l IH]; simpl; [done|].
  destruct (gate _ _ _ r); [by apply sublist_skip|by apply sublist_cons].
Qed.

(** What was unsubscribed inside one flush is pruned by the next. *)
Lemma unsubscribed_in_tick (w : World) (n d : nat) :
  wf w → no_throw →
  UserCb n ∈ invoked_by_tick w → CallUnsubscribe d ∈ user_code n →
  UserCb d ∉ subscriber <$> live (tick w).1.
Proof.
  intros Hw Hn Hinv Hd Hlive.
  rewrite invoked_by_tick_eq in Hinv by done.
  apply list_elem_of_fmap in Hinv as (visited & Hsub & Hv).
  apply list_elem_of_In, List.filter_In in Hv as [Hv Hg]. apply list_elem_of_In in Hv.
  pose proof (tick_wf w Hw) as Hw1.
  apply list_elem_of_fmap in Hlive as (ret & Hret & Hin).
  pose proof (live_sub _ _ Hin) as Hin1.
  assert (Hf : find_subscriber (UserCb d) (tick w).1 = Some ret).
  { rewrite Hret. apply find_subscriber_unique; [apply (wf_callbacks _ Hw1)|done]. }
  eapply live_removed; [|exact Hin].
  rewrite tick_eq, notify_eq in Hf |- *.
  apply (forEach_marks _ _ _ _ visited n d ret Hn); try done.
  - by rewrite live_flushed.
  - rewrite (gate_heap _ _ (flushed w)); [exact Hg|].
    by destruct (pruned_fields (flushed w)) as (_&_&_&_&?&_).
  - rewrite <- Hf. symmetry. apply find_subscriber_same.
    by destruct (forEach_same_store (live (flushed w)) (_state (flushed w)) (_state w)
                   (pruned (flushed w))) as (_&_&_&_&?&_).
Qed.

(** *** A callback that is not registered is not called *)

Lemma filter_none {A : Type} (P : A → Prop) `{∀ x, Decision (P x)} (l : list A) :
  (∀ x, x ∈ l → ¬ P x) → filter P l = [].
Proof.
  induction l as [|x l IH]; intros Hall; [done|].
  rewrite filter_cons_False by (apply Hall, list_elem_of_here).
  apply IH. intros y Hy. apply Hall. by apply list_elem_of_further.
Qed.

Lemma tick_not_live (c : Callback) (w : World) :
  c ∉ subscriber <$> live w →
  calls_of c (tick w).1 = calls_of c w
  ∧ c ∉ subscriber <$> _subscribers (tick w).1.
Proof.
  intros Hlive. split.
  - unfold calls_of.
    pose proof (invoked_by_tick_live w) as Hinv. unfold invoked_by_tick in Hinv.
    destruct (tick_calls_prefix w) as (l & Hl & _). rewrite Hl in Hinv |- *.
    rewrite drop_app_length in Hinv. rewrite filter_app.
    rewrite (filter_none _ l); [by rewrite app_nil_r|].
    intros [c' s] Hin Heq. simpl in Heq. subst c'. apply Hlive, Hinv.
    apply list_elem_of_fmap. by exists (c, s).
  - by destruct (tick_fields w) as (_ & _ & -> & _).
Qed.

Lemma tick_not_registered (c : Callback) (w : World) :
  c ∉ subscriber <$> _subscribers w →
  calls_of c (tick w).1 = calls_of c w
  ∧ c ∉ subscriber <$> _subscribers (tick w).1.
Proof.
  intros Hc. apply tick_not_live. intros Hin. apply Hc.
  eapply elem_of_sublist; [exact Hin|]. apply fmap_sublist, live_sublist.
Qed.

Lemma subscribe_subscribers (c' : Callback) (ks : option (list string)) (w : World)
    (c : Callback) :
  c ∈ subscriber <$> _subscribers (subscribe c' ks w) →
  c ∈ subscriber <$> _subscribers w ∨ c = c'.
Proof.
  unfold subscribe. destruct (find_subscriber c' w); [by left|]. simpl.
  rewrite fmap_app, elem_of_app. intros [Hin|Hin]; [by left|right].
  apply list_elem_of_singleton in Hin. by destruct ks as [[|]|].
Qed.

Lemma timeout_fires_fields (p : nat) (w : World) :
  same_store w (timeout_fires p w)
  ∧ _removedSubscribers (timeout_fires p w) = _removedSubscribers w
  ∧ calls (timeout_fires p w) = calls w
  ∧ length (promises (timeout_fires p w)) = length (promises w).
Proof.
  unfold timeout_fires. split_and!.
  - eapply same_store_trans; [|apply settle_same_store]. by repeat split.
  - by destruct (settle_calls p (Rejected "state not update") (clearTimeout p w))
      as (_ & _ & ->).
  - by destruct (settle_calls p (Rejected "state not update") (clearTimeout p w))
      as (-> & _).
  - by rewrite settle_length.
Qed.

Lemma timeouts_fields (due : list (nat * nat)) (w : World) :
  same_store w (foldl (λ w t, timeout_fires t.1 w) w due)
  ∧ _removedSubscribers (foldl (λ w t, timeout_fires t.1 w) w due) = _removedSubscribers w
  ∧ calls (foldl (λ w t, timeout_fires t.1 w) w due) = calls w
  ∧ length (promises (foldl (λ w t, timeout_fires t.1 w) w due)) = length (promises w).
Proof.
  revert w. induction due as [|t due IH]; intros w; simpl.
  - split_and!; [apply same_store_refl|done..].
  - destruct (IH (timeout_fires t.1 w)) as (Hs & -> & -> & ->).
    destruct (timeout_fires_fields t.1 w) as (Hs' & -> & -> & ->).
    split_and!; [by eapply same_store_trans|done..].
Qed.

(** Time passing reaches the clock, the timers and the promises only. *)
Lemma advance_fields (dt : nat) (w : World) :
  _state (advance dt w) = _state w ∧ _stateChanges (advance dt w) = _stateChanges w
  ∧ _dirty (advance dt w) = _dirty w ∧ _immediateFlush (advance dt w) = _immediateFlush w
  ∧ _subscribers (advance dt w) = _subscribers w
  ∧ _removedSubscribers (advance dt w) = _removedSubscribers w
  ∧ heap (advance dt w) = heap w ∧ next_meta (advance dt w) = next_meta w
  ∧ host (advance dt w) = host w ∧ now (advance dt w) = now w + dt
  ∧ calls (advance dt w) = calls w
  ∧ length (promises (advance dt w)) = length (promises w).
Proof.
  unfold advance.
  destruct (timeouts_fields
              (List.filter (λ t : nat * nat, t.2 <=? now (set_now (now w + dt) w))
                 (timers (set_now (now w + dt) w)))
              (set_now (now w + dt) w))
    as ((-> & -> & -> & -> & -> & -> & -> & -> & ->) & -> & -> & ->).
  done.
Qed.

Lemma markDirty_not_registered (c : Callback) (w : World) :
  c ∉ subscriber <$> _subscribers w →
  calls_of c (markDirty w).1 = calls_of c w
  ∧ c ∉ subscriber <$> _subscribers (markDirty w).1.
Proof.
  intros Hc. unfold StateStore.markDirty. destruct (_dirty w); [done|]. simpl.
  destruct (_immediateFlush w); [|done].
  by apply (tick_not_registered c (set__dirty true w)).
Qed.

Lemma step_not_registered (n : nat) (e : Event Value) (w : World) :
  subscribes n e = false →
  UserCb n ∉ subscriber <$> _subscribers w →
  calls_of (UserCb n) (step w e) = calls_of (UserCb n) w
  ∧ UserCb n ∉ subscriber <$> _subscribers (step w e).
Proof.
  intros He Hc. destruct e as [m ks|m|patch sub| |h|dt]; simpl in *.
  - apply bool_decide_eq_false in He. split.
    + unfold calls_of. by destruct (subscribe_promises (UserCb m) ks w) as (_&_&_&_&->&_).
    + intros Hin. apply subscribe_subscribers in Hin as [Hin|[= ->]]; done.
  - destruct (unsubscribe_effect (UserCb m) w) as [-> _]. split; [|done].
    unfold calls_of. by destruct (unsubscribe_fields (UserCb m) w) as (-> & _).
  - unfold StateStore.setState.
    set (w0 := set__stateChanges _ _).
    assert (Hc0 : UserCb n ∉ subscriber <$> _subscribers w0) by done.
    destruct (markDirty_not_registered _ w0 Hc0) as [Hcalls Hsubs].
    change (calls_of (UserCb n) w0) with (calls_of (UserCb n) w) in Hcalls.
    destruct (markDirty w0) as [w1 threw]. simpl in Hcalls, Hsubs.
    destruct threw; [done|].
    destruct sub as [m|]; simpl.
    + apply bool_decide_eq_false in He. split.
      * unfold calls_of in *.
        by destruct (subscribe_promises (UserCb m) None w1) as (_&_&_&_&->&_).
      * intros Hin. apply subscribe_subscribers in Hin as [Hin|[= ->]]; done.
    + unfold createSubscribeWrapper. simpl. split.
      * unfold calls_of in *. simpl.
        by destruct (subscribe_promises (WrapperCb (length (promises w1))) None
                       (set_promises (promises w1 ++ [Pending]) w1)) as (_&_&_&_&->&_).
      * intros Hin. apply subscribe_subscribers in Hin as [Hin|[=]]; done.
  - split; [done|]. apply not_elem_of_nil.
  - destruct (fire h (host w)) as [[[] h']|]; [|done].
    by apply (tick_not_registered (UserCb n) (set_host h' w)).
  - destruct (advance_fields dt w) as (_&_&_&_&->&_&_&_&_&_&Hcalls&_).
    unfold calls_of. by rewrite Hcalls.
Qed.

Lemma run_not_registered (n : nat) (es : list (Event Value)) (w : World) :
  forallb (λ e, negb (subscribes n e)) es = true →
  UserCb n ∉ subscriber <$> _subscribers w →
  calls_of (UserCb n) (run w es) = calls_of (UserCb n) w.
Proof.
  revert w. induction es as [|e es IH]; intros w Hes Hc; [done|].
  simpl in Hes. apply andb_true_iff in Hes as [He Hes].
  apply negb_true_iff in He. rewrite run_cons.
  destruct (step_not_registered n e w He Hc) as [<- Hc']. by apply IH.
Qed.

(** *** Promises *)

Lemma settle_lookup_other (p' p : nat) (st : PromiseState) (w : World) :
  p' ≠ p → promises (settle p' st w) !! p = promises w !! p.
Proof.
  intros Hne. unfold settle. destruct (promises w !! p') as [[]|]; simpl; try done.
  by rewrite list_lookup_insert_ne.
Qed.

Lemma settle_lookup_pending (p : nat) (st : PromiseState) (w : World) :
  promises w !! p = Some Pending → promises (settle p st w) !! p = Some st.
Proof.
  intros Hp. unfold settle. rewrite Hp. simpl.
  apply list_lookup_insert_eq. by eapply lookup_lt_Some.
Qed.

Lemma settle_lookup_final (p' p : nat) (st x : PromiseState) (w : World) :
  promises w !! p = Some x → x ≠ Pending → promises (settle p' st w) !! p = Some x.
Proof.
  intros Hp Hx. destruct (decide (p' = p)) as [->|Hne].
  - unfold settle. rewrite Hp. by destruct x.
  - by rewrite settle_lookup_other.
Qed.

Lemma settle_lookup_cases (p' p : nat) (st : PromiseState) (w : World) :
  promises (settle p' st w) !! p = promises w !! p
  ∨ promises (settle p' st w) !! p = Some st.
Proof.
  destruct (decide (p' = p)) as [->|Hne]; [|left; by apply settle_lookup_other].
  destruct (promises w !! p) as [[]|] eqn:Hp.
  - right. by apply settle_lookup_pending.
  - left. unfold settle. by rewrite Hp.
  - left. unfold settle. by rewrite Hp.
  - left. unfold settle. by rewrite Hp.
Qed.

Lemma invoke_lookup_other (c : Callback) (s : Ref) (w : World) (p : nat) :
  c ≠ WrapperCb p → promises (invoke c s w).1 !! p = promises w !! p.
Proof.
  intros Hc. unfold StateStore.invoke. destruct c as [n|p'].
  - by destruct (run_actions_fields (user_code n)
                   (set_calls (calls w ++ [(UserCb n, s)]) w)) as (_ & -> & _).
  - simpl. destruct (unsubscribe_fields (WrapperCb p')
      (settle p' (Fulfilled s) (clearTimeout p' (set_calls (calls w ++ [(WrapperCb p', s)]) w))))
      as (_ & _ & ->).
    rewrite settle_lookup_other; [done|]. intros ->. by apply Hc.
Qed.

Lemma invoke_lookup_resolve (s : Ref) (w : World) (p : nat) :
  promises w !! p = Some Pending →
  promises (invoke (WrapperCb p) s w).1 !! p = Some (Fulfilled s).
Proof.
  intros Hp. unfold StateStore.invoke. simpl.
  destruct (unsubscribe_fields (WrapperCb p)
      (settle p (Fulfilled s) (clearTimeout p (set_calls (calls w ++ [(WrapperCb p, s)]) w))))
      as (_ & _ & ->).
  by apply settle_lookup_pending.
Qed.

Lemma invoke_lookup_final (c : Callback) (s : Ref) (w : World) (p : nat)
    (x : PromiseState) :
  promises w !! p = Some x → x ≠ Pending → promises (invoke c s w).1 !! p = Some x.
Proof.
  intros Hp Hx. unfold StateStore.invoke. destruct c as [n|p'].
  - by destruct (run_actions_fields (user_code n)
                   (set_calls (calls w ++ [(UserCb n, s)]) w)) as (_ & -> & _).
  - simpl. destruct (unsubscribe_fields (WrapperCb p')
      (settle p' (Fulfilled s) (clearTimeout p' (set_calls (calls w ++ [(WrapperCb p', s)]) w))))
      as (_ & _ & ->).
    by apply settle_lookup_final.
Qed.

Lemma invoke_promises_length (c : Callback) (s : Ref) (w : World) :
  length (promises (invoke c s w).1) = length (promises w).
Proof.
  unfold StateStore.invoke. destruct c as [n|p'].
  - by destruct (run_actions_fields (user_code n)
                   (set_calls (calls w ++ [(UserCb n, s)]) w)) as (_ & -> & _).
  - simpl. destruct (unsubscribe_fields (WrapperCb p')
      (settle p' (Fulfilled s) (clearTimeout p' (set_calls (calls w ++ [(WrapperCb p', s)]) w))))
      as (_ & _ & ->).
    by rewrite settle_length.
Qed.

Lemma forEach_lookup_final (subs : list SubscriberMeta) (s prev : Ref) (w : World)
    (p : nat) (x : PromiseState) :
  promises w !! p = Some x → x ≠ Pending →
  promises (forEach subs s prev w).1 !! p = Some x.
Proof.
  intros Hp Hx. revert Hp.
  apply (forEach_rel (λ w w', promises w !! p = Some x → promises w' !! p = Some x));
    [done|by eauto|].
  intros c w' Hp. by apply invoke_lookup_final.
Qed.

Lemma forEach_promises_length (subs : list SubscriberMeta) (s prev : Ref) (w : World) :
  length (promises (forEach subs s prev w).1) = length (promises w).
Proof.
  apply (forEach_rel (λ w w', length (promises w') = length (promises w)));
    [done|congruence|].
  intros c w'. apply invoke_promises_length.
Qed.

(** A pass that reaches the wrapper of a pending promise fulfils it with
    the state the pass notifies. *)
Lemma forEach_resolves (subs : list SubscriberMeta) (s prev : Ref) (w : World)
    (p : nat) (ret : SubscriberMeta) :
  no_throw →
  promises w !! p = Some Pending →
  ret ∈ subs → gate prev s w ret = true → subscriber ret = WrapperCb p →
  promises (forEach subs s prev w).1 !! p = Some (Fulfilled s).
Proof.
  intros Hn. revert w. induction subs as [|x subs IH]; intros w Hp Hin Hg Hs.
  - by apply not_elem_of_nil in Hin.
  - rewrite forEach_cons. destruct (gate prev s w x) eqn:Hgx.
    + rewrite invoke_no_throw by done.
      destruct (decide (subscriber x = WrapperCb p)) as [Hx|Hx].
      * apply forEach_lookup_final; [|done]. rewrite Hx. by apply invoke_lookup_resolve.
      * apply elem_of_cons in Hin as [->|Hin]; [done|].
        apply IH; try done.
        -- by rewrite invoke_lookup_other.
        -- by rewrite (gate_heap _ _ w) by apply invoke_heap.
    + apply elem_of_cons in Hin as [->|Hin]; [congruence|]. by apply IH.
Qed.

Lemma tick_promises_length (w : World) :
  length (promises (tick w).1) = length (promises w).
Proof.
  rewrite tick_eq, notify_eq, forEach_promises_length.
  destruct (pruned_fields (flushed w)) as (_&_&_&_&_&_&_&_&_&->&_).
  by destruct (flushed_fields w) as (_&_&_&_&_&_&_&->&_).
Qed.

Lemma tick_lookup_final (w : World) (p : nat) (x : PromiseState) :
  promises w !! p = Some x → x ≠ Pending → promises (tick w).1 !! p = Some x.
Proof.
  intros Hp Hx. rewrite tick_eq, notify_eq. apply forEach_lookup_final; [|done].
  destruct (pruned_fields (flushed w)) as (_&_&_&_&_&_&_&_&_&->&_).
  by destruct (flushed_fields w) as (_&_&_&_&_&_&_&->&_).
Qed.

(** A flush fulfils the pending promise of a registered wrapper with the
    state it produces. *)
Lemma tick_resolves (w : World) (p : nat) (ret : SubscriberMeta) :
  wf w → no_throw →
  promises w !! p = Some Pending →
  ret ∈ _subscribers w → ret ∉ _removedSubscribers w →
  subscriber ret = WrapperCb p → keys ret = None →
  promises (tick w).1 !! p = Some (Fulfilled (_state (tick w).1)).
Proof.
  intros Hw Hn Hp Hin Hnr Hs Hk.
  destruct (tick_fields w) as (-> & _).
  rewrite tick_eq, notify_eq.
  apply (forEach_resolves _ _ _ _ p ret); try done.
  - destruct (pruned_fields (flushed w)) as (_&_&_&_&_&_&_&_&_&->&_).
    by destruct (flushed_fields w) as (_&_&_&_&_&_&_&->&_).
  - rewrite live_flushed. by apply live_elem.
  - unfold gate. by rewrite Hk.
Qed.

(** What [markDirty] does to the clock, the timers and the promises. *)
Lemma markDirty_env (w : World) :
  now (markDirty w).1 = now w
  ∧ length (promises (markDirty w).1) = length (promises w)
  ∧ (∀ p x, promises w !! p = Some x → x ≠ Pending →
            promises (markDirty w).1 !! p = Some x)
  ∧ (no_throw → (markDirty w).2 = false).
Proof.
  unfold StateStore.markDirty. destruct (_dirty w); [done|]. simpl.
  destruct (_immediateFlush w); [|done].
  destruct (tick_fields (set__dirty true w)) as (_&_&_&_&_&_&_&_&->).
  rewrite tick_promises_length. split_and!; try done.
  - intros p x Hp Hx. by apply tick_lookup_final.
  - intros Hn. by destruct (tick_calls (set__dirty true w) Hn).
Qed.

Lemma subscribe_new (c : Callback) (ks : option (list string)) (w : World) :
  c ∉ subscriber <$> _subscribers w →
  ∃ ret, _subscribers (subscribe c ks w) = _subscribers w ++ [ret]
         ∧ subscriber ret = c ∧ meta_id ret = next_meta w
         ∧ keys ret = match ks with Some (k :: ks') => Some (k :: ks') | _ => None end.
Proof.
  intros Hc. apply find_subscriber_None in Hc. unfold subscribe. rewrite Hc.
  destruct ks as [[|k ks']|]; eexists; simpl; split_and!; done.
Qed.

(** The promise form of [setState], when the flush it may run does not
    throw: promise [p] is new and pending, its wrapper is registered without
    keys and is not marked for removal, and its one timer is due 200 ms
    from now. *)
Lemma setState_promise (patch : Ref) (w : World) :
  wf w → no_throw → patch < length (heap w) →
  let p := length (promises w) in
  let w1 := (setState patch None w).1 in
  (setState patch None w).2 = ReturnedPromise p
  ∧ wf w1
  ∧ promises w1 !! p = Some Pending
  ∧ now w1 = now w
  ∧ (∀ t, t ∈ timers w1 → t.1 = p → t.2 = now w + 200)
  ∧ (p, now w + 200) ∈ timers w1
  ∧ ∃ ret, ret ∈ _subscribers w1 ∧ (ret ∉ _removedSubscribers w1)
           ∧ subscriber ret = WrapperCb p ∧ keys ret = None.
Proof.
  intros Hw Hn Hpatch p w1.
  assert (Hwf1 : wf w1).
  { apply setState_wf; [done|by intros|done]. }
  subst w1 p. revert Hwf1. unfold StateStore.setState.
  set (w0 := set__stateChanges (_stateChanges w ++ [patch]) w).
  pose proof (markDirty_wf w0 (push_patch_wf patch w Hpatch Hw)) as Hwm.
  destruct (markDirty_env w0) as (Hnow & Hlen & _ & Hthrew).
  specialize (Hthrew Hn).
  destruct (markDirty w0) as [wm threw]. simpl in *. subst threw.
  change (promises w0) with (promises w) in Hlen. rewrite Hlen.
  unfold createSubscribeWrapper.
  set (wp := set_promises (promises wm ++ [Pending]) wm).
  set (p := length (promises w)) in *.
  assert (Hfresh : WrapperCb p ∉ subscriber <$> _subscribers wp).
  { intros Hin. apply (wf_wrappers wm Hwm) in Hin. lia. }
  destruct (subscribe_new (WrapperCb p) None wp Hfresh) as (ret & Hsubs & Hsub & Hid & Hk).
  destruct (subscribe_promises (WrapperCb p) None wp)
    as (Ep & Et & _ & En & _ & _ & _ & Er & _).
  intros Hwf1. split_and!.
  - done.
  - done.
  - simpl. rewrite Ep. subst wp. simpl. rewrite <- Hlen. apply list_lookup_middle. done.
  - simpl. by rewrite En.
  - simpl. rewrite Et, En. subst wp. simpl. intros t Ht Htp.
    apply elem_of_app in Ht as [Ht|Ht].
    + apply (wf_timers wm Hwm) in Ht. lia.
    + apply list_elem_of_singleton in Ht. subst t. simpl. by rewrite Hnow.
  - simpl. rewrite En. subst wp. simpl. rewrite Hnow. apply elem_of_app. right.
    apply list_elem_of_here.
  - exists ret. simpl. rewrite Hsubs, Er. split_and!; try done.
    + apply elem_of_app. right. apply list_elem_of_here.
    + subst wp. simpl. intros Hr. apply (wf_removed wm Hwm) in Hr.
      apply (wf_meta_fresh wm Hwm) in Hr. simpl in Hid. lia.
Qed.

(** *** Timers *)

Lemma timeout_fires_lookup_other (p' p : nat) (w : World) :
  p' ≠ p → promises (timeout_fires p' w) !! p = promises w !! p.
Proof. intros Hne. unfold timeout_fires. by rewrite settle_lookup_other. Qed.

Lemma timeouts_lookup_final (due : list (nat * nat)) (w : World) (p : nat)
    (x : PromiseState) :
  promises w !! p = Some x → x ≠ Pending →
  promises (foldl (λ w t, timeout_fires t.1 w) w due) !! p = Some x.
Proof.
  revert w. induction due as [|t due IH]; intros w Hp Hx; simpl; [done|].
  apply IH; [|done]. unfold timeout_fires. by apply settle_lookup_final.
Qed.

Lemma timeouts_lookup_other (due : list (nat * nat)) (w : World) (p : nat) :
  p ∉ due.*1 →
  promises (foldl (λ w t, timeout_fires t.1 w) w due) !! p = promises w !! p.
Proof.
  revert w. induction due as [|t due IH]; intros w Hp; simpl; [done|].
  rewrite fmap_cons in Hp. apply not_elem_of_cons in Hp as [Hne Hp].
  rewrite IH by done. by apply timeout_fires_lookup_other.
Qed.

Lemma timeouts_lookup_due (due : list (nat * nat)) (w : World) (p : nat) :
  promises w !! p = Some Pending → p ∈ due.*1 →
  promises (foldl (λ w t, timeout_fires t.1 w) w due) !! p
  = Some (Rejected "state not update").
Proof.
  revert w. induction due as [|t due IH]; intros w Hp Hin; simpl.
  - by apply not_elem_of_nil in Hin.
  - destruct (decide (t.1 = p)) as [Ht|Ht].
    + apply timeouts_lookup_final; [|done]. rewrite Ht. unfold timeout_fires.
      by apply settle_lookup_pending.
    + rewrite fmap_cons in Hin. apply elem_of_cons in Hin as [Hin|Hin]; [done|].
      apply IH; [|done]. by rewrite timeout_fires_lookup_other.
Qed.

Lemma timeouts_lookup_cases (due : list (nat * nat)) (w : World) (p : nat) :
  promises (foldl (λ w t, timeout_fires t.1 w) w due) !! p = promises w !! p
  ∨ promises (foldl (λ w t, timeout_fires t.1 w) w due) !! p
    = Some (Rejected "state not update").
Proof.
  revert w. induction due as [|t due IH]; intros w; simpl; [by left|].
  destruct (IH (timeout_fires t.1 w)) as [-> | ->]; [|by right].
  exact (settle_lookup_cases t.1 p (Rejected "state not update") (clearTimeout t.1 w)).
Qed.

(** Before its deadline a timer leaves its promise alone. *)
Lemma advance_lookup_early (dt : nat) (w : World) (p : nat) :
  (∀ t, t ∈ timers w → t.1 = p → now w + dt < t.2) →
  promises (advance dt w) !! p = promises w !! p.
Proof.
  intros Hearly. unfold advance. rewrite timeouts_lookup_other; [done|].
  intros Hin. apply list_elem_of_fmap in Hin as (t & -> & Ht).
  apply list_elem_of_In, List.filter_In in Ht as [Ht Hdue].
  apply list_elem_of_In in Ht. simpl in Ht, Hdue.
  apply Nat.leb_le in Hdue. specialize (Hearly t Ht eq_refl). lia.
Qed.

(** At its deadline the timer rejects the promise if it is still pending. *)
Lemma advance_lookup_due (dt : nat) (w : World) (p : nat) (deadline : nat) :
  promises w !! p = Some Pending →
  (p, deadline) ∈ timers w → deadline ≤ now w + dt →
  promises (advance dt w) !! p = Some (Rejected "state not update").
Proof.
  intros Hp Ht Hd. unfold advance. apply timeouts_lookup_due; [done|].
  apply list_elem_of_fmap. exists (p, deadline). split; [done|].
  apply list_elem_of_In, List.filter_In. split; [by apply list_elem_of_In|].
  simpl. by apply Nat.leb_le.
Qed.

(** *** A settled promise stays as it is *)

Lemma step_lookup_final (w : World) (e : Event Value) (p : nat) (x : PromiseState) :
  promises w !! p = Some x → x ≠ Pending → promises (step w e) !! p = Some x.
Proof.
  intros Hp Hx. destruct e as [n ks|n|patch sub| |c|dt]; simpl.
  - by destruct (subscribe_promises (UserCb n) ks w) as (-> & _).
  - by destruct (unsubscribe_fields (UserCb n) w) as (_ & _ & ->).
  - unfold StateStore.setState.
    set (w0 := set__stateChanges _ _).
    destruct (markDirty_env w0) as (_ & Hlen & Hfin & _).
    specialize (Hfin p x Hp Hx).
    destruct (markDirty w0) as [wm threw]. simpl in *. destruct threw; [done|].
    destruct sub as [n|]; simpl.
    + by destruct (subscribe_promises (UserCb n) None wm) as (-> & _).
    + unfold createSubscribeWrapper. simpl.
      destruct (subscribe_promises (WrapperCb (length (promises wm))) None
                  (set_promises (promises wm ++ [Pending]) wm)) as (-> & _).
      simpl. rewrite lookup_app_l; [done|]. by eapply lookup_lt_Some.
  - done.
  - destruct (fire c (host w)) as [[[] h]|]; [|done].
    by apply (tick_lookup_final (set_host h w)).
  - unfold advance. by apply timeouts_lookup_final.
Qed.

Lemma run_lookup_final (es : list (Event Value)) (w : World) (p : nat)
    (x : PromiseState) :
  promises w !! p = Some x → x ≠ Pending → promises (run w es) !! p = Some x.
Proof.
  revert w. induction es as [|e es IH]; intros w Hp Hx; [done|].
  rewrite run_cons. apply IH; [|done]. by apply step_lookup_final.
Qed.

(** *** Without a flush no promise is fulfilled *)

Lemma step_unfulfilled (w : World) (e : Event Value) (p : nat) :
  flushes e = false → unfulfilled p w → unfulfilled p (step w e).
Proof.
  intros He Hp. destruct e as [n ks|n|patch sub| |c|dt]; simpl in *; try done.
  - unfold unfulfilled. by destruct (subscribe_promises (UserCb n) ks w) as (-> & _).
  - unfold unfulfilled. by destruct (unsubscribe_fields (UserCb n) w) as (_ & _ & ->).
  - unfold unfulfilled, advance.
    destruct (timeouts_lookup_cases
                (List.filter (λ t : nat * nat, t.2 <=? now (set_now (now w + dt) w))
                   (timers (set_now (now w + dt) w)))
                (set_now (now w + dt) w) p) as [-> | ->]; [done|by right].
Qed.

Lemma run_unfulfilled (es : list (Event Value)) (w : World) (p : nat) :
  forallb (λ e, negb (flushes e)) es = true →
  unfulfilled p w → unfulfilled p (run w es).
Proof.
  revert w. induction es as [|e es IH]; intros w Hes Hp; [done|].
  simpl in Hes. apply andb_true_iff in Hes as [He Hes]. apply negb_true_iff in He.
  rewrite run_cons. apply IH; [done|]. by apply step_unfulfilled.
Qed.

(** *** [setState] on an immediate store *)

Lemma createSubscribeWrapper_fields (timeout p : nat) (w : World) :
  _state (createSubscribeWrapper timeout p w) = _state w
  ∧ _stateChanges (createSubscribeWrapper timeout p w) = _stateChanges w
  ∧ heap (createSubscribeWrapper timeout p w) = heap w
  ∧ calls (createSubscribeWrapper timeout p w) = calls w.
Proof.
  unfold createSubscribeWrapper. simpl.
  by destruct (subscribe_promises (WrapperCb p) None w)
    as (_ & _ & -> & _ & -> & -> & -> & _).
Qed.

Lemma setState_immediate (patch : Ref) (w : World) :
  no_throw → _immediateFlush w = true → _dirty w = false →
  let wt := (tick (set__dirty true
                     (set__stateChanges (_stateChanges w ++ [patch]) w))).1 in
  (setState patch None w).1
  = createSubscribeWrapper 200 (length (promises wt))
      (set_promises (promises wt ++ [Pending]) wt).
Proof.
  intros Hn Him Hd wt. unfold StateStore.setState, StateStore.markDirty. simpl.
  rewrite Hd, Him.
  destruct (tick_calls (set__dirty true
              (set__stateChanges (_stateChanges w ++ [patch]) w)) Hn) as [Ht _].
  fold wt. destruct (tick _) as [wt' threw] eqn:Htick. simpl in *. by subst.
Qed.

(** *** The two ways the promise form ends *)

Lemma promise_form_outcomes (w : World) (patch : Ref) (dt : nat) :
  wf w → no_throw → patch < length (heap w) →
  let p := length (promises w) in
  let w1 := (setState patch None w).1 in
  (setState patch None w).2 = ReturnedPromise p
  ∧ promises w1 !! p = Some Pending
  ∧ (dt < 200 →
       let w2 := (tick (advance dt w1)).1 in
       promises w2 !! p = Some (Fulfilled (_state w2)))
  ∧ (200 ≤ dt →
       ∀ es, promises (run (advance dt w1) es) !! p
             = Some (Rejected "state not update")).
Proof.
  intros Hw Hn Hpatch p w1.
  destruct (setState_promise patch w Hw Hn Hpatch)
    as (Hres & Hw1 & Hpend & Hnow & Htimers & Htimer & ret & Hin & Hnr & Hs & Hk).
  fold p in Hres, Hpend, Htimers, Htimer, Hs.
  fold w1 in Hw1, Hpend, Hnow, Htimers, Htimer, Hin, Hnr.
  split_and!.
  - exact Hres.
  - exact Hpend.
  - intros Hdt w2.
    destruct (advance_fields dt w1) as (_&_&_&_&Es&Er&_).
    apply (tick_resolves _ p ret);
      [by apply advance_wf|done| |by rewrite Es|by rewrite Er|done|done].
    rewrite advance_lookup_early; [done|].
    intros t Ht Htp. rewrite (Htimers t Ht Htp). lia.
  - intros Hdt es. apply run_lookup_final; [|done].
    apply (advance_lookup_due dt w1 p (now w + 200)); [done|done|lia].
Qed.

End WithValues.

End StoreFacts.

(** ** The two readings of a flush *)

Module ReentrantFacts.
Import NextTime StateStore StoreFacts.

Section WithValues.
Context {Value : Type}.
Variable undefined : Value.
Variable loose_neq : Value → Value → bool.
Variable user_code : nat → list Action.
(** Whatever a flush inside a callback would do: these callbacks start none. *)
Variable inner : World Value → option (Reentrant.Outcome Value).

Local Abbreviation World := (World Value).
Local Abbreviation code := (@Reentrant.lift_code Value user_code).
Local Abbreviation forEach := (forEach undefined loose_neq user_code).
Local Abbreviation invoke := (@invoke Value user_code).
Local Abbreviation forEach_with := (Reentrant.forEach_with undefined loose_neq code inner).

Lemma first_detached_None (r : World * bool) (d : option (list SubscriberMeta)) :
  Reentrant.first_detached None (Some (r, d)) = Some (r, d).
Proof. by destruct r. Qed.

Lemma run_actions_lift (acts : list Action) (w : World) :
  Reentrant.run_actions_with inner (Reentrant.lift <$> acts) w
  = Some (run_actions acts w, None).
Proof.
  revert w. induction acts as [|[n|] acts IH]; intros w; simpl; [done| |done].
  apply IH.
Qed.

Lemma invoke_lift (c : Callback) (s : Ref) (w : World) :
  Reentrant.invoke_with code inner c s w = Some (invoke c s w, None).
Proof.
  unfold Reentrant.invoke_with, StateStore.invoke. destruct c as [n|p]; [|done].
  apply run_actions_lift.
Qed.

(** A pass over an array of its own visits what the list pass visits. *)
Lemma forEach_own (n k : nat) (l : list SubscriberMeta) (s prev : Ref) (w : World) :
  forEach_with n (Reentrant.Own l) k s prev w
  = Some (forEach (take n (drop k l)) s prev w, None).
Proof.
  revert k w. induction n as [|n IH]; intros k w; [done|].
  cbn [Reentrant.forEach_with Reentrant.read].
  destruct (l !! k) as [ret|] eqn:Hk.
  - rewrite (drop_S _ _ _ Hk). cbn [take StateStore.forEach].
    destruct (keys ret) as [ks|].
    + destruct (isStateChangedWithKeys undefined loose_neq prev s ks w).
      * rewrite invoke_lift. destruct (invoke (subscriber ret) s w) as [w1 []]; [done|].
        by rewrite IH, first_detached_None.
      * by rewrite IH, first_detached_None.
    + rewrite invoke_lift. destruct (invoke (subscriber ret) s w) as [w1 []]; [done|].
      by rewrite IH, first_detached_None.
  - rewrite IH. apply lookup_ge_None in Hk.
    by rewrite !drop_ge, !take_nil by lia.
Qed.

(** So does a pass over [this._subscribers], which these callbacks leave as
    it is. *)
Lemma forEach_live (n k : nat) (s prev : Ref) (w : World) :
  forEach_with n Reentrant.Live k s prev w
  = Some (forEach (take n (drop k (_subscribers w))) s prev w, None).
Proof.
  revert k w. induction n as [|n IH]; intros k w; [done|].
  cbn [Reentrant.forEach_with Reentrant.read].
  destruct (_subscribers w !! k) as [ret|] eqn:Hk.
  - rewrite (drop_S _ _ _ Hk). cbn [take StateStore.forEach].
    destruct (keys ret) as [ks|].
    + destruct (isStateChangedWithKeys undefined loose_neq prev s ks w).
      * rewrite invoke_lift.
        pose proof (invoke_subscribers user_code (subscriber ret) s w) as Hsub.
        destruct (invoke (subscriber ret) s w) as [w1 []]; [done|].
        rewrite IH, first_detached_None. simpl in Hsub. by rewrite Hsub.
      * by rewrite IH, first_detached_None.
    + rewrite invoke_lift.
      pose proof (invoke_subscribers user_code (subscriber ret) s w) as Hsub.
      destruct (invoke (subscriber ret) s w) as [w1 []]; [done|].
      rewrite IH, first_detached_None. simpl in Hsub. by rewrite Hsub.
  - rewrite IH. apply lookup_ge_None in Hk.
    by rewrite !drop_ge, !take_nil by lia.
Qed.

Lemma notify_lift (s prev : Ref) (w : World) :
  Reentrant.notify_with undefined loose_neq code inner s prev w
  = Some (notify undefined loose_neq user_code s prev w, None).
Proof.
  unfold Reentrant.notify_with, notify. case_decide.
  - by rewrite forEach_live, drop_0, firstn_all.
  - by rewrite forEach_own, drop_0, firstn_all.
Qed.

Lemma tick_with_lift (w : World) :
  Reentrant.tick_with undefined loose_neq code inner w
  = Some (tick undefined loose_neq user_code w, None).
Proof.
  unfold Reentrant.tick_with, tick, Reentrant.flush_with, flush.
  case_decide; simpl; apply notify_lift.
Qed.

End WithValues.

(** For callbacks that only call unsubscribe closures or throw, the flush
    taken as written returns, at whatever depth it is allowed, and is the
    flush of [StateStore]. *)
Lemma tick_lift {Value : Type} (undefined : Value) (loose_neq : Value → Value → bool)
    (user_code : nat → list Action) (depth : nat) (w : World Value) :
  Reentrant.tick undefined loose_neq (Reentrant.lift_code user_code) (S depth) w
  = Some (tick undefined loose_neq user_code w, None).
Proof. apply tick_with_lift. Qed.

End ReentrantFacts.

(** ** Claims about the state store *)

Module StoreClaims.
Import NextTime StateStore Scenarios StoreFacts.

Section WithValues.
Context {Value : Type}.
Variable undefined : Value.
Variable loose_neq : Value → Value → bool.
Variable user_code : nat → list Action.

Local Abbreviation Obj := (gmap string Value).
Local Abbreviation World := (World Value).
Local Abbreviation tick := (tick undefined loose_neq user_code).
Local Abbreviation run := (run undefined loose_neq user_code).
Local Abbreviation step := (step undefined loose_neq user_code).
Local Abbreviation setState := (setState undefined loose_neq user_code).
Local Abbreviation invoked_by_tick := (invoked_by_tick undefined loose_neq user_code).
Local Abbreviation no_throw := (no_throw user_code).
Local Abbreviation get := (get undefined).

(** C2. Whatever patches P1..Pn are queued by [setState] after a flush, the
    state the next flush produces holds, for every field, the value of the
    last patch that has the field, and the old state's value when none has;
    it is the old state overwritten by P1, then P2, ..., then Pn. *)
Theorem C2_flush_merges_queued_patches_in_order
    (w : World) (patches : list (Obj * option nat)) :
  _state w < length (heap w) → _immediateFlush w = false → _stateChanges w = [] →
  let w1 := run w (queue_all patches) in
  let w2 := (tick w1).1 in
  deref w2 (_state w2) = foldl (λ o p, p ∪ o) (deref w (_state w)) patches.*1
  ∧ (∀ k, deref w2 (_state w2) !! k =
            match winner k patches.*1 with
            | Some v => Some v
            | None => deref w (_state w) !! k
            end)
  ∧ (∀ w0 : World,
       deref (tick w0).1 (_state (tick w0).1)
       = foldl (λ o p, p ∪ o) (deref w0 (_state w0)) (deref w0 <$> _stateChanges w0)).
Proof.
  intros Hst Him Hq w1 w2.
  destruct (run_queue_all undefined loose_neq user_code patches w Him)
    as (Es & Eh & Ec & _).
  fold w1 in Es, Eh, Ec.
  assert (Hm : deref w2 (_state w2) = foldl assign_from (deref w (_state w)) patches.*1).
  { subst w2. rewrite tick_deref_state, Es, Ec, Hq. simpl.
    rewrite (deref_app_l w w1 _ _ Eh Hst).
    replace (length patches) with (length patches.*1) by apply length_fmap.
    by rewrite (deref_seq w w1 _ Eh). }
  split_and!.
  - rewrite Hm. apply foldl_assign_from.
  - intros k. rewrite Hm. apply (Object_assign_lookup (deref w (_state w))).
  - intros w0. rewrite tick_deref_state. apply foldl_assign_from.
Qed.

(** C7. The state after a flush is an object allocated by that flush: its
    address is none of the addresses in use before, so it differs from the
    previous state's; with no patch queued its fields are the old ones. *)
Theorem C7_flush_gives_current_a_fresh_identity (w : World) :
  _state w < length (heap w) →
  _state (tick w).1 ≠ _state w
  ∧ length (heap w) ≤ _state (tick w).1
  ∧ (_stateChanges w = [] → deref (tick w).1 (_state (tick w).1) = deref w (_state w)).
Proof.
  intros Hst. destruct (tick_fields undefined loose_neq user_code w) as (Es & _).
  pose proof (flushed_state_fresh w) as [Hfresh _].
  split_and!.
  - rewrite Es. lia.
  - rewrite Es. lia.
  - intros Hq. rewrite tick_deref_state, Hq. done.
Qed.



(** C10. When the closure returned for a registered callback has been called
    and the callback is passed to [subscribe] again before any flush, the
    second [subscribe] changes nothing; the next flush prunes the record
    without calling the callback, and as long as the callback is not
    registered anew it is never called. *)
Theorem C10_resubscribe_before_prune_is_lost
    (w : World) (n : nat) (ks : option (list string)) :
  wf w → UserCb n ∈ subscriber <$> _subscribers w →
  let w1 := unsubscribe (UserCb n) w in
  let w2 := subscribe (UserCb n) ks w1 in
  w2 = w1
  ∧ (UserCb n ∉ invoked_by_tick w2)
  ∧ (UserCb n ∉ subscriber <$> _subscribers (tick w2).1)
  ∧ (∀ es, forallb (λ e, negb (subscribes n e)) es = true →
       calls_of (UserCb n) (run (tick w2).1 es) = calls_of (UserCb n) w).
Proof.
  intros Hw Hin w1 w2.
  apply list_elem_of_fmap in Hin as (ret & Hsub & Hret).
  pose proof (find_subscriber_unique w ret (wf_callbacks w Hw) Hret) as Hf.
  rewrite <- Hsub in Hf.
  destruct (unsubscribe_effect (UserCb n) w) as [Es Er]. fold w1 in Es, Er.
  rewrite Hf in Er. simpl in Er.
  assert (H21 : w2 = w1).
  { subst w2. unfold subscribe.
    by rewrite (find_subscriber_same _ w w1 Es), Hf. }
  pose proof (unsubscribe_wf (UserCb n) w Hw) as Hw1. fold w1 in Hw1.
  assert (Hlive : UserCb n ∉ subscriber <$> live w1).
  { intros Hl. apply list_elem_of_fmap in Hl as (r & Hr & Hrl).
    apply (live_removed w1 r); [|done].
    replace r with ret; [rewrite Er; apply elem_of_app; right; apply list_elem_of_here|].
    eapply (NoDup_fmap_eq subscriber); [apply (wf_callbacks w1 Hw1)| | |congruence].
    - by rewrite Es.
    - by apply live_sub. }
  destruct (tick_not_live undefined loose_neq user_code (UserCb n) w1 Hlive)
    as [Hcalls Hgone].
  rewrite H21. split_and!.
  - done.
  - intros Hinv. by apply Hlive, (invoked_by_tick_live undefined loose_neq user_code).
  - done.
  - intros es Hes.
    rewrite (run_not_registered undefined loose_neq user_code n es _ Hes Hgone), Hcalls.
    unfold calls_of. subst w1.
    by destruct (unsubscribe_fields (UserCb n) w) as (-> & _).
Qed.



End WithValues.

Lemma C2_witness :
  _state (deferred_store quiet) < length (heap (deferred_store quiet))
  ∧ _immediateFlush (deferred_store quiet) = false
  ∧ _stateChanges (deferred_store quiet) = []
  ∧ let w1 := run JsUndefined js_loose_neq quiet (deferred_store quiet)
                (queue_all scenario_A_patches) in
    let w2 := (tick JsUndefined js_loose_neq quiet w1).1 in
    deref w2 (_state w2)
    = foldl (λ o p, p ∪ o) (deref (deferred_store quiet) (_state (deferred_store quiet)))
        scenario_A_patches.*1.
Proof.
  assert (H1 : _state (deferred_store quiet) < length (heap (deferred_store quiet)))
    by (vm_compute; lia).
  assert (H2 : _immediateFlush (deferred_store quiet) = false) by reflexivity.
  assert (H3 : _stateChanges (deferred_store quiet) = []) by reflexivity.
  split_and!; [exact H1|exact H2|exact H3|].
  exact (proj1 (C2_flush_merges_queued_patches_in_order JsUndefined js_loose_neq quiet
                  (deferred_store quiet) scenario_A_patches H1 H2 H3)).
Defined.

Lemma C7_witness :
  _state (deferred_store quiet) < length (heap (deferred_store quiet))
  ∧ (_state (tick JsUndefined js_loose_neq quiet (deferred_store quiet)).1
     ≠ _state (deferred_store quiet)).
Proof.
  assert (H1 : _state (deferred_store quiet) < length (heap (deferred_store quiet)))
    by (vm_compute; lia).
  split; [exact H1|].
  exact (proj1 (C7_flush_gives_current_a_fresh_identity JsUndefined js_loose_neq quiet
                  (deferred_store quiet) H1)).
Defined.

Lemma quiet_no_throw : no_throw quiet.
Proof. intros n Hin. by apply not_elem_of_nil in Hin. Qed.


Lemma meddling_no_throw : no_throw meddling.
Proof.
  intros n Hin. unfold meddling in Hin. case_decide.
  - apply list_elem_of_singleton in Hin. discriminate.
  - by apply not_elem_of_nil in Hin.
Qed.




Lemma C10_witness :
  wf scenario_B ∧ UserCb 1 ∈ subscriber <$> _subscribers scenario_B
  ∧ subscribe (UserCb 1) None (unsubscribe (UserCb 1) scenario_B)
    = unsubscribe (UserCb 1) scenario_B.
Proof.
  assert (Hw : wf scenario_B).
  { apply run_wf, createState_wf. simpl. lia. }
  assert (Hin : UserCb 1 ∈ subscriber <$> _subscribers scenario_B).
  { apply (bool_decide_unpack _). vm_compute. exact I. }
  split_and!; [exact Hw|exact Hin|].
  exact (proj1 (C10_resubscribe_before_prune_is_lost JsUndefined js_loose_neq quiet
                  scenario_B 1 None Hw Hin)).
Defined.

Lemma scenario_E_wf (immediateFlush : bool) : wf (scenario_E immediateFlush).
Proof.
  unfold scenario_E. apply alloc_wf.
  destruct immediateFlush; apply createState_wf; simpl; lia.
Qed.




End StoreClaims.

(** ** Claims about tearing down *)

Module LifecycleClaims.
Import NextTime Scenarios.

(** C5, as the code has it.  [destroy] of a scheduler empties the queue,
    drops the hook and cancels the drain its [_cancel] stands for; the hook
    invocations in flight are untouched, and when one settles afterwards no
    hook is called.  [dispose] of a store empties the patch queue, makes the
    state a fresh empty object and drops every subscriber; the store keeps no
    cancel closure ([markDirty] discards what [nextTime] returns), so the
    host and the dirty flag are as before and a flush booked earlier stays
    booked. *)
Theorem C5_destroy_cancels_the_drain_and_dispose_keeps_the_flush :
  (∀ (T : Type) (EqT : EqDecision T) (undefined : T) (w : IdleQueue.World T),
     let w' := IdleQueue.destroy w in
     IdleQueue.contents (IdleQueue.q w') = []
     ∧ IdleQueue._onTake w' = None
     ∧ (∀ c, IdleQueue._cancel w = Some c → c ∉ (pending (IdleQueue.host w')).*1)
     ∧ IdleQueue.calls w' = IdleQueue.calls w
     ∧ IdleQueue.inflight w' = IdleQueue.inflight w
     ∧ IdleQueue.awaiting w' = IdleQueue.awaiting w
     ∧ (∀ id ok, IdleQueue.calls (IdleQueue.step undefined w' (IdleQueue.Settle id ok))
                 = IdleQueue.calls w))
  ∧ (∀ (Value : Type) (w : StateStore.World Value),
       let w' := StateStore.dispose w in
       StateStore._stateChanges w' = []
       ∧ StateStore.deref w' (StateStore._state w') = ∅
       ∧ StateStore._state w' = length (StateStore.heap w)
       ∧ StateStore._subscribers w' = []
       ∧ StateStore._removedSubscribers w' = []
       ∧ StateStore.host w' = StateStore.host w
       ∧ StateStore._dirty w' = StateStore._dirty w
       ∧ StateStore.calls w' = StateStore.calls w).
Proof.
  split.
  - intros T EqT undefined w w'.
    destruct (SchedulerFacts.destroy_effect w) as (Hq & Hsz & Hh & Hc & Hcalls & Hin & Haw).
    fold w' in Hq, Hsz, Hh, Hc, Hcalls, Hin, Haw.
    split_and!; try done.
    intros id ok. simpl. case_decide; [|done]. case_decide; [|done].
    unfold IdleQueue.resume, IdleQueue._process_tail, IdleQueue._next.
    destruct ok; [|done]. destruct (IdleQueue.block _); [|done].
    rewrite decide_True; [done|]. simpl. unfold IdleQueue.size. simpl.
    by destruct (IdleQueue.q_unique _).
  - intros Value w w'. subst w'. unfold StateStore.dispose, StateStore.deref. simpl.
    split_and!; try done. by rewrite list_lookup_middle.
Qed.

(** C5 as stated fails for the store: after [createState] has booked the
    first flush, [dispose] leaves it with the host, and when the host runs it
    the disposed store flushes. *)
Lemma C5_dispose_leaves_the_flush_booked :
  let w := StateStore.dispose (deferred_store quiet) in
  let c := mkHandle AnimationFrame 0 in
  pending (StateStore.host (deferred_store quiet)) = [(c, tt)]
  ∧ pending (StateStore.host w) = [(c, tt)]
  ∧ StateStore._state w = 1
  ∧ StateStore._state (StateStore.step JsUndefined js_loose_neq quiet w (StateStore.Frame c)) = 2.
Proof. vm_compute. done. Qed.

End LifecycleClaims.

(** * Further properties *)

(** ** The bounded queue and the scheduler *)

Module QueueExtras.
Import NextTime IdleQueue Scenarios QueueFacts SchedulerFacts.

Section WithItems.
Context {T : Type} `{EqDecision T}.
Variable undefined : T.

Lemma add_all_NoDup (xs : list T) (q : Queue T) :
  NoDup (uniqueItems q) → NoDup (uniqueItems (add_all xs q)).
Proof.
  revert q. induction xs as [|x xs IH]; intros q Hnd; [done|].
  unfold add_all in *. simpl. by apply IH, add_NoDup.
Qed.

Lemma add_q_unique (x : T) (q : Queue T) : q_unique (add x q) = q_unique q.
Proof. unfold add. by destruct (q_unique q). Qed.

Lemma add_all_snoc (xs : list T) (x : T) (q : Queue T) :
  add_all (xs ++ [x]) q = add x (add_all xs q).
Proof. unfold add_all. by rewrite foldl_snoc. Qed.

Lemma add_all_q_unique (xs : list T) (q : Queue T) :
  q_unique (add_all xs q) = q_unique q.
Proof.
  induction xs as [|x xs IH] using rev_ind; [done|].
  by rewrite add_all_snoc, add_q_unique.
Qed.

Lemma first_occurrences_snoc (xs : list T) (x : T) :
  first_occurrences (xs ++ [x])
  = if decide (x ∈ first_occurrences xs) then first_occurrences xs
    else first_occurrences xs ++ [x].
Proof.
  unfold first_occurrences. rewrite reverse_snoc. simpl.
  destruct (decide_rel elem_of x (reverse xs)) as [Hin|Hnin].
  - rewrite decide_True; [done|].
    by rewrite elem_of_reverse, elem_of_remove_dups.
  - rewrite decide_False.
    + by rewrite reverse_cons.
    + intros Hin. by rewrite elem_of_reverse, elem_of_remove_dups in Hin.
Qed.

(** From an empty queue the contents are the items added, in the order they
    were added; on a unique queue each at its first occurrence. *)
Lemma add_all_contents (unique : bool) (xs : list T) :
  contents (add_all xs (createQueue unique))
  = if unique then first_occurrences xs else xs.
Proof.
  induction xs as [|x xs IH] using rev_ind.
  - by destruct unique.
  - rewrite add_all_snoc, add_contents, add_all_q_unique, IH. simpl.
    destruct unique; [|done]. by rewrite first_occurrences_snoc.
Qed.

Lemma add_nonempty (x : T) (q : Queue T) : size (add x q) ≠ 0.
Proof.
  rewrite size_contents, add_contents.
  destruct (q_unique q); [case_decide as Hin|].
  - destruct (contents q); [by apply not_elem_of_nil in Hin|done].
  - rewrite length_app. simpl. lia.
  - rewrite length_app. simpl. lia.
Qed.

Lemma take_items_or_set (count : Z) (q : Queue T) :
  if q_unique q then items (take undefined count q).2 = items q
  else uniqueItems (take undefined count q).2 = uniqueItems q.
Proof.
  unfold take. destruct (q_unique q) eqn:Hu; [|done].
  by destruct (take_loop _ _ _ _).
Qed.

(** *** The scheduler once its queue is loaded *)

Lemma enqueue_booked (x : T) (w : World T) (c : Handle) :
  _cancel w = Some c →
  enqueue x w = mkWorld (options w) (_cancel w) (_onTake w) (add x (q w)) (host w)
                  (calls w) (inflight w) (awaiting w).
Proof. intros Hc. unfold enqueue. by apply (_next_keeps_cancel _ c). Qed.

Lemma scheduler_run_cons (e : Event T) (es : list (Event T)) (w : World T) :
  run undefined w (e :: es) = run undefined (step undefined w e) es.
Proof. reflexivity. Qed.

Lemma enqueue_all_booked (xs : list T) (w : World T) (c : Handle) :
  _cancel w = Some c →
  run undefined w (Enqueue <$> xs)
  = mkWorld (options w) (_cancel w) (_onTake w) (add_all xs (q w)) (host w)
      (calls w) (inflight w) (awaiting w).
Proof.
  revert w. induction xs as [|x xs IH]; intros w Hc; [by destruct w|].
  rewrite fmap_cons, scheduler_run_cons. cbn [step].
  rewrite (enqueue_booked x w c Hc). by rewrite IH.
Qed.

Lemma enqueue_first (o : SchedulerOptions T) (h : Host unit) (x : T) :
  enqueue x (createScheduler o h)
  = mkWorld o (Some (nextTime tt (useIdle o) h).1) (hooks_onTake o)
      (add x (createQueue (unique o))) (nextTime tt (useIdle o) h).2 [] [] [].
Proof.
  unfold enqueue, _next. simpl.
  rewrite decide_False by apply add_nonempty. done.
Qed.

Lemma enqueue_all_fresh (o : SchedulerOptions T) (h : Host unit) (x : T) (xs : list T) :
  run undefined (createScheduler o h) (Enqueue <$> x :: xs)
  = mkWorld o (Some (nextTime tt (useIdle o) h).1) (hooks_onTake o)
      (add_all (x :: xs) (createQueue (unique o))) (nextTime tt (useIdle o) h).2 [] [] [].
Proof.
  rewrite fmap_cons, scheduler_run_cons. cbn [step]. rewrite enqueue_first.
  by rewrite (enqueue_all_booked xs _ (nextTime tt (useIdle o) h).1).
Qed.

(** A drain of a scheduler that has a hook: the batch goes to the hook and
    the rest stays queued, whatever the hook returns. *)
Lemma drain_with_hook (w : World T) (c : Handle) (hook : Hook T) :
  _cancel w = Some c → _onTake w = Some hook →
  calls (drain undefined w) = calls w ++ [(take undefined (batch_count (options w)) (q w)).1]
  ∧ q (drain undefined w) = (take undefined (batch_count (options w)) (q w)).2
  ∧ host (drain undefined w) = host w.
Proof.
  intros Hc Hh.
  assert (Hd : drain undefined w = _process undefined w).
  { unfold drain. destruct (_process_calls undefined w c Hc) as (Hc' & _).
    destruct (block _); [done|]. by apply (_next_keeps_cancel _ c). }
  rewrite Hd. unfold _process.
  destruct (take undefined (batch_count (options w)) (q w)) as [batch q'].
  simpl. rewrite Hh. destruct (hook batch).
  - by rewrite (_process_tail_keeps_cancel _ c) by done.
  - simpl. destruct (block (options w)) eqn:Hb; simpl; [done|].
    unfold _process_tail. simpl. by rewrite Hb.
Qed.

Lemma drain_without_hook (w : World T) (c : Handle) :
  _cancel w = Some c → _onTake w = None →
  calls (drain undefined w) = calls w
  ∧ q (drain undefined w) = (take undefined (batch_count (options w)) (q w)).2
  ∧ host (drain undefined w) = host w
  ∧ _cancel (drain undefined w) = Some c.
Proof.
  intros Hc Hh.
  assert (Hd : drain undefined w = _process undefined w).
  { unfold drain. destruct (_process_calls undefined w c Hc) as (Hc' & _).
    destruct (block _); [done|]. by apply (_next_keeps_cancel _ c). }
  rewrite Hd. unfold _process.
  destruct (take undefined (batch_count (options w)) (q w)) as [batch q'].
  simpl. rewrite Hh. by rewrite (_process_tail_keeps_cancel _ c) by done.
Qed.

End WithItems.

(** X2. Whatever items are added to an empty queue, it holds them in the
    order they were added, on a unique queue each once at its first
    occurrence, and a [take] of at least [size()] returns exactly that and
    leaves the queue empty. *)
Theorem X2_queue_gives_back_what_was_added
    {T : Type} `{EqDecision T} (undefined : T) (unique : bool) (xs : list T)
    (more : nat) :
  let qu := add_all xs (createQueue unique) in
  let r := take undefined (Z.of_nat (size qu + more)) qu in
  contents qu = (if unique then first_occurrences xs else xs)
  ∧ r.1 = contents qu
  ∧ contents r.2 = [] ∧ size r.2 = 0.
Proof.
  intros qu r.
  assert (Hnd : NoDup (uniqueItems qu)).
  { apply add_all_NoDup. simpl. apply NoDup_nil_2. }
  destruct (take_spec undefined (Z.of_nat (size qu + more)) qu Hnd) as [Hrest Htook].
  fold r in Hrest, Htook.
  assert (Hm : taken (Z.of_nat (size qu + more)) qu = length (contents qu)).
  { unfold taken. rewrite <- size_contents. lia. }
  rewrite Hm in Hrest, Htook.
  rewrite take_ge in Htook by done. rewrite drop_ge in Hrest by done.
  split_and!.
  - apply add_all_contents.
  - exact Htook.
  - exact Hrest.
  - by rewrite size_contents, Hrest.
Qed.

(** X3. Two takes in a row return, one after the other, what a single take
    of the summed count returns, and leave the same items queued. *)
Theorem X3_successive_takes_compose
    {T : Type} `{EqDecision T} (undefined : T) (qu : Queue T) (a b : Z) :
  NoDup (uniqueItems qu) → (0 ≤ a)%Z → (0 ≤ b)%Z →
  let r1 := take undefined a qu in
  let r2 := take undefined b r1.2 in
  let r := take undefined (a + b) qu in
  r1.1 ++ r2.1 = r.1 ∧ contents r2.2 = contents r.2.
Proof.
  intros Hnd Ha Hb r1 r2 r.
  destruct (take_spec undefined a qu Hnd) as [Hrest1 Htook1].
  pose proof (take_NoDup undefined a qu Hnd) as Hnd1.
  destruct (take_spec undefined b _ Hnd1) as [Hrest2 Htook2].
  destruct (take_spec undefined (a + b) qu Hnd) as [Hrest Htook].
  fold r1 in Hrest1, Htook1, Hrest2, Htook2. fold r2 in Hrest2, Htook2.
  fold r in Hrest, Htook.
  assert (Hsz : size r1.2 = size qu - taken a qu).
  { rewrite !size_contents, Hrest1, length_drop. done. }
  assert (Hsum : taken (a + b) qu = taken a qu + taken b r1.2).
  { unfold taken. rewrite Hsz. unfold taken. lia. }
  rewrite Htook1, Htook2, Hrest1, Htook, Hrest2, Hrest1, Hrest, Hsum.
  split; [apply take_take_drop|by rewrite drop_drop].
Qed.

Lemma X3_witness :
  NoDup (uniqueItems (mkQueue false [1; 2; 3; 4; 5] [])) ∧ (0 ≤ 2)%Z ∧ (0 ≤ 2)%Z
  ∧ (take 0 2 (mkQueue false [1; 2; 3; 4; 5] [])).1
      ++ (take 0 2 (take 0 2 (mkQueue false [1; 2; 3; 4; 5] [])).2).1
    = (take 0 (2 + 2) (mkQueue false [1; 2; 3; 4; 5] [])).1.
Proof.
  assert (Hnd : NoDup (uniqueItems (mkQueue false [1; 2; 3; 4; 5] []))) by apply NoDup_nil_2.
  assert (H2 : (0 ≤ 2)%Z) by lia.
  split_and!; [exact Hnd|exact H2|exact H2|].
  exact (proj1 (X3_successive_takes_compose 0 (mkQueue false [1; 2; 3; 4; 5] []) 2 2
                  Hnd H2 H2)).
Defined.

(** X4. Once a scheduler has booked a drain, [destroy] is final: whatever is
    enqueued, whichever hook is set and whatever the host does afterwards,
    no hook is called again. *)
Theorem X4_destroyed_scheduler_calls_no_hook
    {T : Type} `{EqDecision T} (undefined : T) (o : SchedulerOptions T)
    (idle frame : bool) (first_id : nat) (before after : list (Event T)) :
  let w := run undefined (createScheduler o (mkHost idle frame first_id [])) before in
  is_Some (_cancel w) →
  calls (run undefined (destroy w) after) = calls w
  ∧ pending (host (run undefined (destroy w) after)) = [].
Proof.
  intros w Hc.
  assert (Hinv : one_drain w).
  { apply one_drain_run. unfold one_drain. simpl. done. }
  assert (Hst : stalled (destroy w)).
  { split; [done|]. destruct Hc as [c Hc]. unfold one_drain in Hinv.
    simpl. rewrite Hc in *. simpl.
    destruct Hinv as [(-> & _)|[-> _]]; [|done].
    by rewrite filter_cons_False by (simpl; intros Hne; by apply Hne). }
  destruct (stalled_run undefined after (destroy w) Hst) as ([_ Hp] & Hcalls & _).
  split; [exact Hcalls|exact Hp].
Qed.

Lemma X4_witness :
  is_Some (_cancel (run Scenarios.ItemUndefined
                      (createScheduler Scenarios.scenario_C_options (mkHost true true 0 []))
                      [Enqueue Scenarios.item_a]))
  ∧ calls (run Scenarios.ItemUndefined
             (destroy (run Scenarios.ItemUndefined
                         (createScheduler Scenarios.scenario_C_options (mkHost true true 0 []))
                         [Enqueue Scenarios.item_a]))
             [Enqueue Scenarios.item_b; Fire (mkHandle AnimationFrame 0)])
    = calls (run Scenarios.ItemUndefined
               (createScheduler Scenarios.scenario_C_options (mkHost true true 0 []))
               [Enqueue Scenarios.item_a]).
Proof.
  assert (Hc : is_Some (_cancel (run Scenarios.ItemUndefined
                          (createScheduler Scenarios.scenario_C_options (mkHost true true 0 []))
                          [Enqueue Scenarios.item_a]))) by (by eexists).
  split; [exact Hc|].
  exact (proj1 (X4_destroyed_scheduler_calls_no_hook Scenarios.ItemUndefined
                  Scenarios.scenario_C_options true true 0 [Enqueue Scenarios.item_a]
                  [Enqueue Scenarios.item_b; Fire (mkHandle AnimationFrame 0)] Hc)).
Defined.

(** X5. In a host that has the facility [nextTime] tests first
    ([requestIdleCallback] with [useIdle], [requestAnimationFrame] without),
    when items have been enqueued on a new scheduler that has a hook, one
    drain is booked with that facility, and when the host runs it the hook
    gets the first [batchSize || 1] of them (all of them if fewer) in arrival
    order, on a unique scheduler counted without repeats, and the rest stay
    queued; a negative [batchSize] hands the hook an empty batch. *)
Theorem X5_drain_hands_the_front_batch_to_the_hook
    {T : Type} `{EqDecision T} (undefined : T) (o : SchedulerOptions T) (hook : Hook T)
    (idle frame : bool) (first_id : nat) (x : T) (xs : list T) :
  hooks_onTake o = Some hook →
  (if useIdle o then idle else frame) = true →
  let h := mkHost idle frame first_id [] in
  let c := mkHandle (if useIdle o then IdleCallback else AnimationFrame) first_id in
  let w := run undefined (createScheduler o h) (Enqueue <$> x :: xs) in
  let arrived := if unique o then first_occurrences (x :: xs) else x :: xs in
  let n := Z.to_nat (Z.min (batch_count o) (Z.of_nat (length arrived))) in
  _cancel w = Some c ∧ pending (host w) = [(c, tt)] ∧ calls w = []
  ∧ calls (step undefined w (Fire c)) = [list.take n arrived]
  ∧ contents (q (step undefined w (Fire c))) = list.drop n arrived
  ∧ pending (host (step undefined w (Fire c))) = [].
Proof.
  intros Hh Hfac h c w arrived n.
  assert (Hc : c = mkHandle (choose (useIdle o) h) first_id).
  { subst c h. unfold choose. simpl. by destruct (useIdle o), idle, frame. }
  clearbody c. subst c.
  set (c := mkHandle (choose (useIdle o) h) first_id).
  assert (Hw : w = mkWorld o (Some c) (hooks_onTake o)
                     (add_all (x :: xs) (createQueue (unique o)))
                     (mkHost idle frame (S first_id) [(c, tt)]) [] [] []).
  { subst w. by rewrite enqueue_all_fresh. }
  assert (Hnd : NoDup (uniqueItems (add_all (x :: xs) (createQueue (unique o))))).
  { apply add_all_NoDup. simpl. apply NoDup_nil_2. }
  pose proof (add_all_contents (unique o) (x :: xs)) as Hcont. fold arrived in Hcont.
  destruct (take_spec undefined (batch_count o) _ Hnd) as [Hrest Htook].
  unfold taken in Hrest, Htook. rewrite size_contents, Hcont in Hrest, Htook.
  fold n in Hrest, Htook.
  set (w0 := mkWorld o (Some c) (hooks_onTake o)
                   (add_all (x :: xs) (createQueue (unique o)))
                   (mkHost idle frame (S first_id) []) [] [] []).
  assert (Hstep : step undefined w (Fire c) = drain undefined w0).
  { rewrite Hw. cbn [step]. unfold fire. cbn [host pending list_find fst].
    rewrite decide_True by done. cbn [fmap option_fmap option_map prod_map fst snd].
    unfold cancel. cbn [pending has_requestIdleCallback has_requestAnimationFrame next_id].
    rewrite filter_cons_False by (simpl; intros Hne; by apply Hne). by rewrite filter_nil. }
  destruct (drain_with_hook undefined w0 c hook eq_refl Hh) as (Hcalls & Hq & Hhost).
  rewrite Hstep, Hcalls, Hq, Hhost. subst w0. cbn [calls q host pending options app].
  rewrite Htook, Hrest, Hw. done.
Qed.

Lemma X5_witness :
  hooks_onTake Scenarios.scenario_C_options = Some Scenarios.async_hook
  ∧ (if useIdle Scenarios.scenario_C_options then true else true) = true
  ∧ calls (step Scenarios.ItemUndefined
             (run Scenarios.ItemUndefined
                (createScheduler Scenarios.scenario_C_options (mkHost true true 0 []))
                (Enqueue <$> Scenarios.item_a :: [Scenarios.item_b; Scenarios.item_c]))
             (Fire (mkHandle (if useIdle Scenarios.scenario_C_options
                              then IdleCallback else AnimationFrame) 0)))
    = [list.take
         (Z.to_nat (Z.min (batch_count Scenarios.scenario_C_options)
                      (Z.of_nat (length
                         (if unique Scenarios.scenario_C_options
                          then first_occurrences
                                 (Scenarios.item_a :: [Scenarios.item_b; Scenarios.item_c])
                          else Scenarios.item_a :: [Scenarios.item_b; Scenarios.item_c])))))
         (if unique Scenarios.scenario_C_options
          then first_occurrences (Scenarios.item_a :: [Scenarios.item_b; Scenarios.item_c])
          else Scenarios.item_a :: [Scenarios.item_b; Scenarios.item_c])].
Proof.
  assert (Hh : hooks_onTake Scenarios.scenario_C_options = Some Scenarios.async_hook)
    by reflexivity.
  assert (Hhost : (if useIdle Scenarios.scenario_C_options then true else true) = true)
    by reflexivity.
  split_and!; [exact Hh|exact Hhost|].
  exact (proj1 (proj2 (proj2 (proj2
           (X5_drain_hands_the_front_batch_to_the_hook Scenarios.ItemUndefined
              Scenarios.scenario_C_options Scenarios.async_hook true true 0
              Scenarios.item_a [Scenarios.item_b; Scenarios.item_c] Hh Hhost))))).
Defined.

(** X16. A drain that runs while no hook is set takes its batch out of the
    queue and hands it to nobody.  As [_cancel] stays set, nothing is booked
    again: whatever hook is set and whatever is enqueued afterwards, no hook
    is ever called, so those items are lost. *)
Theorem X16_drain_without_a_hook_discards_its_batch
    {T : Type} `{EqDecision T} (undefined : T) (o : SchedulerOptions T)
    (idle frame : bool) (first_id : nat) (x : T) (xs : list T)
    (after : list (Event T)) :
  hooks_onTake o = None →
  let h := mkHost idle frame first_id [] in
  let c := mkHandle (choose (useIdle o) h) first_id in
  let w := run undefined (createScheduler o h) (Enqueue <$> x :: xs) in
  let arrived := if unique o then first_occurrences (x :: xs) else x :: xs in
  let n := Z.to_nat (Z.min (batch_count o) (Z.of_nat (length arrived))) in
  let w' := step undefined w (Fire c) in
  contents (q w) = arrived
  ∧ contents (q w') = drop n arrived
  ∧ calls w' = []
  ∧ calls (run undefined w' after) = [].
Proof.
  intros Hh h c w arrived n w'.
  assert (Hw : w = mkWorld o (Some c) (hooks_onTake o)
                     (add_all (x :: xs) (createQueue (unique o)))
                     (mkHost idle frame (S first_id) [(c, tt)]) [] [] []).
  { subst w. by rewrite enqueue_all_fresh. }
  assert (Hnd : NoDup (uniqueItems (add_all (x :: xs) (createQueue (unique o))))).
  { apply add_all_NoDup. simpl. apply NoDup_nil_2. }
  pose proof (add_all_contents (unique o) (x :: xs)) as Hcont. fold arrived in Hcont.
  destruct (take_spec undefined (batch_count o) _ Hnd) as [Hrest _].
  unfold taken in Hrest. rewrite size_contents, Hcont in Hrest. fold n in Hrest.
  set (w0 := mkWorld o (Some c) (hooks_onTake o)
                   (add_all (x :: xs) (createQueue (unique o)))
                   (mkHost idle frame (S first_id) []) [] [] []).
  assert (Hstep : w' = drain undefined w0).
  { subst w'. rewrite Hw. cbn [step]. unfold fire. cbn [host pending list_find fst].
    rewrite decide_True by done. cbn [fmap option_fmap option_map prod_map fst snd].
    unfold cancel. cbn [pending has_requestIdleCallback has_requestAnimationFrame next_id].
    rewrite filter_cons_False by (simpl; intros Hne; by apply Hne). by rewrite filter_nil. }
  destruct (drain_without_hook undefined w0 c eq_refl Hh) as (Hcalls & Hq & Hhost & Hcan).
  rewrite <- Hstep in Hcalls, Hq, Hhost, Hcan.
  assert (Hst : stalled w').
  { split; [by rewrite Hcan|by rewrite Hhost]. }
  destruct (stalled_run undefined after w' Hst) as (_ & Hafter & _).
  split_and!.
  - by rewrite Hw.
  - rewrite Hq. exact Hrest.
  - by rewrite Hcalls.
  - by rewrite Hafter, Hcalls.
Qed.

Lemma X16_witness :
  hooks_onTake scenario_D_options = None
  ∧ contents (q (run ItemUndefined
                   (createScheduler scenario_D_options (mkHost true true 0 []))
                   (Enqueue <$> item_a :: [item_b])))
    = (if unique scenario_D_options then first_occurrences (item_a :: [item_b])
       else item_a :: [item_b]).
Proof.
  assert (Hh : hooks_onTake scenario_D_options = None) by reflexivity.
  split; [exact Hh|].
  exact (proj1 (X16_drain_without_a_hook_discards_its_batch ItemUndefined
                  scenario_D_options true true 0 item_a [item_b]
                  [OnTake async_hook; Enqueue item_c] Hh)).
Defined.

End QueueExtras.

(** ** The state store over whole runs *)

Module StoreExtras.
Import NextTime StateStore Scenarios StoreFacts.

Section WithValues.
Context {Value : Type}.
Variable undefined : Value.
Variable loose_neq : Value → Value → bool.
Variable user_code : nat → list Action.

Local Abbreviation Obj := (gmap string Value).
Local Abbreviation World := (World Value).
Local Abbreviation tick := (tick undefined loose_neq user_code).
Local Abbreviation markDirty := (markDirty undefined loose_neq user_code).
Local Abbreviation run := (run undefined loose_neq user_code).
Local Abbreviation step := (step undefined loose_neq user_code).
Local Abbreviation setState := (setState undefined loose_neq user_code).
Local Abbreviation createState := (createState undefined loose_neq user_code).
Local Abbreviation invoked_by_tick := (invoked_by_tick undefined loose_neq user_code).
Local Abbreviation no_throw := (no_throw user_code).
Local Abbreviation get := (get undefined).
Local Abbreviation invoke := (@invoke Value user_code).
Local Abbreviation forEach := (forEach undefined loose_neq user_code).
Local Abbreviation gate := (gate undefined loose_neq).
Local Abbreviation throws := (throws user_code).
Local Abbreviation until_throw := (until_throw user_code).

(** *** Booking *)

Lemma setState_fields (patch : Ref) (sub : option Callback) (w : World) :
  let w1 := (markDirty (set__stateChanges (_stateChanges w ++ [patch]) w)).1 in
  _state (setState patch sub w).1 = _state w1
  ∧ heap (setState patch sub w).1 = heap w1
  ∧ _stateChanges (setState patch sub w).1 = _stateChanges w1
  ∧ _dirty (setState patch sub w).1 = _dirty w1
  ∧ _immediateFlush (setState patch sub w).1 = _immediateFlush w1
  ∧ host (setState patch sub w).1 = host w1.
Proof.
  intros w1. subst w1. unfold StateStore.setState.
  destruct (markDirty _) as [w1 threw]. simpl.
  destruct threw; [done|]. destruct sub as [c|]; simpl.
  - by destruct (subscribe_promises c None w1)
      as (_ & _ & -> & _ & _ & -> & -> & _ & -> & -> & ->).
  - unfold createSubscribeWrapper. simpl.
    by destruct (subscribe_promises (WrapperCb (length (promises w1))) None
                   (set_promises (promises w1 ++ [Pending]) w1))
      as (_ & _ & -> & _ & _ & -> & -> & _ & -> & -> & ->).
Qed.

Lemma markDirty_deferred (w : World) :
  _immediateFlush w = false →
  (markDirty w).1
  = if _dirty w then w else set_host (nextTime tt false (host w)).2 (set__dirty true w).
Proof.
  intros Him. unfold StateStore.markDirty. destruct (_dirty w); [done|].
  simpl. by rewrite Him.
Qed.

Lemma markDirty_immediate (w : World) :
  _immediateFlush w = true → _dirty w = false →
  (markDirty w).1 = (tick (set__dirty true w)).1.
Proof.
  intros Him Hd. unfold StateStore.markDirty. rewrite Hd. simpl. by rewrite Him.
Qed.

Lemma one_flush_step (w : World) (e : Event Value) :
  _immediateFlush w = false → one_flush w →
  _immediateFlush (step w e) = false ∧ one_flush (step w e).
Proof.
  intros Him Hinv. destruct e as [n ks|n|patch sub| |c|dt].
  - simpl. unfold one_flush.
    by destruct (subscribe_promises (UserCb n) ks w)
      as (_ & _ & _ & _ & _ & _ & -> & _ & -> & -> & ->).
  - simpl. unfold one_flush, unsubscribe. by destruct (find_subscriber _ w).
  - rewrite step_SetState.
    set (w0 := set_heap (heap w ++ [patch]) w).
    destruct (setState_fields (length (heap w)) (UserCb <$> sub) w0)
      as (_ & _ & Ec & Ed & Ei & Eh).
    rewrite markDirty_deferred in Ec, Ed, Ei, Eh by done.
    unfold one_flush. rewrite Ec, Ed, Ei, Eh. clear Ec Ed Ei Eh.
    change (_dirty (set__stateChanges _ w0)) with (_dirty w).
    destruct Hinv as [(Hd & c & Hp)|(Hd & Hp & Hq)]; rewrite Hd.
    + split; [done|]. left. split; [done|]. by exists c.
    + split; [done|]. left. split; [done|]. simpl. rewrite Hp. by eexists.
  - simpl. split; [done|]. unfold one_flush. simpl.
    destruct Hinv as [(Hd & c & Hp)|(Hd & Hp & Hq)]; [left|right]; eauto.
  - simpl. unfold fire.
    destruct Hinv as [(Hd & c' & Hp)|(Hd & Hp & Hq)]; rewrite Hp; simpl.
    + destruct (decide (c' = c)) as [->|Hne]; simpl.
      * destruct (tick_fields undefined loose_neq user_code
                    (set_host (cancel c (host w)) w))
          as (_ & _ & _ & Ec & Ed & Ei & _ & Eh & _).
        split; [by rewrite Ei|]. right. rewrite Ec, Ed, Eh. split_and!; try done.
        simpl. rewrite Hp. by rewrite filter_cons_False by (simpl; intros Hn; by apply Hn).
      * split; [done|]. left. eauto.
    + split; [done|]. by right.
  - simpl. unfold one_flush.
    by destruct (advance_fields dt w) as (_ & -> & -> & -> & _ & _ & _ & _ & -> & _).
Qed.

Lemma one_flush_run (es : list (Event Value)) (w : World) :
  _immediateFlush w = false → one_flush w →
  _immediateFlush (run w es) = false ∧ one_flush (run w es).
Proof.
  revert w. induction es as [|e es IH]; intros w Him Hinv; [done|].
  rewrite run_cons. destruct (one_flush_step w e Him Hinv) as [Him' Hinv'].
  by apply IH.
Qed.

Lemma createState_deferred (initialState : Ref) (objects : list Obj) (h : Host unit) :
  pending h = [] →
  let w := (createState initialState false objects h).1 in
  _immediateFlush w = false ∧ one_flush w.
Proof.
  intros Hp w. subst w. unfold StateStore.createState.
  rewrite markDirty_deferred by done. simpl. split; [done|].
  left. split; [done|]. simpl. rewrite Hp. by eexists.
Qed.

Lemma settled_step (w : World) (e : Event Value) :
  _immediateFlush w = true → settled w →
  _immediateFlush (step w e) = true ∧ settled (step w e) ∧ host (step w e) = host w.
Proof.
  intros Him (Hd & Hq & Hp). destruct e as [n ks|n|patch sub| |c|dt].
  - simpl. unfold settled.
    by destruct (subscribe_promises (UserCb n) ks w)
      as (_ & _ & _ & _ & _ & _ & -> & _ & -> & -> & ->).
  - simpl. unfold settled, unsubscribe. by destruct (find_subscriber _ w).
  - rewrite step_SetState.
    set (w0 := set_heap (heap w ++ [patch]) w).
    destruct (setState_fields (length (heap w)) (UserCb <$> sub) w0)
      as (_ & _ & Ec & Ed & Ei & Eh).
    rewrite markDirty_immediate in Ec, Ed, Ei, Eh by done.
    unfold settled. rewrite Ec, Ed, Ei, Eh. clear Ec Ed Ei Eh.
    match goal with
    | |- context [StateStore.tick _ _ _ ?x] =>
        by destruct (tick_fields undefined loose_neq user_code x)
          as (_ & _ & _ & -> & -> & -> & _ & -> & _)
    end.
  - done.
  - simpl. unfold fire. by rewrite Hp.
  - simpl. unfold settled.
    by destruct (advance_fields dt w) as (_ & -> & -> & -> & _ & _ & _ & _ & -> & _).
Qed.

Lemma settled_run (es : list (Event Value)) (w : World) :
  _immediateFlush w = true → settled w →
  _immediateFlush (run w es) = true ∧ settled (run w es) ∧ host (run w es) = host w.
Proof.
  revert w. induction es as [|e es IH]; intros w Him Hinv; [done|].
  rewrite run_cons. destruct (settled_step w e Him Hinv) as (Him' & Hinv' & <-).
  by apply IH.
Qed.

Lemma createState_immediate (initialState : Ref) (objects : list Obj) (h : Host unit) :
  pending h = [] →
  let w := (createState initialState true objects h).1 in
  _immediateFlush w = true ∧ settled w ∧ host w = h.
Proof.
  intros Hp w. subst w. unfold StateStore.createState.
  rewrite markDirty_immediate by done. unfold settled.
  by destruct (tick_fields undefined loose_neq user_code
              (set__dirty true (mkWorld initialState [] false true [] [] objects 0 h 0 [] [] [])))
    as (_ & _ & _ & -> & -> & -> & _ & -> & _).
Qed.

(** The host runs the one flush that is booked. *)
Lemma booked_frame (w : World) (c : Handle) :
  pending (host w) = [(c, tt)] →
  _stateChanges (step w (Frame c)) = []
  ∧ pending (host (step w (Frame c))) = []
  ∧ _dirty (step w (Frame c)) = false.
Proof.
  intros Hp. simpl. unfold fire. rewrite Hp. simpl. rewrite decide_True by done. simpl.
  destruct (tick_fields undefined loose_neq user_code (set_host (cancel c (host w)) w))
    as (_ & _ & _ & -> & -> & _ & _ & -> & _).
  split_and!; try done. simpl. rewrite Hp.
  by rewrite filter_cons_False by (simpl; intros Hn; by apply Hn).
Qed.

(** [setState] on an immediate store with nothing waiting: the state is a
    new object, the old one overwritten by the patch. *)
Lemma immediate_setState_state (w : World) (patch : Obj) (sub : option nat) :
  _immediateFlush w = true → settled w → _state w < length (heap w) →
  let w' := step w (SetState patch sub) in
  deref w' (_state w') = patch ∪ deref w (_state w)
  ∧ length (heap w) < _state w'.
Proof.
  intros Him (Hd & Hq & _) Hst w'. subst w'. rewrite step_SetState.
  set (w0 := set_heap (heap w ++ [patch]) w).
  destruct (setState_fields (length (heap w)) (UserCb <$> sub) w0)
    as (Es & Eh & _).
  rewrite markDirty_immediate in Es, Eh by done.
  rewrite Es. erewrite deref_same_heap by exact Eh.
  rewrite tick_deref_state.
  match goal with
  | |- context [StateStore.tick _ _ _ ?x] =>
      destruct (tick_fields undefined loose_neq user_code x) as (-> & _);
      pose proof (flushed_state_fresh x) as [Hfresh _]
  end.
  split.
  - cbn [_state _stateChanges set__dirty set__stateChanges set_heap w0].
    rewrite Hq. cbn [app fmap list_fmap foldl].
    rewrite assign_from_union. f_equal.
    + unfold deref. subst w0. cbn [heap set__dirty set__stateChanges set_heap].
      by rewrite list_lookup_middle.
    + unfold deref. subst w0. cbn [heap set__dirty set__stateChanges set_heap].
      by rewrite lookup_app_l.
  - revert Hfresh. subst w0. cbn [heap set__dirty set__stateChanges set_heap].
    rewrite length_app. cbn [length]. lia.
Qed.

(** X6. In a host that has [requestAnimationFrame], with callbacks that
    reach the store through unsubscribe closures only (they may throw): a
    deferred store, whatever the program and the host do to it, has at most
    one flush booked with the host, and one is booked exactly while the
    dirty flag is up; patches wait only while a flush is booked, and when
    the host runs it none is left waiting and nothing stays booked.  Until
    then [setState] only queues: [getState] still returns the old object. *)
Theorem X6_deferred_store_keeps_one_flush_booked_while_patches_wait
    (initialState : Ref) (objects : list Obj) (idle : bool) (first_id : nat)
    (es : list (Event Value)) :
  let w := run (createState initialState false objects (mkHost idle true first_id [])).1
               es in
  length (pending (host w)) ≤ 1
  ∧ (_dirty w = true ↔ length (pending (host w)) = 1)
  ∧ (_stateChanges w ≠ [] → _dirty w = true)
  ∧ (∀ c, c ∈ (pending (host w)).*1 →
       _stateChanges (step w (Frame c)) = []
       ∧ pending (host (step w (Frame c))) = []
       ∧ _dirty (step w (Frame c)) = false)
  ∧ (∀ patch sub,
       getState (step w (SetState patch sub)) = getState w
       ∧ _stateChanges (step w (SetState patch sub))
         = _stateChanges w ++ [length (heap w)]).
Proof.
  intros w.
  destruct (createState_deferred initialState objects (mkHost idle true first_id [])
              eq_refl) as [Him0 Hinv0].
  destruct (one_flush_run es _ Him0 Hinv0) as [Him Hinv]. fold w in Him, Hinv.
  split_and!.
  - destruct Hinv as [(_ & c & ->)|(_ & -> & _)]; simpl; lia.
  - destruct Hinv as [(-> & c & ->)|(-> & -> & _)]; simpl; split; done.
  - intros Hq. destruct Hinv as [(-> & _)|(_ & _ & Hq')]; done.
  - intros c Hc. destruct Hinv as [(_ & c' & Hp)|(_ & Hp & _)]; rewrite Hp in Hc.
    + apply list_elem_of_singleton in Hc. simpl in Hc. subst c'.
      by apply booked_frame.
    + by apply not_elem_of_nil in Hc.
  - intros patch sub. rewrite step_SetState. unfold getState.
    by destruct (setState_deferred undefined loose_neq user_code (length (heap w))
                   (UserCb <$> sub) (set_heap (heap w ++ [patch]) w) Him)
      as (-> & _ & -> & _).
Qed.

(** X7. An immediate store whose callbacks reach it through unsubscribe
    closures only (they may throw) books nothing with the host and leaves no
    patch waiting: when [setState(patch)] is left, by return or by the
    exception of a callback, the state is a new object that has the patch's
    value at each key of the patch and the previous state's value at every
    other key. *)
Theorem X7_immediate_store_applies_each_patch_inside_setState
    (initialState : Ref) (objects : list Obj) (idle frame : bool) (first_id : nat)
    (es : list (Event Value)) (patch : Obj) (sub : option nat) :
  initialState < length objects →
  let h := mkHost idle frame first_id [] in
  let w := run (createState initialState true objects h).1 es in
  let w' := step w (SetState patch sub) in
  host w = h ∧ _dirty w = false ∧ _stateChanges w = []
  ∧ deref w' (getState w') = patch ∪ deref w (getState w)
  ∧ (∀ k v, patch !! k = Some v → get (deref w' (getState w')) k = v)
  ∧ (∀ k, patch !! k = None →
          get (deref w' (getState w')) k = get (deref w (getState w)) k)
  ∧ getState w' ≠ getState w
  ∧ _stateChanges w' = [] ∧ host w' = h.
Proof.
  intros Hi h w w'.
  destruct (createState_immediate initialState objects h eq_refl) as (Him0 & Hinv0 & Hh0).
  destruct (settled_run es _ Him0 Hinv0) as (Him & Hinv & Hh). fold w in Him, Hinv, Hh.
  assert (Hw : wf w).
  { apply run_wf. by apply createState_wf. }
  destruct (immediate_setState_state w patch sub Him Hinv (wf_state w Hw))
    as [Hderef Hfresh].
  fold w' in Hderef, Hfresh.
  destruct (settled_step w (SetState patch sub) Him Hinv) as (_ & (_ & Hq' & _) & Hh').
  fold w' in Hq', Hh'. unfold getState.
  destruct Hinv as (Hd & Hq & _). rewrite Hh0 in Hh. rewrite Hh in Hh'.
  split_and!; try done.
  - intros k v Hk. unfold StateStore.get. rewrite Hderef.
    by rewrite (lookup_union_Some_l _ _ _ _ Hk).
  - intros k Hk. unfold StateStore.get. rewrite Hderef. by rewrite lookup_union_r.
  - pose proof (wf_state w Hw). lia.
Qed.

(** *** Which subscribers a flush calls *)

Lemma changed_loop_true (prev new : Obj) (ks : list string) :
  changed_loop undefined loose_neq prev new ks = true
  ↔ ∃ k, k ∈ ks ∧ loose_neq (get prev k) (get new k) = true.
Proof.
  induction ks as [|k ks IH]; simpl.
  - split; [done|]. intros (k & Hk & _). by apply not_elem_of_nil in Hk.
  - destruct (loose_neq (get prev k) (get new k)) eqn:Hn.
    + split; [|done]. intros _. exists k. split; [apply list_elem_of_here|done].
    + rewrite IH. split.
      * intros (k' & Hk' & Hc). exists k'. split; [by apply list_elem_of_further|done].
      * intros (k' & Hk' & Hc). apply elem_of_cons in Hk' as [->|Hk']; [congruence|].
        eauto.
Qed.

Lemma invoked_iff_gate (w : World) (ret : SubscriberMeta) :
  wf w → no_throw → ret ∈ _subscribers w → ret ∉ _removedSubscribers w →
  subscriber ret ∈ invoked_by_tick w
  ↔ gate (_state w) (_state (flushed w)) (flushed w) ret = true.
Proof.
  intros Hw Hn Hin Hnr.
  pose proof (live_elem w ret Hw Hin Hnr) as Hlive.
  rewrite (invoked_by_tick_eq undefined loose_neq user_code w Hn).
  split.
  - intros Hm. apply list_elem_of_fmap in Hm as (r & Hsub & Hr).
    apply list_elem_of_In, List.filter_In in Hr as [Hr Hg].
    apply list_elem_of_In in Hr.
    replace ret with r; [done|].
    eapply (NoDup_fmap_eq subscriber); [apply (wf_callbacks w Hw)| |done|done].
    by apply live_sub.
  - intros Hg. apply list_elem_of_fmap. exists ret. split; [done|].
    apply list_elem_of_In, List.filter_In. split; [by apply list_elem_of_In|done].
Qed.

Lemma gate_keyed (w : World) (ret : SubscriberMeta) (ks : list string) :
  _state w < length (heap w) → keys ret = Some ks →
  gate (_state w) (_state (flushed w)) (flushed w) ret
  = changed_loop undefined loose_neq (deref w (_state w))
      (deref (tick w).1 (_state (tick w).1)) ks.
Proof.
  intros Hst Hk. unfold gate. rewrite Hk. unfold isStateChangedWithKeys.
  pose proof (flushed_state_fresh w) as [Hfresh _].
  rewrite decide_False by lia.
  destruct (tick_fields undefined loose_neq user_code w) as (Es & Eh & _).
  case_decide as Hl.
  - by destruct ks.
  - rewrite (flushed_deref_old w) by done.
    by rewrite Es, (deref_same_heap (flushed w) _ _ Eh).
Qed.

Lemma invoked_with_new_state (w : World) (c : Callback) :
  no_throw → c ∈ invoked_by_tick w → (c, _state (tick w).1) ∈ calls (tick w).1.
Proof.
  intros Hn Hc. rewrite (invoked_by_tick_eq undefined loose_neq user_code w Hn) in Hc.
  destruct (tick_calls undefined loose_neq user_code w Hn) as [_ ->].
  destruct (tick_fields undefined loose_neq user_code w) as (-> & _).
  apply elem_of_app. right. unfold notified.
  apply list_elem_of_fmap in Hc as (ret & -> & Hret).
  apply list_elem_of_fmap. by exists ret.
Qed.


(** *** A callback that throws *)

Lemma run_actions_throws (acts : list Action) (w : World) :
  (run_actions acts w).2 = bool_decide (Throw ∈ acts).
Proof.
  revert w. induction acts as [|[n|] acts IH]; intros w; cbn [run_actions snd].
  - symmetry. apply bool_decide_eq_false_2, not_elem_of_nil.
  - rewrite IH. apply bool_decide_ext. rewrite elem_of_cons. split; [by right|by intros [?|?]].
  - symmetry. apply bool_decide_eq_true_2, list_elem_of_here.
Qed.

Lemma invoke_throws (c : Callback) (s : Ref) (w : World) :
  (invoke c s w).2 = throws c.
Proof.
  unfold StateStore.invoke. destruct c as [n|p]; [|done]. apply run_actions_throws.
Qed.

Lemma forEach_until_throw (subs : list SubscriberMeta) (s prev : Ref) (w : World) :
  let due := subscriber <$> List.filter (gate prev s w) subs in
  (forEach subs s prev w).2 = existsb (throws) due
  ∧ calls (forEach subs s prev w).1
    = calls w ++ ((λ c, (c, s)) <$> until_throw due).
Proof.
  revert w. induction subs as [|ret subs IH]; intros w.
  - simpl. by rewrite app_nil_r.
  - cbv zeta. rewrite forEach_cons. simpl.
    destruct (gate prev s w ret) eqn:Hg; [|apply IH].
    rewrite fmap_cons. simpl. rewrite invoke_throws.
    destruct (throws (subscriber ret)) eqn:Ht; simpl.
    + by rewrite invoke_calls.
    + destruct (IH (invoke (subscriber ret) s w).1)
        as (Hth & Hc).
      rewrite Hth, Hc, invoke_calls, <- app_assoc. simpl.
      rewrite (List.filter_ext _ (gate prev s w)); [done|].
      intros r. apply gate_heap, invoke_heap.
Qed.

Lemma until_throw_first (pre post : list Callback) (c : Callback) :
  throws c = true → forallb (λ x, negb (throws x)) pre = true →
  until_throw (pre ++ c :: post) = pre ++ [c]
  ∧ existsb (throws) (pre ++ c :: post) = true.
Proof.
  intros Hc. induction pre as [|x pre IH]; simpl; intros Hpre.
  - by rewrite Hc.
  - apply andb_true_iff in Hpre as [Hx Hpre]. apply negb_true_iff in Hx.
    rewrite Hx. simpl. destruct (IH Hpre) as (-> & ->). done.
Qed.


(** *** After [dispose] *)

Lemma forEach_lookup_unregistered (subs : list SubscriberMeta) (s prev : Ref)
    (w : World) (p : nat) :
  WrapperCb p ∉ subscriber <$> subs →
  promises (forEach subs s prev w).1 !! p = promises w !! p.
Proof.
  revert w. induction subs as [|ret subs IH]; intros w Hp; [done|].
  rewrite fmap_cons in Hp. apply not_elem_of_cons in Hp as [Hne Hp].
  rewrite forEach_cons. destruct (gate prev s w ret); [|by apply IH].
  destruct (invoke (subscriber ret) s w).2.
  - simpl. apply invoke_lookup_other. congruence.
  - rewrite IH by done. apply invoke_lookup_other. congruence.
Qed.

Lemma tick_lookup_unregistered (w : World) (p : nat) :
  WrapperCb p ∉ subscriber <$> _subscribers w →
  promises (tick w).1 !! p = promises w !! p.
Proof.
  intros Hp. rewrite tick_eq, notify_eq, forEach_lookup_unregistered.
  - destruct (pruned_fields (flushed w)) as (_&_&_&_&_&_&_&_&_&->&_).
    by destruct (flushed_fields w) as (_&_&_&_&_&_&_&->&_).
  - rewrite live_flushed. intros Hin. apply Hp.
    eapply elem_of_sublist; [exact Hin|]. apply fmap_sublist, live_sublist.
Qed.

Lemma markDirty_lookup_unregistered (w : World) (p : nat) :
  WrapperCb p ∉ subscriber <$> _subscribers w →
  promises (markDirty w).1 !! p = promises w !! p.
Proof.
  intros Hp. unfold StateStore.markDirty. destruct (_dirty w); [done|]. simpl.
  destruct (_immediateFlush w); [|done].
  by rewrite tick_lookup_unregistered.
Qed.

(** A promise whose wrapper is not registered is out of the store's reach:
    only its timer can settle it. *)
Lemma orphan_step (w : World) (e : Event Value) (p : nat) :
  WrapperCb p ∉ subscriber <$> _subscribers w → p < length (promises w) →
  unfulfilled p w →
  (WrapperCb p ∉ subscriber <$> _subscribers (step w e))
  ∧ p < length (promises (step w e))
  ∧ unfulfilled p (step w e).
Proof.
  intros Hreg Hlt Hun. destruct e as [n ks|n|patch sub| |c|dt].
  - simpl. unfold unfulfilled.
    destruct (subscribe_promises (UserCb n) ks w) as (-> & _).
    split_and!; try done.
    intros Hin. by apply subscribe_subscribers in Hin as [Hin|[=]].
  - simpl. unfold unfulfilled.
    destruct (unsubscribe_fields (UserCb n) w) as (_ & _ & ->).
    by destruct (unsubscribe_effect (UserCb n) w) as [-> _].
  - rewrite step_SetState. unfold StateStore.setState.
    set (w0 := set__stateChanges _ _).
    assert (Hreg0 : WrapperCb p ∉ subscriber <$> _subscribers w0) by done.
    pose proof (markDirty_lookup_unregistered w0 p Hreg0) as Hl.
    destruct (markDirty_not_registered undefined loose_neq user_code _ w0 Hreg0)
      as [_ Hreg1].
    destruct (markDirty_env undefined loose_neq user_code w0) as (_ & Hlen & _).
    change (promises w0) with (promises w) in Hl, Hlen.
    destruct (markDirty w0) as [w1 threw]. simpl in Hl, Hreg1, Hlen.
    unfold unfulfilled in *.
    destruct threw; [simpl; rewrite Hl, Hlen; done|].
    destruct sub as [m|]; simpl.
    + destruct (subscribe_promises (UserCb m) None w1) as (-> & _).
      rewrite Hl, Hlen. split_and!; try done.
      intros Hin. by apply subscribe_subscribers in Hin as [Hin|[=]].
    + unfold createSubscribeWrapper. simpl.
      destruct (subscribe_promises (WrapperCb (length (promises w1))) None
                  (set_promises (promises w1 ++ [Pending]) w1)) as (-> & _).
      simpl. rewrite length_app, lookup_app_l, Hl by lia. split_and!; [|lia|done].
      intros Hin. apply subscribe_subscribers in Hin as [Hin|[= ->]]; [done|lia].
  - simpl. split_and!; [apply not_elem_of_nil|done|done].
  - simpl. destruct (fire c (host w)) as [[[] h']|]; [|done].
    assert (Hreg0 : WrapperCb p ∉ subscriber <$> _subscribers (set_host h' w)) by done.
    destruct (tick_not_registered undefined loose_neq user_code _ _ Hreg0) as [_ Hreg1].
    pose proof (tick_lookup_unregistered (set_host h' w) p Hreg0) as Hl.
    unfold unfulfilled. rewrite Hl.
    by rewrite (tick_promises_length undefined loose_neq user_code).
  - split_and!.
    + simpl. by destruct (advance_fields dt w) as (_&_&_&_&->&_).
    + simpl. by destruct (advance_fields dt w) as (_&_&_&_&_&_&_&_&_&_&_&->).
    + by apply step_unfulfilled.
Qed.

Lemma orphan_run (es : list (Event Value)) (w : World) (p : nat) :
  WrapperCb p ∉ subscriber <$> _subscribers w → p < length (promises w) →
  unfulfilled p w → unfulfilled p (run w es).
Proof.
  revert w. induction es as [|e es IH]; intros w Hreg Hlt Hun; [done|].
  rewrite run_cons. destruct (orphan_step w e p Hreg Hlt Hun) as (? & ? & ?).
  by apply IH.
Qed.


(** *** The callback form of [setState] *)

Lemma unsubscribe_not_marked (c c' : Callback) (w : World) :
  c ≠ c' → c' ∉ subscriber <$> _removedSubscribers w →
  c' ∉ subscriber <$> _removedSubscribers (unsubscribe c w).
Proof.
  intros Hne Hc. destruct (unsubscribe_effect c w) as [_ ->].
  rewrite fmap_app, elem_of_app. intros [Hin|Hin]; [done|].
  destruct (find_subscriber c w) as [found|] eqn:Hf; simpl in Hin.
  - apply list_elem_of_singleton in Hin.
    apply find_subscriber_Some in Hf as [_ Hs]. congruence.
  - by apply not_elem_of_nil in Hin.
Qed.

Lemma run_actions_not_marked (acts : list Action) (w : World) (n : nat) :
  CallUnsubscribe n ∉ acts → UserCb n ∉ subscriber <$> _removedSubscribers w →
  UserCb n ∉ subscriber <$> _removedSubscribers (run_actions acts w).1.
Proof.
  revert w. induction acts as [|[d|] acts IH]; intros w Hn Hc; simpl; [done| |done].
  apply not_elem_of_cons in Hn as [Hd Hn].
  apply IH; [done|]. apply unsubscribe_not_marked; [congruence|done].
Qed.

Lemma invoke_not_marked (c : Callback) (s : Ref) (w : World) (n : nat) :
  (∀ m, CallUnsubscribe n ∉ user_code m) →
  UserCb n ∉ subscriber <$> _removedSubscribers w →
  UserCb n ∉ subscriber <$> _removedSubscribers (invoke c s w).1.
Proof.
  intros Hn Hc. unfold StateStore.invoke. destruct c as [m|p].
  - by apply run_actions_not_marked.
  - simpl. apply unsubscribe_not_marked; [done|].
    by destruct (settle_calls p (Fulfilled s)
      (clearTimeout p (set_calls (calls w ++ [(WrapperCb p, s)]) w))) as (_ & _ & ->).
Qed.

Lemma tick_not_marked (w : World) (n : nat) :
  (∀ m, CallUnsubscribe n ∉ user_code m) →
  UserCb n ∉ subscriber <$> _removedSubscribers (tick w).1.
Proof.
  intros Hn. rewrite tick_eq, notify_eq.
  apply (forEach_rel undefined loose_neq user_code
           (λ w1 w2, UserCb n ∉ subscriber <$> _removedSubscribers w1 →
                     UserCb n ∉ subscriber <$> _removedSubscribers w2)).
  - done.
  - intros w1 w2 w3 H12 H23 H1. by apply H23, H12.
  - intros c w0. by apply invoke_not_marked.
  - rewrite pruned_removed. apply not_elem_of_nil.
Qed.

(** A keyless record that nobody unsubscribes is called by every flush and
    is still there afterwards. *)
Lemma keyless_tick (w : World) (n : nat) (ret : SubscriberMeta) :
  wf w → no_throw → (∀ m, CallUnsubscribe n ∉ user_code m) →
  ret ∈ _subscribers w → ret ∉ _removedSubscribers w →
  subscriber ret = UserCb n → keys ret = None →
  UserCb n ∈ invoked_by_tick w
  ∧ wf (tick w).1 ∧ ret ∈ _subscribers (tick w).1
  ∧ (ret ∉ _removedSubscribers (tick w).1).
Proof.
  intros Hw Hn Hun Hin Hnr Hs Hk. split_and!.
  - rewrite <- Hs. apply invoked_iff_gate; try done.
    unfold StateStore.gate. by rewrite Hk.
  - by apply tick_wf.
  - destruct (tick_fields undefined loose_neq user_code w) as (_ & _ & -> & _).
    by apply live_elem.
  - intros Hr. apply (tick_not_marked w n Hun).
    apply list_elem_of_fmap. by exists ret.
Qed.

Lemma keyless_ticks (k : nat) (w : World) (n : nat) (ret : SubscriberMeta) :
  wf w → no_throw → (∀ m, CallUnsubscribe n ∉ user_code m) →
  ret ∈ _subscribers w → ret ∉ _removedSubscribers w →
  subscriber ret = UserCb n → keys ret = None →
  UserCb n ∈ invoked_by_tick (Nat.iter k (λ w, (tick w).1) w).
Proof.
  intros Hw Hn Hun Hin Hnr Hs Hk.
  assert (Hall : wf (Nat.iter k (λ w, (tick w).1) w)
                 ∧ ret ∈ _subscribers (Nat.iter k (λ w, (tick w).1) w)
                 ∧ (ret ∉ _removedSubscribers (Nat.iter k (λ w, (tick w).1) w))).
  { induction k as [|k IH]; [done|]. simpl. destruct IH as (Hw' & Hin' & Hnr').
    by destruct (keyless_tick _ n ret Hw' Hn Hun Hin' Hnr' Hs Hk) as (_ & ? & ? & ?). }
  destruct Hall as (Hw' & Hin' & Hnr').
  by destruct (keyless_tick _ n ret Hw' Hn Hun Hin' Hnr' Hs Hk) as (? & _).
Qed.

Lemma subscribe_keeps_records (c : Callback) (ks : option (list string)) (w : World)
    (ret : SubscriberMeta) :
  ret ∈ _subscribers w → ret ∈ _subscribers (subscribe c ks w).
Proof.
  intros Hin. unfold subscribe. destruct (find_subscriber c w); [done|].
  simpl. apply elem_of_app. by left.
Qed.

Lemma subscribe_subscribed_keyless (c : Callback) (ks : option (list string)) (w : World)
    (n : nat) :
  subscribed_keyless n w → subscribed_keyless n (subscribe c ks w).
Proof.
  intros [(ret & Hin & Hs & Hk) Hnr]. split.
  - exists ret. split_and!; [by apply subscribe_keeps_records|done..].
  - by destruct (subscribe_promises c ks w) as (_&_&_&_&_&_&_&->&_).
Qed.

Lemma tick_subscribed_keyless (w : World) (n : nat) :
  wf w → no_throw → (∀ m, CallUnsubscribe n ∉ user_code m) →
  subscribed_keyless n w →
  UserCb n ∈ invoked_by_tick w ∧ subscribed_keyless n (tick w).1.
Proof.
  intros Hw Hn Hun [(ret & Hin & Hs & Hk) Hnr].
  assert (Hnr' : ret ∉ _removedSubscribers w).
  { intros Hr. apply Hnr. apply list_elem_of_fmap. by exists ret. }
  destruct (keyless_tick w n ret Hw Hn Hun Hin Hnr' Hs Hk) as (Hinv & _ & Hin' & _).
  split; [done|]. split.
  - by exists ret.
  - by apply tick_not_marked.
Qed.

Lemma markDirty_subscribed_keyless (w : World) (n : nat) :
  wf w → no_throw → (∀ m, CallUnsubscribe n ∉ user_code m) →
  subscribed_keyless n w → subscribed_keyless n (markDirty w).1.
Proof.
  intros Hw Hn Hun Hk. unfold StateStore.markDirty. destruct (_dirty w); [done|].
  simpl. destruct (_immediateFlush w); [|done].
  apply tick_subscribed_keyless; try done. by apply set__dirty_wf.
Qed.

(** No event but its own unsubscription and [dispose] ends the
    subscription. *)
Lemma step_subscribed_keyless (w : World) (e : Event Value) (n : nat) :
  wf w → no_throw → (∀ m, CallUnsubscribe n ∉ user_code m) →
  keeps n e = true → subscribed_keyless n w → subscribed_keyless n (step w e).
Proof.
  intros Hw Hn Hun He Hk. destruct e as [m ks|m|patch sub| |h|dt]; simpl in *.
  - by apply subscribe_subscribed_keyless.
  - apply bool_decide_eq_true in He. destruct Hk as [Hreg Hnr]. split.
    + by destruct (unsubscribe_effect (UserCb m) w) as [-> _].
    + apply unsubscribe_not_marked; [congruence|done].
  - unfold StateStore.setState.
    set (w0 := set__stateChanges _ _).
    assert (Hw0 : wf w0).
    { apply push_patch_wf; [|by apply (alloc_wf patch w)].
      simpl. rewrite length_app. simpl. lia. }
    assert (Hk0 : subscribed_keyless n w0) by done.
    pose proof (markDirty_subscribed_keyless w0 n Hw0 Hn Hun Hk0) as Hk1.
    destruct (markDirty w0) as [w1 threw]. simpl in Hk1.
    destruct threw; [done|]. destruct sub as [m|]; simpl.
    + by apply subscribe_subscribed_keyless.
    + unfold createSubscribeWrapper.
      by apply (subscribe_subscribed_keyless (WrapperCb (length (promises w1))) None
                  (set_promises (promises w1 ++ [Pending]) w1)).
  - done.
  - destruct (fire h (host w)) as [[[] h']|]; [|done].
    apply tick_subscribed_keyless; try done. by apply set_host_wf.
  - destruct Hk as [Hreg Hnr].
    destruct (advance_fields dt w) as (_&_&_&_&Hs&Hr&_).
    split; [by rewrite Hs|by rewrite Hr].
Qed.

Lemma run_subscribed_keyless (es : list (Event Value)) (w : World) (n : nat) :
  wf w → no_throw → (∀ m, CallUnsubscribe n ∉ user_code m) →
  forallb (keeps n) es = true → subscribed_keyless n w →
  subscribed_keyless n (run w es).
Proof.
  intros Hw Hn Hun. revert w Hw. induction es as [|e es IH]; intros w Hw Hes Hk; [done|].
  simpl in Hes. apply andb_true_iff in Hes as [He Hes]. rewrite run_cons.
  apply IH; [by apply step_wf|done|]. by apply step_subscribed_keyless.
Qed.

(** X10. The callback passed to [setState(patch, callback)], when it is not
    registered yet, is not a completion callback for that call but a
    subscriber without keys that stays.  [setState] itself does not call it
    (on an immediate store the flush of its own patch runs before it is
    registered).  After that, whatever the program and the host do short of
    calling its unsubscribe closure or [dispose], and with callbacks that
    reach the store through unsubscribe closures of other callbacks only
    and do not throw, it is registered without keys, a flush of the store
    calls it, and so does every booked flush the host runs and every
    [setState] that flushes at once. *)
Theorem X10_callback_passed_to_setState_stays_subscribed
    (w : World) (patch : Obj) (n : nat) (es : list (Event Value)) :
  wf w → no_throw → (∀ m, CallUnsubscribe n ∉ user_code m) →
  UserCb n ∉ subscriber <$> _subscribers w →
  forallb (keeps n) es = true →
  let w1 := step w (SetState patch (Some n)) in
  let w2 := run w1 es in
  calls_of (UserCb n) w1 = calls_of (UserCb n) w
  ∧ subscribed_keyless n w2
  ∧ UserCb n ∈ invoked_by_tick w2
  ∧ (∀ c, c ∈ (pending (host w2)).*1 →
          UserCb n ∈ called_since w2 (step w2 (Frame c)))
  ∧ (_immediateFlush w2 = true → _dirty w2 = false →
     ∀ patch' sub, UserCb n ∈ called_since w2 (step w2 (SetState patch' sub))).
Proof.
  intros Hw Hn Hun Hreg Hes w1 w2.
  assert (Hw1 : wf w1) by (by apply step_wf).
  assert (Hfirst : calls_of (UserCb n) w1 = calls_of (UserCb n) w
                   ∧ subscribed_keyless n w1).
  { subst w1. clear Hw1 w2. rewrite step_SetState. unfold StateStore.setState.
    set (w0 := set__stateChanges _ _).
    assert (Hw0 : wf w0).
    { apply push_patch_wf; [|by apply (alloc_wf patch w)].
      simpl. rewrite length_app. simpl. lia. }
    assert (Hreg0 : UserCb n ∉ subscriber <$> _subscribers w0) by done.
    destruct (markDirty_not_registered undefined loose_neq user_code _ w0 Hreg0)
      as [Hcalls Hreg1].
    change (calls_of (UserCb n) w0) with (calls_of (UserCb n) w) in Hcalls.
    pose proof (markDirty_wf undefined loose_neq user_code w0 Hw0) as Hwm.
    destruct (markDirty_env undefined loose_neq user_code w0) as (_ & _ & _ & Hth).
    specialize (Hth Hn).
    destruct (markDirty w0) as [wm threw]. simpl in Hcalls, Hreg1, Hwm, Hth. subst threw.
    simpl.
    destruct (subscribe_new (UserCb n) None wm Hreg1) as (ret & Hsubs & Hs & _ & Hk).
    split; [|split].
    - unfold calls_of in *.
      by destruct (subscribe_promises (UserCb n) None wm) as (_&_&_&_&->&_).
    - exists ret. split_and!; [|done..].
      rewrite Hsubs. apply elem_of_app. right. apply list_elem_of_here.
    - destruct (subscribe_promises (UserCb n) None wm) as (_&_&_&_&_&_&_&->&_).
      intros Hr. apply Hreg1. apply list_elem_of_fmap in Hr as (r & Hr & Hin).
      apply list_elem_of_fmap. exists r. split; [done|]. by apply (wf_removed wm Hwm). }
  destruct Hfirst as [Hcalls Hk1].
  assert (Hw2 : wf w2) by (by apply run_wf).
  assert (Hk2 : subscribed_keyless n w2) by (by apply run_subscribed_keyless).
  split_and!; [done|done| | |].
  - by apply tick_subscribed_keyless.
  - intros c Hc. unfold called_since. cbn [step].
    destruct (fire c (host w2)) as [[[] h']|] eqn:Hf.
    + apply (tick_subscribed_keyless (set_host h' w2) n); try done.
      by apply set_host_wf.
    + exfalso. unfold fire in Hf.
      destruct (list_find (λ e, e.1 = c) (pending (host w2))) as [[i [c' t]]|] eqn:Hl;
        [done|].
      apply list_elem_of_fmap in Hc as ([c0 t0] & -> & Hin).
      eapply (list_find_None (λ e, e.1 = c0)) in Hl.
      by eapply Forall_forall in Hl; [|exact Hin].
  - intros Him Hd patch' sub. unfold called_since. rewrite step_SetState.
    unfold StateStore.setState.
    set (w0 := set__stateChanges _ _).
    assert (Hw0 : wf (set__dirty true w0)).
    { apply set__dirty_wf, push_patch_wf; [|by apply (alloc_wf patch' w2)].
      simpl. rewrite length_app. simpl. lia. }
    assert (Hk0 : subscribed_keyless n (set__dirty true w0)) by done.
    destruct (tick_subscribed_keyless _ n Hw0 Hn Hun Hk0) as [Hinv _].
    unfold invoked_by_tick in Hinv.
    unfold StateStore.markDirty. change (_dirty w0) with (_dirty w2). rewrite Hd.
    change (_immediateFlush (set__dirty true w0)) with (_immediateFlush w2). rewrite Him.
    change (length (calls w2)) with (length (calls (set__dirty true w0))).
    destruct (tick (set__dirty true w0)) as [wt threw]. simpl in Hinv.
    destruct threw; [done|]. destruct sub as [m|]; simpl.
    + by destruct (subscribe_promises (UserCb m) None wt) as (_&_&_&_&->&_).
    + by destruct (subscribe_promises (WrapperCb (length (promises wt))) None
                     (set_promises (promises wt ++ [Pending]) wt)) as (_&_&_&_&->&_).
Qed.


End WithValues.

Lemma X7_witness :
  0 < length [count_0]
  ∧ host (run JsUndefined js_loose_neq quiet
            (createState JsUndefined js_loose_neq quiet 0 true [count_0]
               (mkHost true true 0 [])).1
            [Subscribe 1 None])
    = mkHost true true 0 [].
Proof.
  assert (H0 : 0 < length [count_0]) by (simpl; lia).
  split; [exact H0|].
  exact (proj1 (X7_immediate_store_applies_each_patch_inside_setState
                  JsUndefined js_loose_neq quiet 0 [count_0] true true 0
                  [Subscribe 1 None] count_1 None H0)).
Defined.


Lemma X10_witness :
  wf (deferred_store quiet) ∧ no_throw quiet
  ∧ (∀ m, CallUnsubscribe 5 ∉ quiet m)
  ∧ (UserCb 5 ∉ subscriber <$> _subscribers (deferred_store quiet))
  ∧ forallb (keeps 5)
      [Subscribe 6 (Some ["count"]); Unsubscribe 6; Frame (mkHandle AnimationFrame 0);
       SetState foo_7 None] = true
  ∧ calls_of (UserCb 5)
      (step JsUndefined js_loose_neq quiet (deferred_store quiet)
         (SetState count_1 (Some 5)))
    = calls_of (UserCb 5) (deferred_store quiet).
Proof.
  assert (Hw : wf (deferred_store quiet)).
  { apply createState_wf. simpl. lia. }
  assert (Hun : ∀ m, CallUnsubscribe 5 ∉ quiet m).
  { intros m Hin. by apply not_elem_of_nil in Hin. }
  assert (Hreg : UserCb 5 ∉ subscriber <$> _subscribers (deferred_store quiet)).
  { apply not_elem_of_nil. }
  assert (Hes : forallb (keeps 5)
                  [Subscribe 6 (Some ["count"]); Unsubscribe 6;
                   Frame (mkHandle AnimationFrame 0); SetState foo_7 None] = true)
    by reflexivity.
  split_and!; [exact Hw|exact StoreClaims.quiet_no_throw|exact Hun|exact Hreg|exact Hes|].
  exact (proj1 (X10_callback_passed_to_setState_stays_subscribed
                  JsUndefined js_loose_neq quiet (deferred_store quiet) count_1 5
                  [Subscribe 6 (Some ["count"]); Unsubscribe 6;
                   Frame (mkHandle AnimationFrame 0); SetState foo_7 None]
                  Hw StoreClaims.quiet_no_throw Hun Hreg Hes)).
Defined.


End StoreExtras.

(** ** The event emitter *)

Module EmitterFacts.
Import EventEmitter.

Section WithData.
Context {Data : Type}.
Variable listener_code : nat → list Action.

Local Abbreviation World := (World Data).
Local Abbreviation forEach := (@forEach Data listener_code).
Local Abbreviation handler := (@handler Data listener_code).
Local Abbreviation dispatch := (@dispatch Data listener_code).
Local Abbreviation step := (@step Data listener_code).
Local Abbreviation run := (@run Data listener_code).

(** *** Arrays *)

Lemma array_set_array_eq (a : nat) (l : list CallbackItem) (w : World) :
  a < length (arrays w) → array a (set_array a l w) = l.
Proof. intros Ha. unfold array. simpl. by rewrite list_lookup_insert_eq. Qed.

Lemma array_set_array_ne (a b : nat) (l : list CallbackItem) (w : World) :
  a ≠ b → array b (set_array a l w) = array b w.
Proof. intros Hne. unfold array. simpl. by rewrite list_lookup_insert_ne. Qed.

Lemma array_push (a : nat) (l : list CallbackItem) (w : World) :
  a < length (arrays w) → array a (set_arrays (arrays w ++ [l]) w) = array a w.
Proof. intros Ha. unfold array. simpl. by rewrite lookup_app_l. Qed.

Lemma array_new (l : list CallbackItem) (w : World) :
  array (length (arrays w)) (set_arrays (arrays w ++ [l]) w) = l.
Proof. unfold array. simpl. by rewrite list_lookup_middle. Qed.

Lemma has_cb_true (c : nat) (l : list CallbackItem) :
  has_cb c l = true ↔ c ∈ cb <$> l.
Proof.
  unfold has_cb. rewrite existsb_exists, list_elem_of_fmap. split.
  - intros (item & Hin & Heq). apply Nat.eqb_eq in Heq.
    exists item. split; [done|]. by apply list_elem_of_In.
  - intros (item & -> & Hin). exists item. split; [by apply list_elem_of_In|].
    apply Nat.eqb_refl.
Qed.

Lemma filter_all {A : Type} (P : A → Prop) `{∀ x, Decision (P x)} (l : list A) :
  (∀ x, x ∈ l → P x) → filter P l = l.
Proof.
  induction l as [|x l IH]; intros Hall; [done|].
  rewrite filter_cons_True by apply Hall, list_elem_of_here.
  f_equal. apply IH. intros y Hy. by apply Hall, list_elem_of_further.
Qed.

(** With no function twice, removing the first item of a function removes
    the function. *)
Lemma findIndex_delete (c : nat) (l : list CallbackItem) :
  NoDup (cb <$> l) →
  match findIndex c l with
  | Some index => delete index l
  | None => l
  end = filter (λ item, cb item ≠ c) l.
Proof.
  unfold findIndex. induction l as [|x l IH]; intros Hnd; [done|].
  rewrite fmap_cons in Hnd. apply NoDup_cons in Hnd as [Hx Hnd].
  cbn [list_find]. destruct (decide (cb x = c)) as [Heq|Hne].
  - simpl. rewrite filter_cons_False by (intros Hn; by apply Hn).
    symmetry. apply filter_all. intros y Hy Hc. apply Hx. rewrite Heq, <- Hc.
    apply list_elem_of_fmap. by exists y.
  - rewrite filter_cons_True by done. rewrite <- (IH Hnd).
    destruct (list_find _ l) as [[i y]|]; simpl; done.
Qed.

(** *** Well-formed emitters *)

Lemma stored_lookup (type : string) (a : nat) (w : World) :
  storedCallbacks w !! type = Some a → stored type w = array a w.
Proof. intros Hm. unfold stored. by rewrite Hm. Qed.

Lemma stored_absent (type : string) (w : World) :
  storedCallbacks w !! type = None → stored type w = [].
Proof. intros Hm. unfold stored. by rewrite Hm. Qed.

Lemma stored_NoDup (type : string) (w : World) : wf w → NoDup (cb <$> stored type w).
Proof.
  intros Hw. unfold stored. destruct (storedCallbacks w !! type) as [a|] eqn:Hm.
  - by apply (wf_once w Hw type).
  - apply NoDup_nil_2.
Qed.

(** A well-formed emitter, from what is stored for each type. *)
Lemma wf_from_stored (w : World) :
  (∀ type a, storedCallbacks w !! type = Some a → type ∈ listening w) →
  (∀ type a, storedCallbacks w !! type = Some a → a < length (arrays w)) →
  (∀ t1 t2 a, storedCallbacks w !! t1 = Some a →
              storedCallbacks w !! t2 = Some a → t1 = t2) →
  (∀ type a, storedCallbacks w !! type = Some a →
             stored type w ≠ [] ∧ NoDup (cb <$> stored type w)) →
  wf w.
Proof.
  intros Hl Hv Ho Hs. constructor; try done.
  - intros type a Hm. rewrite <- (stored_lookup type a w Hm). by apply (Hs type a).
  - intros type a Hm. rewrite <- (stored_lookup type a w Hm). by apply (Hs type a).
Qed.

Lemma stored_register (wk : bool) (type : string) (c : nat) (w : World) (t : string) :
  wf w →
  stored t (register wk type c w)
  = if decide (t = type) then
      if has_cb c (stored type w) then stored type w
      else stored type w ++ [mkItem (next_item w) c wk]
    else stored t w.
Proof.
  intros Hw. unfold register.
  destruct (storedCallbacks w !! type) as [a|] eqn:Hm.
  - rewrite (stored_lookup type a w Hm).
    destruct (has_cb c (array a w)) eqn:Hc.
    + case_decide as Ht; [subst t; by apply stored_lookup|done].
    + unfold stored. cbn [storedCallbacks set_next_item set_array set_arrays].
      case_decide as Ht.
      * subst t. rewrite Hm.
        apply (array_set_array_eq a _ w), (wf_valid w Hw type a Hm).
      * destruct (storedCallbacks w !! t) as [b|] eqn:Hb; [|done].
        apply (array_set_array_ne a b _ w). intros ->.
        apply Ht. by apply (wf_own w Hw t type b).
  - rewrite (stored_absent type w Hm). cbn [has_cb existsb app].
    unfold stored. cbn [storedCallbacks set_listening set_storedCallbacks].
    case_decide as Ht.
    + subst t. rewrite lookup_insert_eq. apply (array_new _ w).
    + rewrite lookup_insert_ne by done.
      destruct (storedCallbacks w !! t) as [b|] eqn:Hb; [|done].
      apply (array_push b _ w), (wf_valid w Hw t b Hb).
Qed.

Lemma register_wf (wk : bool) (type : string) (c : nat) (w : World) :
  wf w → wf (register wk type c w).
Proof.
  intros Hw. pose proof (stored_register wk type c w) as Hst.
  apply wf_from_stored.
  - unfold register. destruct (storedCallbacks w !! type) as [a|] eqn:Hm.
    + destruct (has_cb c (array a w)); apply (wf_listening w Hw).
    + cbn [storedCallbacks listening set_listening set_storedCallbacks].
      intros t b Hb. destruct (decide (t = type)) as [->|Hne]; [set_solver|].
      rewrite lookup_insert_ne in Hb by done.
      apply elem_of_union_r. by apply (wf_listening w Hw t b).
  - unfold register. destruct (storedCallbacks w !! type) as [a|] eqn:Hm.
    + destruct (has_cb c (array a w)); [apply (wf_valid w Hw)|].
      cbn [storedCallbacks arrays set_next_item set_array set_arrays].
      intros t b Hb. rewrite length_insert. by apply (wf_valid w Hw t b).
    + cbn [storedCallbacks arrays set_listening set_storedCallbacks set_next_item
             set_arrays].
      intros t b Hb. rewrite length_app. cbn [length].
      destruct (decide (t = type)) as [->|Hne].
      * rewrite lookup_insert_eq in Hb. injection Hb as <-. lia.
      * rewrite lookup_insert_ne in Hb by done.
        pose proof (wf_valid w Hw t b Hb). lia.
  - unfold register. destruct (storedCallbacks w !! type) as [a|] eqn:Hm.
    + destruct (has_cb c (array a w)); apply (wf_own w Hw).
    + cbn [storedCallbacks set_listening set_storedCallbacks].
      intros t1 t2 b H1 H2.
      destruct (decide (t1 = type)) as [->|Hne1], (decide (t2 = type)) as [->|Hne2];
        try done.
      * rewrite lookup_insert_eq in H1. rewrite lookup_insert_ne in H2 by done.
        injection H1 as <-. pose proof (wf_valid w Hw t2 _ H2). lia.
      * rewrite lookup_insert_eq in H2. rewrite lookup_insert_ne in H1 by done.
        injection H2 as <-. pose proof (wf_valid w Hw t1 _ H1). lia.
      * rewrite lookup_insert_ne in H1, H2 by done. by apply (wf_own w Hw t1 t2 b).
  - intros t b Hb. rewrite (Hst t Hw). case_decide as Ht.
    + subst t. destruct (has_cb c (stored type w)) eqn:Hc.
      * split; [|by apply stored_NoDup].
        intros Hnil. rewrite Hnil in Hc. done.
      * split; [by destruct (stored type w)|].
        rewrite fmap_app. apply NoDup_app. split_and!.
        -- by apply stored_NoDup.
        -- intros x Hx Hx'. apply list_elem_of_singleton in Hx'. simpl in Hx'. subst x.
           apply has_cb_true in Hx. congruence.
        -- apply NoDup_singleton.
    + assert (Hb' : storedCallbacks w !! t = Some b).
      { revert Hb. unfold register.
        destruct (storedCallbacks w !! type) as [a|] eqn:Hm.
        - by destruct (has_cb c (array a w)).
        - cbn [storedCallbacks set_listening set_storedCallbacks].
          by rewrite lookup_insert_ne. }
      split; [|by apply stored_NoDup].
      rewrite (stored_lookup t b w Hb'). by apply (wf_nonempty w Hw t).
Qed.

Lemma stored_forget (type : string) (w : World) (t : string) :
  stored t (forget type w) = if decide (t = type) then [] else stored t w.
Proof.
  unfold stored, forget. cbn [storedCallbacks set_listening set_storedCallbacks].
  case_decide as Ht.
  - subst t. by rewrite lookup_delete_eq.
  - by rewrite lookup_delete_ne.
Qed.

Lemma forget_wf (type : string) (w : World) :
  (∀ t a, t ≠ type → storedCallbacks w !! t = Some a → t ∈ listening w) →
  (∀ t a, t ≠ type → storedCallbacks w !! t = Some a → a < length (arrays w)) →
  (∀ t1 t2 a, t1 ≠ type → t2 ≠ type → storedCallbacks w !! t1 = Some a →
              storedCallbacks w !! t2 = Some a → t1 = t2) →
  (∀ t a, t ≠ type → storedCallbacks w !! t = Some a →
          array a w ≠ [] ∧ NoDup (cb <$> array a w)) →
  wf (forget type w).
Proof.
  intros Hl Hv Ho Hs.
  assert (Hlook : ∀ t a, storedCallbacks (forget type w) !! t = Some a →
                         t ≠ type ∧ storedCallbacks w !! t = Some a).
  { intros t a. unfold forget. cbn [storedCallbacks set_listening set_storedCallbacks].
    intros Hm. apply lookup_delete_Some in Hm as [Hne Hm]. done. }
  constructor.
  - intros t a Hm. apply Hlook in Hm as [Hne Hm]. unfold forget. simpl.
    apply elem_of_difference. split; [by apply (Hl t a)|set_solver].
  - intros t a Hm. apply Hlook in Hm as [Hne Hm]. by apply (Hv t a).
  - intros t1 t2 a H1 H2. apply Hlook in H1 as [Hne1 H1]. apply Hlook in H2 as [Hne2 H2].
    by apply (Ho t1 t2 a).
  - intros t a Hm. apply Hlook in Hm as [Hne Hm]. by apply (Hs t a).
  - intros t a Hm. apply Hlook in Hm as [Hne Hm]. by apply (Hs t a).
Qed.

Lemma stored_off (type : string) (c : nat) (w : World) (t : string) :
  wf w →
  stored t (off type c w)
  = if decide (t = type) then filter (λ item, cb item ≠ c) (stored type w)
    else stored t w.
Proof.
  intros Hw. unfold off.
  destruct (storedCallbacks w !! type) as [a|] eqn:Hm.
  - rewrite (stored_lookup type a w Hm).
    rewrite (findIndex_delete c (array a w)) by apply (wf_once w Hw type a Hm).
    set (l := filter _ (array a w)).
    assert (Hother : t ≠ type → stored t (set_array a l w) = stored t w).
    { intros Ht. unfold stored. cbn [storedCallbacks set_array set_arrays].
      destruct (storedCallbacks w !! t) as [b|] eqn:Hb; [|done].
      apply (array_set_array_ne a b _ w). intros ->.
      apply Ht. by apply (wf_own w Hw t type b). }
    assert (Hsame : stored type (set_array a l w) = l).
    { unfold stored. cbn [storedCallbacks set_array set_arrays]. rewrite Hm.
      apply (array_set_array_eq a _ w), (wf_valid w Hw type a Hm). }
    case_decide as Hl.
    + rewrite stored_forget. case_decide as Ht; [by destruct l|by apply Hother].
    + case_decide as Ht; [by subst t|by apply Hother].
  - rewrite stored_forget, (stored_absent type w Hm). by case_decide.
Qed.

Lemma off_wf (type : string) (c : nat) (w : World) : wf w → wf (off type c w).
Proof.
  intros Hw. unfold off.
  destruct (storedCallbacks w !! type) as [a|] eqn:Hm.
  - rewrite (findIndex_delete c (array a w)) by apply (wf_once w Hw type a Hm).
    set (l := filter _ (array a w)).
    assert (Hother : ∀ t b, t ≠ type → storedCallbacks w !! t = Some b →
                            array b (set_array a l w) = array b w).
    { intros t b Ht Hb. apply (array_set_array_ne a b _ w). intros ->.
      apply Ht. by apply (wf_own w Hw t type b). }
    case_decide as Hl.
    + apply forget_wf.
      * intros t b _. apply (wf_listening w Hw).
      * intros t b _ Hb. cbn [arrays set_array set_arrays]. rewrite length_insert.
        by apply (wf_valid w Hw t b).
      * intros t1 t2 b _ _. apply (wf_own w Hw).
      * intros t b Ht Hb. cbn [storedCallbacks set_array set_arrays] in Hb.
        rewrite (Hother t b Ht Hb).
        split; [by apply (wf_nonempty w Hw t)|by apply (wf_once w Hw t)].
    + constructor.
      * apply (wf_listening w Hw).
      * intros t b Hb. cbn [arrays set_array set_arrays]. rewrite length_insert.
        by apply (wf_valid w Hw t b).
      * apply (wf_own w Hw).
      * intros t b Hb. cbn [storedCallbacks set_array set_arrays] in Hb.
        destruct (decide (t = type)) as [->|Ht].
        -- rewrite Hm in Hb. injection Hb as <-.
           rewrite (array_set_array_eq a _ w) by apply (wf_valid w Hw type a Hm).
           intros Hnil. rewrite Hnil in Hl. done.
        -- rewrite (Hother t b Ht Hb). by apply (wf_nonempty w Hw t).
      * intros t b Hb. cbn [storedCallbacks set_array set_arrays] in Hb.
        destruct (decide (t = type)) as [->|Ht].
        -- rewrite Hm in Hb. injection Hb as <-.
           rewrite (array_set_array_eq a _ w) by apply (wf_valid w Hw type a Hm).
           eapply sublist_NoDup; [apply (wf_once w Hw type a Hm)|].
           apply fmap_sublist, sublist_filter.
        -- rewrite (Hother t b Ht Hb). by apply (wf_once w Hw t).
  - apply forget_wf.
    + intros t b _. apply (wf_listening w Hw).
    + intros t b _. apply (wf_valid w Hw).
    + intros t1 t2 b _ _. apply (wf_own w Hw).
    + intros t b _ Hb. split; [by apply (wf_nonempty w Hw t)|by apply (wf_once w Hw t)].
Qed.

Lemma stored_offAll (type : string) (w : World) (t : string) :
  wf w →
  stored t (offAll type w) = if decide (t = type) then [] else stored t w.
Proof.
  intros Hw. unfold offAll. rewrite stored_forget. case_decide as Ht; [done|].
  destruct (storedCallbacks w !! type) as [a|] eqn:Hm; [|done].
  unfold stored. cbn [storedCallbacks set_array set_arrays].
  destruct (storedCallbacks w !! t) as [b|] eqn:Hb; [|done].
  apply (array_set_array_ne a b _ w). intros ->.
  apply Ht. by apply (wf_own w Hw t type b).
Qed.

Lemma offAll_wf (type : string) (w : World) : wf w → wf (offAll type w).
Proof.
  intros Hw. unfold offAll.
  destruct (storedCallbacks w !! type) as [a|] eqn:Hm.
  - apply forget_wf.
    + intros t b _. apply (wf_listening w Hw).
    + intros t b _ Hb. cbn [arrays set_array set_arrays]. rewrite length_insert.
      by apply (wf_valid w Hw t b).
    + intros t1 t2 b _ _. apply (wf_own w Hw).
    + intros t b Ht Hb. cbn [storedCallbacks set_array set_arrays] in Hb.
      rewrite (array_set_array_ne a b _ w).
      * split; [by apply (wf_nonempty w Hw t)|by apply (wf_once w Hw t)].
      * intros ->. apply Ht. by apply (wf_own w Hw t type b).
  - apply forget_wf.
    + intros t b _. apply (wf_listening w Hw).
    + intros t b _. apply (wf_valid w Hw).
    + intros t1 t2 b _ _. apply (wf_own w Hw).
    + intros t b _ Hb. split; [by apply (wf_nonempty w Hw t)|by apply (wf_once w Hw t)].
Qed.

Lemma offAll_calls (type : string) (w : World) : calls (offAll type w) = calls w.
Proof. unfold offAll. by destruct (storedCallbacks w !! type). Qed.

Lemma clear_effect (w : World) :
  storedCallbacks (clear w) = ∅ ∧ calls (clear w) = calls w.
Proof.
  split; [done|]. unfold clear. cbn [calls set_storedCallbacks].
  apply (map_fold_weak_ind (λ r _, calls r = calls w)); [done|].
  intros type a m r _ Hr. by rewrite offAll_calls.
Qed.

Lemma clear_wf (w : World) : wf (clear w).
Proof.
  constructor; unfold clear; cbn [storedCallbacks set_storedCallbacks];
    intros *; by rewrite lookup_empty.
Qed.

Lemma register_calls (wk : bool) (type : string) (c : nat) (w : World) :
  calls (register wk type c w) = calls w.
Proof.
  unfold register. destruct (storedCallbacks w !! type) as [a|]; [|done].
  by destruct (has_cb c (array a w)).
Qed.

Lemma off_calls (type : string) (c : nat) (w : World) : calls (off type c w) = calls w.
Proof.
  unfold off. destruct (storedCallbacks w !! type) as [a|]; [|done].
  by case_decide.
Qed.

(** *** One dispatch *)

Lemma mark_fields (c : CallbackItem) (w : World) :
  storedCallbacks (mark c w) = storedCallbacks w ∧ arrays (mark c w) = arrays w
  ∧ next_item (mark c w) = next_item w ∧ listening (mark c w) = listening w
  ∧ calls (mark c w) = calls w
  ∧ fired w ⊆ fired (mark c w)
  ∧ (weak c = true → item_id c ∈ fired (mark c w))
  ∧ (∀ i, i ∈ fired (mark c w) → i ∈ fired w ∨ (weak c = true ∧ i = item_id c)).
Proof.
  unfold mark. destruct (weak c); simpl;
    [|split_and!; try done; intros i Hi; by left].
  case_bool_decide as Hf; simpl.
  - split_and!; try done. intros i Hi. by left.
  - split_and!; try done; [set_solver|set_solver|].
    intros i Hi. apply elem_of_union in Hi as [Hi|Hi]; [|by left].
    right. split; [done|]. by apply elem_of_singleton in Hi.
Qed.

(** A pass over listeners that only observe calls each in order, sets the
    flag of the [once] items it visits and changes nothing else. *)
Lemma forEach_quiet (n k a : nat) (data : Data) (w : World) :
  (∀ c, c ∈ take n (drop k (array a w)) → listener_code (cb c) = []) →
  storedCallbacks (forEach n k a data w) = storedCallbacks w
  ∧ arrays (forEach n k a data w) = arrays w
  ∧ next_item (forEach n k a data w) = next_item w
  ∧ listening (forEach n k a data w) = listening w
  ∧ calls (forEach n k a data w)
    = calls w ++ ((λ c, (cb c, data)) <$> take n (drop k (array a w)))
  ∧ fired w ⊆ fired (forEach n k a data w)
  ∧ (∀ c, c ∈ take n (drop k (array a w)) → weak c = true →
          item_id c ∈ fired (forEach n k a data w))
  ∧ (∀ i, i ∈ fired (forEach n k a data w) →
          i ∈ fired w
          ∨ ∃ c, c ∈ take n (drop k (array a w)) ∧ weak c = true ∧ item_id c = i).
Proof.
  revert k w. induction n as [|n IH]; intros k w Hq.
  - simpl. rewrite app_nil_r. split_and!; try done.
    + intros c Hc. by apply not_elem_of_nil in Hc.
    + intros i Hi. by left.
  - cbn [EventEmitter.forEach]. destruct (array a w !! k) as [c|] eqn:Hk.
    + rewrite (drop_S _ _ _ Hk) in Hq |- *. cbn [take] in Hq |- *.
      rewrite (Hq c) by apply list_elem_of_here. cbn [run_actions].
      set (w1 := mark c (set_calls (calls w ++ [(cb c, data)]) w)).
      destruct (mark_fields c (set_calls (calls w ++ [(cb c, data)]) w))
        as (Em & Ea & En & El & Ec & Hsub & Hset & Hfrom).
      fold w1 in Em, Ea, En, El, Ec, Hsub, Hset, Hfrom.
      assert (Harr : array a w1 = array a w) by (unfold array; by rewrite Ea).
      specialize (IH (S k) w1). rewrite Harr in IH.
      destruct IH as (-> & -> & -> & -> & -> & Hsub' & Hset' & Hfrom').
      { intros c' Hc'. apply Hq. by apply list_elem_of_further. }
      rewrite Em, Ea, En, El, Ec. cbn [calls set_calls fmap list_fmap].
      rewrite <- app_assoc. split_and!; try done.
      * etrans; [exact Hsub|exact Hsub'].
      * intros c' Hc' Hwk. apply elem_of_cons in Hc' as [->|Hc'].
        -- apply Hsub'. by apply Hset.
        -- by apply Hset'.
      * intros i Hi. apply Hfrom' in Hi as [Hi|(c' & Hc' & Hwk & Hid)].
        -- apply Hfrom in Hi as [Hi|[Hwk ->]]; [by left|].
           right. exists c. split_and!; [apply list_elem_of_here|done|done].
        -- right. exists c'. split_and!; [by apply list_elem_of_further|done|done].
    + assert (Hnil : drop k (array a w) = []).
      { apply drop_ge. by apply lookup_ge_None. }
      assert (Hnil' : drop (S k) (array a w) = []).
      { apply drop_ge. apply lookup_ge_None in Hk. lia. }
      specialize (IH (S k) w). rewrite Hnil' in IH. rewrite Hnil.
      rewrite take_nil in IH |- *. apply IH.
      intros c Hc. by apply not_elem_of_nil in Hc.
Qed.

(** After such a pass over the whole array, [filter] keeps the items that
    are not [once] items. *)
Lemma handler_quiet (type : string) (data : Data) (w : World) (a : nat) :
  storedCallbacks w !! type = Some a → a < length (arrays w) → array a w ≠ [] →
  (∀ c, c ∈ array a w → listener_code (cb c) = []) →
  calls (handler type data w) = calls w ++ ((λ c, (cb c, data)) <$> array a w)
  ∧ stored type (handler type data w) = List.filter (λ c, negb (weak c)) (array a w)
  ∧ (∀ t b, t ≠ type → storedCallbacks w !! t = Some b → b < length (arrays w) →
            storedCallbacks (handler type data w) !! t = Some b
            ∧ array b (handler type data w) = array b w)
  ∧ (∀ t, storedCallbacks w !! t = None → storedCallbacks (handler type data w) !! t = None)
  ∧ listening (handler type data w) = listening w
  ∧ length (arrays w) ≤ length (arrays (handler type data w))
  ∧ (∀ b, storedCallbacks (handler type data w) !! type = Some b →
          length (arrays w) ≤ b ∧ b < length (arrays (handler type data w))
          ∧ List.filter (λ c, negb (weak c)) (array a w) ≠ []).
Proof.
  intros Hm Ha Hsome Hq. unfold EventEmitter.handler. rewrite Hm.
  destruct (decide (length (array a w) = 0)) as [Hlen|Hlen].
  - by destruct (array a w).
  - destruct (forEach_quiet (length (array a w)) 0 a data w)
      as (Em & Ea & En & El & Ec & Hsub & Hset & Hfrom).
    { rewrite drop_0, firstn_all. exact Hq. }
    rewrite drop_0, firstn_all in Ec, Hset, Hfrom.
    set (w1 := forEach (length (array a w)) 0 a data w) in *.
    assert (Harr : ∀ b, array b w1 = array b w) by (intros b; unfold array; by rewrite Ea).
    rewrite Harr.
    assert (Hleft : List.filter (stays w1) (array a w)
                    = List.filter (λ c, negb (weak c)) (array a w)).
    { apply List.filter_ext_in. intros c Hc. apply list_elem_of_In in Hc.
      unfold stays. destruct (weak c) eqn:Hwk; [|done]. simpl.
      rewrite bool_decide_eq_true_2; [done|]. by apply Hset. }
    rewrite Hleft. set (left := List.filter _ (array a w)).
    destruct (decide (length left = 0)) as [Hl|Hl].
    + assert (Hnil : left = []) by (by destruct left).
      cbn [calls storedCallbacks arrays listening set_storedCallbacks].
      split_and!; try done.
      * unfold stored. cbn [storedCallbacks set_storedCallbacks].
        by rewrite lookup_delete_eq.
      * intros t b Ht Hb Hv. rewrite lookup_delete_ne, Em by done. split; [done|].
        unfold array. cbn [arrays set_storedCallbacks]. by rewrite Ea.
      * intros t Ht. destruct (decide (t = type)) as [->|Hne].
        -- by rewrite lookup_delete_eq.
        -- by rewrite lookup_delete_ne, Em.
      * by rewrite Ea.
      * intros b Hb. by rewrite lookup_delete_eq in Hb.
    + cbn [calls storedCallbacks arrays listening set_storedCallbacks set_arrays].
      split_and!; try done.
      * unfold stored. cbn [storedCallbacks set_storedCallbacks set_arrays].
        rewrite lookup_insert_eq. apply (array_new left w1).
      * intros t b Ht Hb Hv. rewrite lookup_insert_ne, Em by done. split; [done|].
        rewrite <- (Harr b). apply (array_push b left w1). by rewrite Ea.
      * intros t Ht. destruct (decide (t = type)) as [->|Hne]; [congruence|].
        by rewrite lookup_insert_ne, Em.
      * rewrite length_app, Ea. lia.
      * intros b Hb. rewrite lookup_insert_eq in Hb. injection Hb as <-.
        rewrite length_app, Ea. cbn [length]. split_and!; [lia|lia|].
        intros Hnil. rewrite Hnil in Hl. done.
Qed.

Lemma forEach_add (n m k a : nat) (data : Data) (w : World) :
  forEach (n + m) k a data w = forEach m (k + n) a data (forEach n k a data w).
Proof.
  revert k w. induction n as [|n IH]; intros k w.
  - simpl. by rewrite Nat.add_0_r.
  - cbn [Nat.add EventEmitter.forEach].
    replace (k + S n) with (S k + n) by lia.
    destruct (array a w !! k); apply IH.
Qed.

Lemma filter_out_one (pre rest : list CallbackItem) (x : CallbackItem) :
  NoDup (cb <$> pre ++ x :: rest) →
  filter (λ item, cb item ≠ cb x) (pre ++ x :: rest) = pre ++ rest.
Proof.
  intros Hnd. rewrite fmap_app, fmap_cons in Hnd.
  apply NoDup_app in Hnd as (_ & Hpre & Hnd). apply NoDup_cons in Hnd as [Hx _].
  rewrite filter_app, filter_cons_False by (intros Hn; by apply Hn).
  rewrite !filter_all; [done| |].
  - intros c Hc Heq. apply Hx. rewrite <- Heq. apply list_elem_of_fmap. by exists c.
  - intros c Hc Heq. apply (Hpre (cb c)).
    + apply list_elem_of_fmap. by exists c.
    + rewrite Heq. apply list_elem_of_here.
Qed.

Lemma forEach_step (n k a : nat) (data : Data) (w : World) (c : CallbackItem) :
  array a w !! k = Some c →
  forEach (S n) k a data w
  = forEach n (S k) a data
      (mark c (run_actions (listener_code (cb c))
                 (set_calls (calls w ++ [(cb c, data)]) w))).
Proof. intros Hk. cbn [EventEmitter.forEach]. by rewrite Hk. Qed.

(** A pass in which one listener removes itself: the listener after it moves
    into its place and is not visited. *)
Lemma forEach_self_removal (type : string) (a : nat) (data : Data) (w : World)
    (pre post : list CallbackItem) (x y : CallbackItem) :
  storedCallbacks w !! type = Some a → a < length (arrays w) →
  array a w = pre ++ x :: y :: post → NoDup (cb <$> array a w) →
  listener_code (cb x) = [CallOff type (cb x)] →
  (∀ c, c ∈ pre ++ y :: post → listener_code (cb c) = []) →
  let w' := forEach (length (array a w)) 0 a data w in
  calls w' = calls w ++ ((λ c, (cb c, data)) <$> pre ++ x :: post)
  ∧ array a w' = pre ++ y :: post
  ∧ storedCallbacks w' = storedCallbacks w
  ∧ length (arrays w') = length (arrays w)
  ∧ listening w' = listening w.
Proof.
  intros Hm Ha Harr Hnd Hx Hq w'.
  (* the listeners before [x] *)
  destruct (forEach_quiet (length pre) 0 a data w) as (Em1 & Ea1 & _ & El1 & Ec1 & _).
  { rewrite drop_0, Harr, take_app_length. intros c Hc. apply Hq.
    apply elem_of_app. by left. }
  rewrite drop_0, Harr, take_app_length in Ec1.
  set (w1 := forEach (length pre) 0 a data w) in *.
  assert (Harr1 : array a w1 = pre ++ x :: y :: post).
  { unfold array. by rewrite Ea1. }
  (* [x] itself *)
  set (wc := set_calls (calls w1 ++ [(cb x, data)]) w1).
  assert (Hoff : off type (cb x) wc = set_array a (pre ++ y :: post) wc).
  { unfold off. cbn [storedCallbacks wc set_calls]. rewrite Em1, Hm.
    change (array a wc) with (array a w1).
    rewrite (findIndex_delete (cb x) (array a w1)) by (by rewrite Harr1, <- Harr).
    rewrite Harr1, filter_out_one by (by rewrite <- Harr).
    rewrite decide_False; [done|]. rewrite length_app. simpl. lia. }
  destruct (mark_fields x (set_array a (pre ++ y :: post) wc))
    as (Em2 & Ea2 & _ & El2 & Ec2 & _).
  set (w2 := mark x (set_array a (pre ++ y :: post) wc)) in *.
  assert (Harr2 : array a w2 = pre ++ y :: post).
  { unfold array. rewrite Ea2. cbn [arrays set_array set_arrays wc set_calls].
    rewrite list_lookup_insert_eq; [done|]. by rewrite Ea1. }
  assert (Hall : w' = forEach (S (length post)) (S (length pre)) a data w2).
  { subst w'. rewrite Harr, length_app. cbn [length]. rewrite forEach_add.
    fold w1. cbn [Nat.add].
    rewrite (forEach_step _ _ _ _ w1 x) by (by rewrite Harr1, list_lookup_middle).
    rewrite Hx. cbn [run_actions]. fold wc. rewrite Hoff. done. }
  (* the listeners after [y] *)
  assert (Hrest : take (S (length post)) (drop (S (length pre)) (array a w2)) = post).
  { rewrite Harr2. replace (S (length pre)) with (length pre + 1) by lia.
    rewrite <- drop_drop, drop_app_length. simpl. rewrite drop_0.
    rewrite take_ge; [done|lia]. }
  destruct (forEach_quiet (S (length post)) (S (length pre)) a data w2)
    as (Em3 & Ea3 & _ & El3 & Ec3 & _).
  { rewrite Hrest. intros c Hc. apply Hq. apply elem_of_app. right.
    by apply list_elem_of_further. }
  rewrite Hrest in Ec3. rewrite <- Hall in Em3, Ea3, El3, Ec3. clear Hall.
  split_and!.
  - rewrite Ec3, Ec2. cbn [calls set_array set_arrays wc set_calls].
    rewrite Ec1, fmap_app, fmap_cons, <- !app_assoc. done.
  - unfold array. rewrite Ea3. exact Harr2.
  - rewrite Em3, Em2. cbn [storedCallbacks set_array set_arrays wc set_calls]. exact Em1.
  - rewrite Ea3, Ea2. cbn [arrays set_array set_arrays wc set_calls].
    by rewrite length_insert, Ea1.
  - rewrite El3, El2. cbn [listening set_array set_arrays wc set_calls]. exact El1.
Qed.

(** *** Emitters whose listeners only observe *)

Section Passive.
Hypothesis Hpassive : ∀ n, listener_code n = [].

Lemma dispatch_passive (type : string) (data : Data) (w : World) :
  wf w →
  calls (dispatch type data w) = calls w ++ ((λ c, (cb c, data)) <$> stored type w)
  ∧ (∀ t, stored t (dispatch type data w)
          = if decide (t = type) then List.filter (λ c, negb (weak c)) (stored type w)
            else stored t w)
  ∧ wf (dispatch type data w).
Proof.
  intros Hw. unfold EventEmitter.dispatch.
  destruct (storedCallbacks w !! type) as [a|] eqn:Hm.
  - rewrite decide_True by (by apply (wf_listening w Hw type a)).
    rewrite (stored_lookup type a w Hm).
    destruct (handler_quiet type data w a Hm (wf_valid w Hw type a Hm)
                (wf_nonempty w Hw type a Hm))
      as (Hc & Hs & Hother & Hnone & Hl & Hlen & Hnew).
    { intros c _. apply Hpassive. }
    set (w' := handler type data w) in *.
    assert (Hback : ∀ t b, t ≠ type → storedCallbacks w' !! t = Some b →
                           storedCallbacks w !! t = Some b).
    { intros t b Ht Hb. destruct (storedCallbacks w !! t) as [b0|] eqn:Hb0.
      - destruct (Hother t b0 Ht Hb0 (wf_valid w Hw t b0 Hb0)) as [Hb' _]. congruence.
      - rewrite (Hnone t Hb0) in Hb. done. }
    assert (Hst : ∀ t, stored t w'
                       = if decide (t = type)
                         then List.filter (λ c, negb (weak c)) (array a w)
                         else stored t w).
    { intros t. case_decide as Ht; [by subst t|].
      unfold stored at 2. destruct (storedCallbacks w !! t) as [b|] eqn:Hb.
      - destruct (Hother t b Ht Hb (wf_valid w Hw t b Hb)) as [Hb' Harr].
        by rewrite (stored_lookup t b w' Hb').
      - apply stored_absent. by apply Hnone. }
    split_and!; [done|done|].
    apply wf_from_stored.
    + intros t b Hb. rewrite Hl. destruct (decide (t = type)) as [->|Ht].
      * by apply (wf_listening w Hw type a).
      * apply (wf_listening w Hw t b). by apply Hback.
    + intros t b Hb. destruct (decide (t = type)) as [->|Ht].
      * by destruct (Hnew b Hb) as (_ & ? & _).
      * pose proof (wf_valid w Hw t b (Hback t b Ht Hb)). lia.
    + intros t1 t2 b H1 H2.
      destruct (decide (t1 = type)) as [->|Hne1], (decide (t2 = type)) as [->|Hne2];
        try done.
      * destruct (Hnew b H1) as (Hge & _).
        pose proof (wf_valid w Hw t2 b (Hback t2 b Hne2 H2)). lia.
      * destruct (Hnew b H2) as (Hge & _).
        pose proof (wf_valid w Hw t1 b (Hback t1 b Hne1 H1)). lia.
      * apply (wf_own w Hw t1 t2 b); by apply Hback.
    + intros t b Hb. rewrite Hst. case_decide as Ht.
      * subst t. split; [by destruct (Hnew b Hb) as (_ & _ & ?)|].
        eapply sublist_NoDup; [apply (wf_once w Hw type a Hm)|].
        apply fmap_sublist. clear. induction (array a w) as [|x l IH]; [done|].
        simpl. destruct (negb (weak x)); [by apply sublist_skip|by apply sublist_cons].
      * pose proof (Hback t b Ht Hb) as Hb0. rewrite (stored_lookup t b w Hb0).
        split; [by apply (wf_nonempty w Hw t)|by apply (wf_once w Hw t)].
  - rewrite (stored_absent type w Hm). simpl. rewrite app_nil_r.
    assert (Hsame : (if decide (type ∈ listening w) then handler type data w else w) = w).
    { case_decide; [|done]. unfold EventEmitter.handler. by rewrite Hm. }
    rewrite Hsame. clear Hsame. split_and!; try done.
    intros t. case_decide as Ht; [|done]. subst t. by apply stored_absent.
Qed.

Lemma emitter_step_wf (w : World) (e : Event Data) : wf w → wf (step w e).
Proof.
  intros Hw. destruct e as [type c|type c|type c|type| |type data]; simpl.
  - by apply register_wf.
  - by apply register_wf.
  - by apply off_wf.
  - by apply offAll_wf.
  - apply clear_wf.
  - by apply dispatch_passive.
Qed.

Lemma emitter_run_wf (es : list (Event Data)) (w : World) : wf w → wf (run w es).
Proof.
  revert w. induction es as [|e es IH]; intros w Hw; [done|].
  unfold EventEmitter.run in *. simpl. by apply IH, emitter_step_wf.
Qed.

End Passive.

Lemma createEmitter_wf : wf (@createEmitter Data).
Proof. constructor; intros *; unfold createEmitter; simpl; by rewrite lookup_empty. Qed.

(** *** From items to what the caller sees *)

Lemma filter_fmap_comm {A B : Type} (f : A → B) (P : B → Prop) `{∀ y, Decision (P y)}
    (l : list A) :
  filter P (f <$> l) = f <$> filter (λ x, P (f x)) l.
Proof.
  induction l as [|x l IH]; [done|]. rewrite fmap_cons.
  destruct (decide (P (f x))) as [Hp|Hp].
  - rewrite !filter_cons_True by done. by rewrite fmap_cons, IH.
  - rewrite !filter_cons_False by done. exact IH.
Qed.

Lemma List_filter_bool {A : Type} (f : A → bool) (l : list A) :
  List.filter f l = filter (λ x, f x = true) l.
Proof.
  induction l as [|x l IH]; [done|]. simpl. destruct (f x) eqn:Hf.
  - rewrite filter_cons_True by done. by rewrite IH.
  - rewrite filter_cons_False by (by rewrite Hf). exact IH.
Qed.

Lemma listeners_fst (type : string) (w : World) :
  (listeners type w).*1 = cb <$> stored type w.
Proof. unfold listeners. rewrite <- list_fmap_compose. done. Qed.

Lemma listeners_register (wk : bool) (type : string) (c : nat) (w : World) (t : string) :
  wf w →
  listeners t (register wk type c w)
  = if decide (t = type)
    then if decide (c ∈ (listeners type w).*1) then listeners type w
         else listeners type w ++ [(c, wk)]
    else listeners t w.
Proof.
  intros Hw. unfold listeners at 1. rewrite stored_register by done.
  case_decide as Ht; [|done]. rewrite listeners_fst.
  destruct (has_cb c (stored type w)) eqn:Hc.
  - apply has_cb_true in Hc. by rewrite decide_True.
  - rewrite decide_False; [by rewrite fmap_app|].
    intros Hin. apply has_cb_true in Hin. congruence.
Qed.

Lemma listeners_off (type : string) (c : nat) (w : World) (t : string) :
  wf w →
  listeners t (off type c w)
  = if decide (t = type) then filter (λ x, x.1 ≠ c) (listeners type w)
    else listeners t w.
Proof.
  intros Hw. unfold listeners at 1. rewrite stored_off by done.
  case_decide as Ht; [|done]. unfold listeners. by rewrite filter_fmap_comm.
Qed.

End WithData.

End EmitterFacts.

Module EmitterExtras.
Import EventEmitter EmitterFacts.

Lemma passive_quiet : ∀ n, passive n = [].
Proof. done. Qed.

Lemma reachable_wf {Data : Type} (es : list (Event Data)) :
  wf (run passive createEmitter es).
Proof. apply (emitter_run_wf passive passive_quiet), createEmitter_wf. Qed.

(** X13. An emitter whose listeners only observe keeps, for each event type,
    one list of listeners without repeats, in order of registration.  [on]
    and [once] append the function unless the type already has it, whichever
    of the two registered it first: a function registered by [once] stays a
    one-time listener after [on], and one registered by [on] stays for good
    after [once].  [off], which is also the closure [on] returns, removes the
    function from that type only; [offAll] empties the type, [clear] every
    type; none of them calls a listener. *)
Theorem X13_emitter_keeps_one_list_of_listeners_per_type
    {Data : Type} (es : list (Event Data)) (type : string) (c : nat) (t : string) :
  let w := run passive createEmitter es in
  NoDup (listeners t w).*1
  ∧ listeners t (step passive w (On type c))
    = (if decide (t = type)
       then if decide (c ∈ (listeners type w).*1) then listeners type w
            else listeners type w ++ [(c, false)]
       else listeners t w)
  ∧ listeners t (step passive w (Once type c))
    = (if decide (t = type)
       then if decide (c ∈ (listeners type w).*1) then listeners type w
            else listeners type w ++ [(c, true)]
       else listeners t w)
  ∧ listeners t (step passive w (Off type c))
    = (if decide (t = type) then filter (λ x, x.1 ≠ c) (listeners type w)
       else listeners t w)
  ∧ listeners t (step passive w (OffAll type))
    = (if decide (t = type) then [] else listeners t w)
  ∧ listeners t (step passive w Clear) = []
  ∧ calls (step passive w (On type c)) = calls w
  ∧ calls (step passive w (Once type c)) = calls w
  ∧ calls (step passive w (Off type c)) = calls w
  ∧ calls (step passive w (OffAll type)) = calls w
  ∧ calls (step passive w Clear) = calls w.
Proof.
  intros w. pose proof (reachable_wf es) as Hw. fold w in Hw.
  split_and!.
  - rewrite listeners_fst. by apply stored_NoDup.
  - by apply listeners_register.
  - by apply listeners_register.
  - by apply listeners_off.
  - unfold listeners. simpl. rewrite stored_offAll by done. by case_decide.
  - unfold listeners, stored. simpl. by rewrite lookup_empty.
  - apply register_calls.
  - apply register_calls.
  - apply off_calls.
  - apply offAll_calls.
  - by destruct (clear_effect w).
Qed.

(** X14. On such an emitter [dispatch(type, ...rest)] calls the listeners of
    the type, each once, in order of registration, with the arguments given,
    and calls no listener of another type; afterwards the listeners
    registered by [once] are gone from the type and all others are as
    before. *)
Theorem X14_dispatch_calls_the_listeners_in_order_and_drops_the_once_listeners
    {Data : Type} (es : list (Event Data)) (type : string) (data : Data) (t : string) :
  let w := run passive createEmitter es in
  let w' := step passive w (Dispatch type data) in
  calls w' = calls w ++ ((λ x, (x.1, data)) <$> listeners type w)
  ∧ NoDup (listeners type w).*1
  ∧ listeners t w'
    = (if decide (t = type) then filter (λ x, x.2 = false) (listeners type w)
       else listeners t w).
Proof.
  intros w w'. pose proof (reachable_wf es) as Hw. fold w in Hw.
  destruct (dispatch_passive passive passive_quiet type data w Hw) as (Hc & Hs & _).
  split_and!.
  - subst w'. simpl. rewrite Hc. unfold listeners.
    by rewrite <- list_fmap_compose.
  - rewrite listeners_fst. by apply stored_NoDup.
  - subst w'. unfold listeners at 1. simpl. rewrite Hs.
    case_decide as Ht; [|done]. unfold listeners.
    rewrite filter_fmap_comm, List_filter_bool. f_equal.
    apply list_filter_iff. intros x. simpl. by destruct (weak x).
Qed.

(** X15. When a listener calls its own cancel closure while it runs, the
    listener registered right after it is not called for that event: [off]
    removes the item from the array [forEach] is walking, the next item moves
    into its place and is passed over.  The listeners before and after are
    called as usual, and the skipped listener is still registered
    afterwards. *)
Theorem X15_listener_that_removes_itself_makes_dispatch_skip_the_next
    {Data : Type} (listener_code : nat → list Action) (w : World Data) (type : string)
    (data : Data) (pre post : list CallbackItem) (x y : CallbackItem) :
  type ∈ listening w →
  stored type w = pre ++ x :: y :: post → NoDup (cb <$> stored type w) →
  listener_code (cb x) = [CallOff type (cb x)] →
  (∀ c, c ∈ pre ++ y :: post → listener_code (cb c) = []) →
  let w' := dispatch listener_code type data w in
  calls w' = calls w ++ ((λ c, (cb c, data)) <$> pre ++ x :: post)
  ∧ stored type w' = List.filter (stays w') (pre ++ y :: post)
  ∧ (weak y = false → y ∈ stored type w').
Proof.
  intros Hl Hst Hnd Hx Hq w'.
  destruct (storedCallbacks w !! type) as [a|] eqn:Hm;
    [|rewrite (stored_absent type w Hm) in Hst; by destruct pre].
  rewrite (stored_lookup type a w Hm) in Hst, Hnd.
  assert (Ha : a < length (arrays w)).
  { unfold array in Hst. destruct (arrays w !! a) as [l|] eqn:Hla.
    - by apply lookup_lt_Some in Hla.
    - by destruct pre. }
  destruct (forEach_self_removal listener_code type a data w pre post x y
              Hm Ha Hst Hnd Hx Hq) as (Hc & Harr & Hmap & _ & _).
  assert (Hw' : w' = handler listener_code type data w).
  { subst w'. unfold dispatch. by rewrite decide_True. }
  unfold handler in Hw'. rewrite Hm in Hw'.
  rewrite decide_False in Hw' by (rewrite Hst, length_app; simpl; lia).
  set (w3 := forEach listener_code (length (array a w)) 0 a data w) in *.
  cbv zeta in Hw'. rewrite Harr in Hw'.
  assert (Hstays : stays w' = stays w3).
  { rewrite Hw'. by case_decide. }
  assert (Hstored : stored type w' = List.filter (stays w') (pre ++ y :: post)).
  { rewrite Hstays. rewrite Hw'. case_decide as Hlen.
    - unfold stored. cbn [storedCallbacks set_storedCallbacks].
      rewrite lookup_delete_eq. by destruct (List.filter _ _).
    - unfold stored. cbn [storedCallbacks set_storedCallbacks set_arrays].
      rewrite lookup_insert_eq. apply (array_new _ w3). }
  split_and!.
  - rewrite Hw'. by case_decide.
  - exact Hstored.
  - intros Hwk. rewrite Hstored. apply list_elem_of_In, List.filter_In. split.
    + apply list_elem_of_In, elem_of_app. right. apply list_elem_of_here.
    + unfold stays. by rewrite Hwk.
Qed.

Lemma X15_witness :
  "tick" ∈ listening Scenarios.scenario_emitter
  ∧ stored "tick" Scenarios.scenario_emitter
    = [] ++ mkItem 0 1 false :: mkItem 1 2 false :: [mkItem 2 3 false]
  ∧ NoDup (cb <$> stored "tick" Scenarios.scenario_emitter)
  ∧ Scenarios.self_removing (cb (mkItem 0 1 false))
    = [CallOff "tick" (cb (mkItem 0 1 false))]
  ∧ calls (dispatch Scenarios.self_removing "tick" 7 Scenarios.scenario_emitter)
    = calls Scenarios.scenario_emitter
      ++ ((λ c, (cb c, 7)) <$> [] ++ mkItem 0 1 false :: [mkItem 2 3 false]).
Proof.
  assert (H1 : "tick" ∈ listening Scenarios.scenario_emitter).
  { apply (bool_decide_unpack _). vm_compute. exact I. }
  assert (H2 : stored "tick" Scenarios.scenario_emitter
               = [] ++ mkItem 0 1 false :: mkItem 1 2 false :: [mkItem 2 3 false])
    by (vm_compute; reflexivity).
  assert (H3 : NoDup (cb <$> stored "tick" Scenarios.scenario_emitter)).
  { apply (bool_decide_unpack _). vm_compute. exact I. }
  assert (H4 : Scenarios.self_removing (cb (mkItem 0 1 false))
               = [CallOff "tick" (cb (mkItem 0 1 false))]) by reflexivity.
  assert (H5 : ∀ c, c ∈ [] ++ mkItem 1 2 false :: [mkItem 2 3 false] →
                    Scenarios.self_removing (cb c) = []).
  { intros c Hc. simpl in Hc. apply elem_of_cons in Hc as [->|Hc]; [done|].
    apply list_elem_of_singleton in Hc. by subst c. }
  split_and!; [exact H1|exact H2|exact H3|exact H4|].
  exact (proj1 (X15_listener_that_removes_itself_makes_dispatch_skip_the_next
                  Scenarios.self_removing Scenarios.scenario_emitter "tick" 7
                  [] [mkItem 2 3 false] (mkItem 0 1 false) (mkItem 1 2 false)
                  H1 H2 H3 H4 H5)).
Defined.

End EmitterExtras.

(** ** The resize listener *)

Module ResizeExtras.
Import OnResize.

Lemma observer_changes (s : Z * Z) (w : World) :
  observer true s w
  = if decide (s = lastSize w) then w
    else mkWorld s (observing w) (calls w ++ [s]).
Proof.
  unfold observer. simpl. destruct s as [a b], (lastSize w) as [c d] eqn:Hl. simpl.
  destruct (Z.eqb_spec a c) as [->|Hne]; simpl.
  - destruct (Z.eqb_spec b d) as [->|Hne].
    + by rewrite decide_True.
    + rewrite decide_False; [done|]. congruence.
  - rewrite decide_False; [done|]. congruence.
Qed.

Lemma run_observations (sizes : list (Z * Z)) (w : World) :
  observing w = true →
  calls (run w (observations sizes)) = calls w ++ size_changes (lastSize w) sizes
  ∧ observing (run w (observations sizes)) = true.
Proof.
  revert w. induction sizes as [|s sizes IH]; intros w Ho.
  - simpl. by rewrite app_nil_r.
  - unfold run, observations in *. rewrite fmap_cons. cbn [foldl step].
    rewrite Ho. destruct s as [a b]. cbn [fst snd]. rewrite observer_changes.
    cbn [size_changes]. case_decide as Hs.
    + by apply IH.
    + destruct (IH (mkWorld (a, b) (observing w) (calls w ++ [(a, b)])) Ho) as [-> ->].
      simpl. by rewrite <- app_assoc.
Qed.

Lemma disconnected_run (es : list Event) (w : World) :
  observing w = false → calls (run w es) = calls w ∧ observing (run w es) = false.
Proof.
  revert w. induction es as [|e es IH]; intros w Ho; [done|].
  unfold run in *. cbn [foldl]. destruct e as [t a b|]; cbn [step].
  - rewrite Ho. by apply IH.
  - by apply (IH (disconnect w)).
Qed.

Lemma size_changes_last (s : Z * Z) (sizes : list (Z * Z)) :
  last (s :: size_changes s sizes) = last (s :: sizes).
Proof.
  revert s. induction sizes as [|r sizes IH]; intros s; [done|].
  cbn [size_changes]. case_decide as Hr.
  - subst r. rewrite IH. by rewrite (last_cons_cons s s).
  - rewrite !last_cons_cons. apply IH.
Qed.

Lemma size_changes_neighbours (s : Z * Z) (sizes : list (Z * Z)) :
  neighbours_differ (s :: size_changes s sizes).
Proof.
  revert s. induction sizes as [|r sizes IH]; intros s i a b Ha Hb.
  - destruct i; simpl in Hb; done.
  - cbn [size_changes] in Ha, Hb. case_decide as Hr.
    + by apply (IH s i).
    + destruct i as [|i].
      * simpl in Ha, Hb. congruence.
      * by apply (IH r i).
Qed.

Lemma size_changes_sublist (s : Z * Z) (sizes : list (Z * Z)) :
  size_changes s sizes `sublist_of` sizes.
Proof.
  revert s. induction sizes as [|r sizes IH]; intros s; [done|].
  cbn [size_changes]. case_decide; [by apply sublist_cons|by apply sublist_skip].
Qed.

(** X18. [onResize] calls back once for each change of the element's size:
    for the first observation, whatever the size, and then for every
    observation whose size differs from the one before it, never twice in a
    row for the same size, so that the last call was made for the size the
    element has now.  After the returned closure has been called there are
    no more calls. *)
Theorem X18_onResize_calls_back_once_per_size_change
    (sizes : list (Z * Z)) (more : list Event) :
  Forall (λ s, 0 ≤ s.1 ∧ 0 ≤ s.2)%Z sizes →
  let w := run onResize (observations sizes) in
  calls w = size_changes (-1, -1)%Z sizes
  ∧ head (calls w) = head sizes
  ∧ last (calls w) = last sizes
  ∧ neighbours_differ (calls w)
  ∧ calls w `sublist_of` sizes
  ∧ calls (run (step w Disconnect) more) = calls w.
Proof.
  intros Hpos w.
  destruct (run_observations sizes onResize eq_refl) as [Hc Ho].
  fold w in Hc, Ho. simpl in Hc.
  assert (Hfirst : ∀ s rest, sizes = s :: rest →
                             size_changes (-1, -1)%Z sizes = s :: size_changes s rest).
  { intros s rest ->. apply Forall_cons in Hpos as [[H1 H2] _].
    cbn [size_changes]. rewrite decide_False; [done|].
    intros ->. simpl in H1. lia. }
  split_and!.
  - exact Hc.
  - rewrite Hc. destruct sizes as [|s rest]; [done|]. by rewrite (Hfirst s rest).
  - rewrite Hc. destruct sizes as [|s rest]; [done|].
    rewrite (Hfirst s rest) by done. apply size_changes_last.
  - rewrite Hc. destruct sizes as [|s rest].
    + intros i a b Ha. done.
    + rewrite (Hfirst s rest) by done. apply size_changes_neighbours.
  - rewrite Hc. apply size_changes_sublist.
  - by destruct (disconnected_run more (step w Disconnect) eq_refl) as [-> _].
Qed.

Lemma X18_witness :
  Forall (λ s, 0 ≤ s.1 ∧ 0 ≤ s.2)%Z [(300, 200); (300, 200); (320, 200)]%Z
  ∧ calls (run onResize (observations [(300, 200); (300, 200); (320, 200)]%Z))
    = size_changes (-1, -1)%Z [(300, 200); (300, 200); (320, 200)]%Z.
Proof.
  assert (H : Forall (λ s, 0 ≤ s.1 ∧ 0 ≤ s.2)%Z [(300, 200); (300, 200); (320, 200)]%Z).
  { repeat constructor; simpl; lia. }
  split; [exact H|].
  exact (proj1 (X18_onResize_calls_back_once_per_size_change
                  [(300, 200); (300, 200); (320, 200)]%Z [] H)).
Defined.

End ResizeExtras.

